(** * The generic (de)serialization engine [Opm::Serializer]

    A shallow embedding of [opm/common/utility/Serializer.hpp]: one recursive
    visitor, [operator_call] (the C++ [operator()]), run in one of the three
    modes PACKSIZE, PACK and UNPACK over a value whose static C++ type is
    given by a [shape].  The byte-level Packer is a parameter.  C++ objects
    reached through smart pointers live in an explicit free store, so that
    [reset(new T1)] and the in-place reads through [*data] are what they are
    in the source. *)

From Stdlib Require Import ZArith NArith Lia List Bool.
From Stdlib Require Import Init.Byte Strings.Byte.
From stdpp Require Import base tactics numbers option list.

#[local] Open Scope nat_scope.

(** ** Data model *)

(** Primitive types handed to the Packer: the last branch of [operator()].
    [TInt] stands for any fixed-width POD scalar, [TString] for a leaf that
    is not POD. *)
Inductive leaf_type := TBool | TSize | TInt | TString.

Inductive leaf :=
| LBool (b : bool)
| LSize (n : N)            (* std::size_t *)
| LInt (z : Z)             (* int *)
| LString (s : list byte). (* std::string *)

Definition type_of (x : leaf) : leaf_type :=
  match x with
  | LBool _ => TBool
  | LSize _ => TSize
  | LInt _ => TInt
  | LString _ => TString
  end.

(** [std::is_pod_v] on the leaf types. *)
Definition is_pod (t : leaf_type) : bool :=
  match t with
  | TString => false
  | _ => true
  end.

(** Value-initialised leaf. *)
Definition leaf_default (t : leaf_type) : leaf :=
  match t with
  | TBool => LBool false
  | TSize => LSize 0
  | TInt => LInt 0
  | TString => LString []
  end.

(** The values a leaf of the C++ type can take: [size_t] has 64 bits, [int]
    has 32, a string is shorter than [2^64]. *)
Definition leaf_ok (x : leaf) : Prop :=
  match x with
  | LBool _ => True
  | LSize n => (n < 2 ^ 64)%N
  | LInt z => (- 2 ^ 31 <= z < 2 ^ 31)%Z
  | LString s => (N.of_nat (length s) < 2 ^ 64)%N
  end.

#[local] Set Warnings "-register-all".

(** The static type of the data, as far as the [if constexpr] chain of
    [operator()] tells types apart. *)
Inductive shape :=
| SLeaf (t : leaf_type)               (* none of the below: Packer *)
| SPtr (T1 : shape)                   (* is_ptr: shared_ptr, unique_ptr *)
| STuple (Ts : list shape)            (* is_pair_or_tuple *)
| SVariant (Ts : list shape)          (* is_variant *)
| SOptional (T : shape)               (* is_optional *)
| SVector (T : shape)                 (* is_vector *)
| SMap (Key T : shape)                (* is_map *)
| SArray (N : nat) (T : shape)        (* is_array *)
| SSet (Key : shape)                  (* is_set *)
| SObj (pod : bool) (members others : list shape).
    (* has_serializeOp: the data members serializeOp lists, in the order of
       its calls, and the data members it does not list; [pod] says whether
       the class is trivial and of standard layout where its members are *)

(** Addresses of the free store. *)
Definition addr := nat.

Inductive value :=
| VLeaf (x : leaf)
| VPtr (p : option addr)              (* null, or the address of the pointee *)
| VTuple (vs : list value)
| VVariant (index : nat) (v : value)  (* index() and the active alternative *)
| VOptional (o : option value)
| VVector (vs : list value)
| VMap (es : list (value * value))    (* the entries, in iteration order *)
| VArray (vs : list value)
| VSet (ks : list value)              (* the keys, in iteration order *)
| VObj (ms os : list value).          (* the members listed and not listed *)

(** Equality of values is decidable: the key comparison of the associative
    containers. *)
Definition leaf_eq_dec (x y : leaf) : {x = y} + {x <> y}.
Proof.
  decide equality;
    first [apply bool_dec | apply N.eq_dec | apply Z.eq_dec
          | apply List.list_eq_dec, Byte.byte_eq_dec].
Defined.

Definition value_eq_dec : forall v w : value, {v = w} + {v <> w}.
Proof.
  fix IH 1. intros v w.
  decide equality;
    first [ apply leaf_eq_dec | apply Nat.eq_dec
          | apply List.list_eq_dec; first [apply IH | decide equality; apply IH]
          | decide equality; first [apply Nat.eq_dec | apply IH] ].
Defined.

#[global] Instance value_eq_decision : EqDecision value := value_eq_dec.

(** A default-constructed object of each type ([T res{}], [new T1],
    [resize], [typename Map::value_type entry]). *)
Fixpoint default_value (s : shape) : value :=
  match s with
  | SLeaf t => VLeaf (leaf_default t)
  | SPtr _ => VPtr None
  | STuple Ts => VTuple (default_value <$> Ts)
  | SVariant Ts =>
      VVariant 0 (match Ts with
                  | T :: _ => default_value T
                  | [] => VTuple []
                  end)
  | SOptional _ => VOptional None
  | SVector _ => VVector []
  | SMap _ _ => VMap []
  | SArray N T => VArray (replicate N (default_value T))
  | SSet _ => VSet []
  | SObj _ members others =>
      VObj (default_value <$> members) (default_value <$> others)
  end.

(** [std::is_pod_v]: the element types a vector or array hands to the
    Packer as one contiguous run.  A [std::array] is an aggregate of its
    elements (of none, it is an empty one); a class is POD when it is trivial
    and of standard layout and all its data members are POD.  Pairs, tuples,
    optionals, variants, smart pointers and the other containers are not. *)
Fixpoint is_pod_v (T : shape) : bool :=
  match T with
  | SLeaf t => is_pod t
  | SArray N T1 => (N =? 0) || is_pod_v T1
  | SObj pod members others =>
      pod && forallb is_pod_v members && forallb is_pod_v others
  | _ => false
  end.

(** ** The Packer *)

Module Packer.
(** The six operations [Serializer] calls on [m_packer]: the three for one
    primitive and their overloads for a contiguous run of objects of a POD
    type (pointer and count).  The cursor is the [int] the source passes by
    reference as [position]: a call is given its value and returns the one
    it leaves there; [unpack] may fail. *)
Record t := mk {
  packSize : leaf -> nat;
  pack : leaf -> list byte -> Z -> list byte * Z;
  unpack : leaf_type -> list byte -> Z -> option (leaf * Z);
  packSizeN : shape -> list value -> nat;
  packN : shape -> list value -> list byte -> Z -> list byte * Z;
  unpackN : shape -> nat -> list byte -> Z -> option (list value * Z)
}.
End Packer.

(** ** Serializer state *)

Inductive Operation := PACKSIZE | PACK | UNPACK.

(** An [int] has 32 bits: what is left in one is the number taken modulo
    [2^32] into [-2^31 .. 2^31 - 1]. *)
Definition int_wrap (z : Z) : Z := ((z + 2 ^ 31) mod 2 ^ 32 - 2 ^ 31)%Z.

(** A count that an [int] holds. *)
Definition addressable (n : nat) : Prop := (Z.of_nat n < 2 ^ 31)%Z.

(** The data members of the class.  [m_position] is an [int], a number in
    [-2^31 .. 2^31 - 1]; [m_packSize] is a [size_t] and the buffer a
    [std::vector<char>]: a byte count and a buffer size are numbers of bytes
    in memory, which 64 bits hold. *)
Record Serializer := mkSerializer {
  m_op : Operation;
  m_packSize : nat;
  m_position : Z;
  m_buffer : list byte
}.

Definition with_op (op : Operation) (s : Serializer) : Serializer :=
  mkSerializer op (m_packSize s) (m_position s) (m_buffer s).
Definition with_packSize (n : nat) (s : Serializer) : Serializer :=
  mkSerializer (m_op s) n (m_position s) (m_buffer s).
Definition with_position (p : Z) (s : Serializer) : Serializer :=
  mkSerializer (m_op s) (m_packSize s) p (m_buffer s).
Definition with_buffer (b : list byte) (s : Serializer) : Serializer :=
  mkSerializer (m_op s) (m_packSize s) (m_position s) b.

(** The machine: the serializer object and the free store. *)
Definition state : Type := Serializer * list value.

Inductive error :=
| InvalidVariantIndex   (* std::runtime_error("Invalid variant index") *)
| PackerError           (* raised by the Packer *)
| BadAlloc              (* std::bad_alloc or std::length_error of a vector *)
| Undefined.            (* outside the C++ type discipline *)

(** A call returns normally or throws; either way the state is the one
    reached. *)
Inductive result (A : Type) :=
| Ok (a : A) (st : state)
| Err (e : error) (st : state).
Arguments Ok {A} a st.
Arguments Err {A} e st.

Definition M (A : Type) : Type := state -> result A.

#[global] Instance M_ret : MRet M := fun A a st => Ok a st.
#[global] Instance M_bind : MBind M := fun A B f m st =>
  match m st with
  | Ok a st' => f a st'
  | Err e st' => Err e st'
  end.

Definition throw {A} (e : error) : M A := fun st => Err e st.

(** The buffer a call leaves. *)
Definition buffer_of {A} (r : result A) : list byte :=
  match r with
  | Ok _ st => m_buffer st.1
  | Err _ st => m_buffer st.1
  end.

Definition get_op : M Operation := fun st => Ok (m_op st.1) st.
Definition set_op (op : Operation) : M unit :=
  fun st => Ok () (with_op op st.1, st.2).
Definition set_packSize (n : nat) : M unit :=
  fun st => Ok () (with_packSize n st.1, st.2).
Definition set_position (p : Z) : M unit :=
  fun st => Ok () (with_position p st.1, st.2).
(** [m_buffer.resize(m_packSize)] *)
Definition resize_buffer : M unit :=
  fun st => Ok () (with_buffer (resize (m_packSize st.1) Byte.x00 (m_buffer st.1)) st.1, st.2).

(** [new T1], [*data] as an rvalue and as the target of the in-place read. *)
Definition new (v : value) : M addr :=
  fun st => Ok (length st.2) (st.1, st.2 ++ [v]).
Definition load (a : addr) : M value :=
  fun st => match st.2 !! a with
            | Some v => Ok v st
            | None => Err Undefined st
            end.
Definition store (a : addr) (v : value) : M unit :=
  fun st => Ok () (st.1, <[a := v]> st.2).

(** ** Containers *)

(** An element put in at the slot the container's order gives it. *)
Definition insert_at {A} (i : nat) (x : A) (l : list A) : list A :=
  take i l ++ x :: drop i l.

(** ** The visitor *)

Section Serializer.
(** The Packer the serializer is constructed with ([m_packer]), and the
    iteration order of the associative containers: the slot at which a
    container holding the given keys puts a new key (its rank for
    [std::map] and [std::set], its bucket order for the unordered ones). *)
Context (m_packer : Packer.t) (place : value -> list value -> nat).
(** The allocator: whether a vector with elements of the given type gets the
    memory for the given number of them when it has to grow. *)
Context (grants : shape -> N -> bool).

(** The last branch of [operator()]: a primitive goes to the Packer, which
    moves the cursor [m_position]. *)
Definition leaf_call (t : leaf_type) (data : leaf) : M leaf :=
  fun st =>
    let s := st.1 in
    match m_op s with
    | PACKSIZE =>
        Ok data (with_packSize (m_packSize s + Packer.packSize m_packer data) s, st.2)
    | PACK =>
        let r := Packer.pack m_packer data (m_buffer s) (m_position s) in
        Ok data (with_buffer r.1 (with_position (int_wrap r.2) s), st.2)
    | UNPACK =>
        match Packer.unpack m_packer t (m_buffer s) (m_position s) with
        | Some (x, p) => Ok x (with_position (int_wrap p) s, st.2)
        | None => Err PackerError st
        end
    end.

(** [( *this)(b)] for a [bool] and [( *this)(n)] for a [std::size_t]. *)
Definition call_bool (b : bool) : M bool :=
  x ← leaf_call TBool (LBool b);
  match x with
  | LBool b' => mret b'
  | _ => throw Undefined
  end.

Definition call_size (n : N) : M N :=
  x ← leaf_call TSize (LSize n);
  match x with
  | LSize n' => mret n'
  | _ => throw Undefined
  end.

(** The three Packer calls on [getVectorData(data), data.size()], the
    elements being of the POD type [T]. *)
Definition block_call (T : shape) (data : list value) : M (list value) :=
  fun st =>
    let s := st.1 in
    match m_op s with
    | PACKSIZE =>
        Ok data (with_packSize (m_packSize s + Packer.packSizeN m_packer T data) s, st.2)
    | PACK =>
        let r := Packer.packN m_packer T data (m_buffer s) (m_position s) in
        Ok data (with_buffer r.1 (with_position (int_wrap r.2) s), st.2)
    | UNPACK =>
        match Packer.unpackN m_packer T (length data) (m_buffer s) (m_position s) with
        | Some (vs, p) =>
            if decide (length vs = length data)
            then Ok vs (with_position (int_wrap p) s, st.2)
            else Err Undefined st
        | None => Err PackerError st
        end
    end.

(** [data_mut.resize(size)] on a vector with elements of type [T]: memory is
    asked for only when the vector grows. *)
Definition vector_resize (T : shape) (size : N) (data_mut : list value)
    : M (list value) :=
  if (size <=? N.of_nat (length data_mut))%N || grants T size
  then mret (resize (N.to_nat size) (default_value T) data_mut)
  else throw BadAlloc.

(** [data_mut.clear(); data_mut.reserve(size)] on a [std::vector<bool>]:
    [clear] keeps the capacity, which holds the elements there were. *)
Definition vector_bool_reserve (size : N) (data_mut : list value)
    : M (list value) :=
  if (size <=? N.of_nat (length data_mut))%N || grants (SLeaf TBool) size
  then mret []
  else throw BadAlloc.

(** [std::for_each(data.begin(), data.end(), std::ref( *this))] *)
Fixpoint for_each {A} (f : A -> M A) (data : list A) : M (list A) :=
  match data with
  | [] => mret []
  | v :: data' => v' ← f v; vs ← for_each f data'; mret (v' :: vs)
  end.

(** The decoding loop of [map] and [set]:
    [for (i = 0; i < size; ++i) { entry; ( *this)(entry); data_mut.insert(entry); }] *)
Fixpoint insert_loop {A} (read : M A) (insert : A -> list A -> list A)
    (size : nat) (data_mut : list A) : M (list A) :=
  match size with
  | 0 => mret data_mut
  | S size' =>
      entry ← read;
      insert_loop read insert size' (insert entry data_mut)
  end.

(** [std::map::insert] and [std::set::insert]: a key already there is
    kept, with its entry. *)
Definition map_insert (entry : value * value) (data : list (value * value))
    : list (value * value) :=
  if decide (entry.1 ∈ data.*1) then data
  else insert_at (place entry.1 data.*1) entry data.

Definition set_insert (entry : value) (data : list value) : list value :=
  if decide (entry ∈ data) then data
  else insert_at (place entry data) entry data.

(** [detail::MakeVariantImpl<Ts...>::make_variant<Index, typename, Rest...>]:
    the unnamed type parameter is alternative [Index] of [Ts...]. *)
Fixpoint make_variant_impl (Ts : list shape) (Index : nat) (Rest : list shape)
    (index : N) : M value :=
  if decide (N.of_nat Index = index)
  then mret (VVariant Index (default_value (nth Index Ts (STuple []))))
  else match Rest with
       | _ :: Rest' => make_variant_impl Ts (S Index) Rest' index
       | [] => throw InvalidVariantIndex
       end.

(** [detail::make_variant<Ts...>(index)]; a [std::variant] has at least one
    alternative. *)
Definition make_variant (Ts : list shape) (index : N) : M value :=
  match Ts with
  | _ :: Rest => make_variant_impl Ts 0 Rest index
  | [] => throw Undefined
  end.

Section Handlers.
(** [*this], for the calls the handlers make on their elements. *)
Context (self : shape -> value -> M value).

(** [tuple_call<I>]: the elements in declared order. *)
Fixpoint tuple_call (Ts : list shape) (data : list value) : M (list value) :=
  match Ts, data with
  | [], [] => mret []
  | T :: Ts', v :: data' =>
      v' ← self T v; vs ← tuple_call Ts' data'; mret (v' :: vs)
  | _, _ => throw Undefined
  end.

Definition tuple (Ts : list shape) (data : list value) : M (list value) :=
  tuple_call Ts data.

(** [( *this)(entry)] on a [std::pair<const Key, T>]: the pair branch. *)
Definition pair_call (Key T : shape) (entry : value * value) : M (value * value) :=
  vs ← tuple [Key; T] [entry.1; entry.2];
  match vs with
  | [k; v] => mret (k, v)
  | _ => throw Undefined
  end.

(** [std::visit(std::ref( *this), data)] *)
Fixpoint visit (Ts : list shape) (index : nat) (v : value) : M value :=
  match Ts, index with
  | T :: _, 0 => self T v
  | _ :: Ts', S i => visit Ts' i v
  | [], _ => throw Undefined
  end.

(** Handler for vectors; the outer test is
    [std::is_pod_v<typename Vector::value_type>]. *)
Definition vector (T : shape) (data : list value) : M (list value) :=
  if is_pod_v T then
    op ← get_op;
    match op with
    | PACKSIZE =>
        _ ← call_size (N.of_nat (length data));
        block_call T data
    | PACK =>
        _ ← call_size (N.of_nat (length data));
        block_call T data
    | UNPACK =>
        size ← call_size 0;
        data_mut ← vector_resize T size data;
        block_call T data_mut
    end
  else
    op ← get_op;
    match op with
    | UNPACK =>
        size ← call_size 0;
        data_mut ← vector_resize T size data;
        for_each (self T) data_mut
    | _ =>
        _ ← call_size (N.of_nat (length data));
        for_each (self T) data
    end.

(** Handler for bool vectors. *)
Definition bool_entry (entry : value) : M value :=
  match entry with
  | VLeaf (LBool b) => b' ← call_bool b; mret (VLeaf (LBool b'))
  | _ => throw Undefined
  end.

Fixpoint push_back_loop (size : nat) (data_mut : list value) : M (list value) :=
  match size with
  | 0 => mret data_mut
  | S size' =>
      entry ← call_bool false;
      push_back_loop size' (data_mut ++ [VLeaf (LBool entry)])
  end.

Definition vector_bool (data : list value) : M (list value) :=
  op ← get_op;
  match op with
  | UNPACK =>
      size ← call_size 0;
      data_mut ← vector_bool_reserve size data;
      push_back_loop (N.to_nat size) data_mut
  | _ =>
      _ ← call_size (N.of_nat (length data));
      for_each bool_entry data
  end.

(** Handler for arrays. *)
Definition array (T : shape) (data : list value) : M (list value) :=
  if is_pod_v T then block_call T data
  else for_each (self T) data.

(** Handler for std::variant. *)
Definition variant (Ts : list shape) (data : value) : M value :=
  op ← get_op;
  match op with
  | UNPACK =>
      index ← call_size 0;
      data_mut ← make_variant Ts index;
      match data_mut with
      | VVariant i v => v' ← visit Ts i v; mret (VVariant i v')
      | _ => throw Undefined
      end
  | _ =>
      match data with
      | VVariant i v =>
          _ ← call_size (N.of_nat i);
          v' ← visit Ts i v; mret (VVariant i v')
      | _ => throw Undefined
      end
  end.

(** Handler for std::optional. *)
Definition optional (T : shape) (data : option value) : M (option value) :=
  op ← get_op;
  match op with
  | UNPACK =>
      has ← call_bool false;
      if has : bool then
        res ← self T (default_value T);
        mret (Some res)
      else mret data
  | _ =>
      _ ← call_bool (bool_decide (is_Some data));
      match data with
      | Some v => v' ← self T v; mret (Some v')
      | None => mret data
      end
  end.

(** Handler for maps. *)
Definition map (Key T : shape) (data : list (value * value))
    : M (list (value * value)) :=
  op ← get_op;
  match op with
  | UNPACK =>
      size ← call_size 0;
      insert_loop (pair_call Key T (default_value Key, default_value T))
                  map_insert (N.to_nat size) data
  | _ =>
      _ ← call_size (N.of_nat (length data));
      for_each (pair_call Key T) data
  end.

(** Handler for sets. *)
Definition set (Key : shape) (data : list value) : M (list value) :=
  op ← get_op;
  match op with
  | UNPACK =>
      size ← call_size 0;
      insert_loop (self Key (default_value Key)) set_insert (N.to_nat size) data
  | _ =>
      _ ← call_size (N.of_nat (length data));
      for_each (self Key) data
  end.

(** Handler for smart pointers. *)
Definition ptr (T1 : shape) (data : option addr) : M (option addr) :=
  value ← call_bool (bool_decide (is_Some data));
  op ← get_op;
  data' ← (match op, value with
           | UNPACK, true => a ← new (default_value T1); mret (Some a)
           | _, _ => mret data
           end);
  match data' with
  | Some a =>
      pointee ← load a;
      pointee' ← self T1 pointee;
      _ ← store a pointee';
      mret data'
  | None => mret data'
  end.
End Handlers.

(** [operator()]: the chain of [if constexpr] is the match on the shape.
    A type with [serializeOp] lists members in order,
    [serializer(m1); ...; serializer(mk);], and leaves its other members as
    they are. *)
Fixpoint operator_call (T : shape) (data : value) {struct T} : M value :=
  match T, data with
  | SPtr T1, VPtr p => p' ← ptr operator_call T1 p; mret (VPtr p')
  | STuple Ts, VTuple vs => vs' ← tuple operator_call Ts vs; mret (VTuple vs')
  | SVariant Ts, _ => variant operator_call Ts data
  | SOptional T1, VOptional o => o' ← optional operator_call T1 o; mret (VOptional o')
  | SVector (SLeaf TBool), VVector vs => vs' ← vector_bool vs; mret (VVector vs')
  | SVector T1, VVector vs => vs' ← vector operator_call T1 vs; mret (VVector vs')
  | SMap Key T1, VMap es => es' ← map operator_call Key T1 es; mret (VMap es')
  | SArray _ T1, VArray vs => vs' ← array operator_call T1 vs; mret (VArray vs')
  | SSet Key, VSet ks => ks' ← set operator_call Key ks; mret (VSet ks')
  | SObj _ members _, VObj ms os =>
      ms' ← tuple_call operator_call members ms; mret (VObj ms' os)
  | SLeaf t, VLeaf x => x' ← leaf_call t x; mret (VLeaf x')
  | _, _ => throw Undefined
  end.

(** [variadic_call(first, args...)] *)
Fixpoint variadic_call (first : shape * value) (args : list (shape * value))
    : M (list value) :=
  v ← operator_call first.1 first.2;
  match args with
  | [] => mret [v]
  | a :: args' => vs ← variadic_call a args'; mret (v :: vs)
  end.

(** [pack(const T& data)] *)
Definition pack (T : shape) (data : value) : M value :=
  _ ← set_op PACKSIZE;
  _ ← set_packSize 0;
  _ ← operator_call T data;
  _ ← set_position 0;
  _ ← resize_buffer;
  _ ← set_op PACK;
  operator_call T data.

(** [pack(const Args&... data)] *)
Definition pack_variadic (first : shape * value) (args : list (shape * value))
    : M (list value) :=
  _ ← set_op PACKSIZE;
  _ ← set_packSize 0;
  _ ← variadic_call first args;
  _ ← set_position 0;
  _ ← resize_buffer;
  _ ← set_op PACK;
  variadic_call first args.

(** [unpack(T& data)] *)
Definition unpack (T : shape) (data : value) : M value :=
  _ ← set_position 0;
  _ ← set_op UNPACK;
  operator_call T data.

(** [unpack(Args&... data)] *)
Definition unpack_variadic (first : shape * value) (args : list (shape * value))
    : M (list value) :=
  _ ← set_position 0;
  _ ← set_op UNPACK;
  variadic_call first args.

(** [position()]: the [int] converted to [size_t]. *)
Definition position : M N :=
  fun st => Ok (Z.to_N (m_position st.1 mod 2 ^ 64)) st.

Definition isSerializing : M bool :=
  fun st => Ok (match m_op st.1 with UNPACK => false | _ => true end) st.
End Serializer.

(** ** Classes with a [serializeOp] member *)

(** [pack(const T& data)] and [unpack(T& data)] at a class type [T] that has
    a [serializeOp] member: the [has_serializeOp] branch of [operator()]
    makes [( *this)(data)] the call [data.serializeOp( *this)], here [hook]. *)
Definition pack_object {A} (hook : M A) : M A :=
  _ ← set_op PACKSIZE;
  _ ← set_packSize 0;
  _ ← hook;
  _ ← set_position 0;
  _ ← resize_buffer;
  _ ← set_op PACK;
  hook.

Definition unpack_object {A} (hook : M A) : M A :=
  _ ← set_position 0;
  _ ← set_op UNPACK;
  hook.

(** [Opm::AquiferConfig]
    (opm/input/eclipse/EclipseState/Aquifer/AquiferConfig.hpp). *)
Module AquiferConfig.
(** The data members, in the order of their declaration. *)
Record t := mk {
  aquifetp : value;
  aquiferct : value;
  aquiferflux : value;
  numerical_aquifers : value;
  aqconn : value
}.

Section Members.
(** The classes of the members, whose headers are not among the sources. *)
Context (Aquifetp AquiferCT AquiferFlux NumericalAquifers Aquancon : shape).

(** [AquiferConfig() = default], every member being declared with [{}]. *)
Definition default : t :=
  mk (default_value Aquifetp) (default_value AquiferCT) (default_value AquiferFlux)
     (default_value NumericalAquifers) (default_value Aquancon).

(** [template<class Serializer> void serializeOp(Serializer& serializer)] *)
Definition serializeOp (serializer : shape -> value -> M value) (self : t) : M t :=
  fetp ← serializer Aquifetp (aquifetp self);
  ct ← serializer AquiferCT (aquiferct self);
  conn ← serializer Aquancon (aqconn self);
  flux ← serializer AquiferFlux (aquiferflux self);
  num ← serializer NumericalAquifers (numerical_aquifers self);
  mret (mk fetp ct flux num conn).
End Members.
End AquiferConfig.

(** [Opm::EclDefaultMaterialParams<Traits, GasOilParamsT, OilWaterParamsT>]
    (opm/material/fluidmatrixinteractions/EclDefaultMaterialParams.hpp). *)
Module EclDefaultMaterialParams.
(** The data members; [Scalar] is [Traits::Scalar]. *)
Record t (Scalar : Type) := mk {
  gasOilParams_ : value;
  oilWaterParams_ : value;
  Swl_ : Scalar
}.
Arguments mk {Scalar} _ _ _.
Arguments gasOilParams_ {Scalar} _.
Arguments oilWaterParams_ {Scalar} _.
Arguments Swl_ {Scalar} _.

Section Members.
Context {Scalar : Type} (GasOilParams OilWaterParams : shape).

(** [void setSwl(Scalar val)] *)
Definition setSwl (val : Scalar) (self : t Scalar) : t Scalar :=
  mk (gasOilParams_ self) (oilWaterParams_ self) val.

(** [serializeOp]: the two parameter objects, and not [Swl_]. *)
Definition serializeOp (serializer : shape -> value -> M value) (self : t Scalar)
    : M (t Scalar) :=
  gasOil ← serializer GasOilParams (gasOilParams_ self);
  oilWater ← serializer OilWaterParams (oilWaterParams_ self);
  mret (mk gasOil oilWater (Swl_ self)).
End Members.
End EclDefaultMaterialParams.

(** [Opm::EclStone1MaterialParams<Traits, GasOilLawT, OilWaterLawT>]
    (opm/material/fluidmatrixinteractions/EclStone1MaterialParams.hpp). *)
Module EclStone1MaterialParams.
(** The data members: the two parameter objects are held through
    [std::shared_ptr]. *)
Record t (Scalar : Type) := mk {
  gasOilParams_ : option addr;
  oilWaterParams_ : option addr;
  Swl_ : Scalar;
  eta_ : Scalar;
  krocw_ : Scalar
}.
Arguments mk {Scalar} _ _ _ _ _.
Arguments gasOilParams_ {Scalar} _.
Arguments oilWaterParams_ {Scalar} _.
Arguments Swl_ {Scalar} _.
Arguments eta_ {Scalar} _.
Arguments krocw_ {Scalar} _.

Section Members.
Context {Scalar : Type} (GasOilParams OilWaterParams : shape).

(** [serializer( *p)] for a [std::shared_ptr] member [p] that owns the
    object at [a]: the pointee is handed over by reference. *)
Definition through (serializer : shape -> value -> M value) (T : shape)
    (a : addr) : M unit :=
  pointee ← load a;
  pointee' ← serializer T pointee;
  store a pointee'.

(** [serializeOp]: the two pointees.  Both pointers are dereferenced
    without a test, for which C++ defines no behaviour when one of them is
    null: the call is given a meaning for an object that owns both parameter
    objects, and none otherwise. *)
Definition serializeOp (serializer : shape -> value -> M value) (self : t Scalar)
    : option (M (t Scalar)) :=
  match gasOilParams_ self, oilWaterParams_ self with
  | Some gasOil, Some oilWater =>
      Some (_ ← through serializer GasOilParams gasOil;
            _ ← through serializer OilWaterParams oilWater;
            mret self)
  | _, _ => None
  end.
End Members.
End EclStone1MaterialParams.

(** ** Buffers *)

(** The buffer [b] with the bytes [bs] written at offset [p]. *)
Definition splice (b : list byte) (p : nat) (bs : list byte) : list byte :=
  take p b ++ bs ++ drop (p + length bs) b.

(** ** A byte-exact Packer *)

(** No Packer is among the sources: the theorems take it as a parameter.
    [MemPacker.packer] is one that keeps the contract of section 6 of the
    spec, to run the serializer on sample data. *)
Module MemPacker.
(** Little-endian bytes of a number. *)
Definition byte_of (n : N) : byte := default Byte.x00 (Byte.of_N (n mod 256)).

Fixpoint le_bytes (width : nat) (n : N) : list byte :=
  match width with
  | 0 => []
  | S w => byte_of n :: le_bytes w (n / 256)
  end.

Fixpoint le_value (bs : list byte) : N :=
  match bs with
  | [] => 0
  | b :: bs' => Byte.to_N b + 256 * le_value bs'
  end.

Definition enc (x : leaf) : list byte :=
  match x with
  | LBool b => [if b then Byte.x01 else Byte.x00]
  | LSize n => le_bytes 8 n
  | LInt z => le_bytes 4 (Z.to_N (z mod 2 ^ 32))
  | LString s => le_bytes 8 (N.of_nat (length s)) ++ s
  end.

(** The [n] bytes at offset [p], if the buffer has them. *)
Definition window (b : list byte) (p : Z) (n : nat) : option (list byte) :=
  if (p <? 0)%Z then None
  else
    let bs := take n (drop (Z.to_nat p) b) in
    if decide (length bs = n) then Some bs else None.

Definition dec (t : leaf_type) (b : list byte) (p : Z) : option (leaf * Z) :=
  match t with
  | TBool =>
      bs ← window b p 1;
      Some (LBool (negb (N.eqb (le_value bs) 0)), (p + 1)%Z)
  | TSize =>
      bs ← window b p 8;
      Some (LSize (le_value bs), (p + 8)%Z)
  | TInt =>
      bs ← window b p 4;
      let n := le_value bs in
      Some (LInt (if (n <? 2 ^ 31)%N then Z.of_N n else Z.of_N n - 2 ^ 32), (p + 4)%Z)
  | TString =>
      bs ← window b p 8;
      let n := N.to_nat (le_value bs) in
      s ← window b (p + 8) n;
      Some (LString s, (p + 8 + Z.of_nat n)%Z)
  end.

(** The bytes [bs] copied into the buffer at the cursor, when they fit. *)
Definition write (b : list byte) (p : Z) (bs : list byte) : list byte * Z :=
  (if (0 <=? p)%Z && (p + Z.of_nat (length bs) <=? Z.of_nat (length b))%Z
   then splice b (Z.to_nat p) bs else b,
   (p + Z.of_nat (length bs))%Z).

(** An object of a POD type is the sequence of its data members. *)
Fixpoint enc_value (v : value) : list byte :=
  match v with
  | VLeaf x => enc x
  | VArray vs => concat (enc_value <$> vs)
  | VObj ms os => concat (enc_value <$> ms) ++ concat (enc_value <$> os)
  | _ => []
  end.

Definition encN (T : shape) (vs : list value) : list byte :=
  concat (enc_value <$> vs).

Fixpoint dec_all {A} (ds : list (list byte -> Z -> option (A * Z)))
    (b : list byte) (p : Z) : option (list A * Z) :=
  match ds with
  | [] => Some ([], p)
  | d :: ds' =>
      r ← d b p;
      rs ← dec_all ds' b r.2;
      Some (r.1 :: rs.1, rs.2)
  end.

Fixpoint dec_value (T : shape) : list byte -> Z -> option (value * Z) :=
  fun b p =>
    match T with
    | SLeaf t => r ← dec t b p; Some (VLeaf r.1, r.2)
    | SArray N T1 =>
        r ← dec_all (replicate N (dec_value T1)) b p;
        Some (VArray r.1, r.2)
    | SObj _ members others =>
        ms ← dec_all (dec_value <$> members) b p;
        os ← dec_all (dec_value <$> others) b ms.2;
        Some (VObj ms.1 os.1, os.2)
    | _ => None
    end.

Definition decN (T : shape) (n : nat) : list byte -> Z -> option (list value * Z) :=
  dec_all (replicate n (dec_value T)).

(** Modelled from the spec: the Packer collaborator (section 6: packSize,
    pack and unpack for every primitive, and their contiguous-block
    overloads), which is not among the sources.  This one copies fixed-width
    little-endian primitives into the buffer at the cursor: one byte for a
    [bool], eight for a [size_t], four for an [int], and a string as its
    length followed by its characters; an object of a POD class or array
    type is copied member by member.  It writes only inside the buffer, and
    a read past the end of the buffer fails. *)
Definition packer : Packer.t :=
  {| Packer.packSize x := length (enc x);
     Packer.pack x b p := write b p (enc x);
     Packer.unpack := dec;
     Packer.packSizeN T vs := length (encN T vs);
     Packer.packN T vs b p := write b p (encN T vs);
     Packer.unpackN := decN |}.

(** [std::map] and [std::set] over this packer's keys are not needed in
    any particular order: a new key goes last. *)
Definition place_last (k : value) (keys : list value) : nat := length keys.

(** An allocator that has room for [2^32] elements. *)
Definition grants (T : shape) (n : N) : bool := (n <=? 2 ^ 32)%N.
End MemPacker.

(** ** Sample data *)

Module Sample.
(** A serializer as constructed, holding the given buffer, and one reading
    at the given position. *)
Definition fresh (buffer : list byte) : Serializer := mkSerializer PACKSIZE 0 0 buffer.
Definition reading (position : Z) (buffer : list byte) : Serializer :=
  mkSerializer UNPACK 0 position buffer.

Definition vint (z : Z) : value := VLeaf (LInt z).
Definition vbool (b : bool) : value := VLeaf (LBool b).
Definition vstr (s : list byte) : value := VLeaf (LString s).

(** The end-to-end example: the pair of a count and a sequence of
    variable-length strings, [(2, ["A", "BB"])]. *)
Definition names_shape : shape := STuple [SLeaf TSize; SVector (SLeaf TString)].
Definition names : value :=
  VTuple [VLeaf (LSize 2); VVector [vstr [Byte.x41]; vstr [Byte.x42; Byte.x42]]].

(** A three-alternative tagged union. *)
Definition union3 : list shape := [SLeaf TInt; SLeaf TBool; SLeaf TSize].

(** A POD class with a [serializeOp] that lists the first of its two
    members, and an object of it. *)
Definition cell_shape : shape := SObj true [SLeaf TInt] [SLeaf TBool].
Definition cell (z : Z) (b : bool) : value := VObj [vint z] [vbool b].

(** One value through every handler: a tuple of a sequence of strings, an
    optional, alternative 2 of the union, a map, an owned pointee, a set, a
    sequence of bools, a sequence of POD scalars, an array, a composite, a
    sequence of POD arrays and an array of POD objects. *)
Definition all_shape : shape :=
  STuple [ SVector (SLeaf TString); SOptional (SLeaf TInt); SVariant union3;
           SMap (SLeaf TInt) (SVector (SLeaf TBool));
           SPtr (SObj false [SLeaf TInt; SLeaf TBool] []);
           SSet (SLeaf TString); SVector (SLeaf TBool); SVector (SLeaf TInt);
           SArray 2 (SLeaf TInt); SObj false [SLeaf TBool; SOptional (SLeaf TSize)] [];
           SVector (SArray 2 (SLeaf TInt)); SArray 2 cell_shape ].
Definition all_store : list value := [VObj [vint 7; vbool true] []].
Definition all_value : value :=
  VTuple [ VVector [vstr [Byte.x41]; vstr [Byte.x42; Byte.x42]];
           VOptional (Some (vint (-2)));
           VVariant 2 (VLeaf (LSize 7));
           VMap [(vint 1, VVector [vbool true]); (vint 5, VVector [])];
           VPtr (Some 0);
           VSet [vstr [Byte.x61]; vstr []];
           VVector [vbool true; vbool false];
           VVector [vint 3; vint 4];
           VArray [vint 10; vint 20];
           VObj [vbool false; VOptional None] [];
           VVector [VArray [vint 1; vint 2]];
           VArray [cell 5 true; cell 6 false] ].

(** A string of [2^31] characters. *)
Definition long_string : value :=
  vstr (replicate (Z.to_nat (2 ^ 31)) Byte.x00).

(** The fatal-decode example: the index field holds 99. *)
Definition bad_index : list byte :=
  MemPacker.le_bytes 8 99 ++ [Byte.x01; Byte.x02; Byte.x03; Byte.x04].

(** A stream for a map from [int] to [bool] with the entries [(1, true)]
    and [(1, false)]: the same key twice. *)
Definition twice_key : list byte :=
  MemPacker.le_bytes 8 2
  ++ MemPacker.enc (LInt 1) ++ MemPacker.enc (LBool true)
  ++ MemPacker.enc (LInt 1) ++ MemPacker.enc (LBool false).

(** A stream for a map from [int] to [bool] with the entries [(1, false)]
    and [(2, false)]. *)
Definition two_keys : list byte :=
  MemPacker.le_bytes 8 2
  ++ MemPacker.enc (LInt 1) ++ MemPacker.enc (LBool false)
  ++ MemPacker.enc (LInt 2) ++ MemPacker.enc (LBool false).

(** A flag and an [int]: an absent value followed by four more bytes, and a
    present value 9. *)
Definition absent : list byte := Byte.x00 :: MemPacker.enc (LInt 9).
Definition present : list byte := Byte.x01 :: MemPacker.enc (LInt 9).
End Sample.

(** Sample objects of the classes with a [serializeOp] member. *)
Module SampleObjects.
(** Member types for an [AquiferConfig], and one that holds aquifers of
    every kind. *)
Definition Aquifetp : shape := SVector (SLeaf TInt).
Definition AquiferCT : shape := SVector (SLeaf TString).
Definition AquiferFlux : shape := SMap (SLeaf TInt) (SLeaf TBool).
Definition NumericalAquifers : shape := SOptional (SLeaf TSize).
Definition Aquancon : shape := SMap (SLeaf TInt) (SVector (SLeaf TInt)).

Definition aquifers : AquiferConfig.t :=
  AquiferConfig.mk
    (VVector [Sample.vint 1; Sample.vint 2])
    (VVector [Sample.vstr [Byte.x41]])
    (VMap [(Sample.vint 3, Sample.vbool true)])
    (VOptional (Some (VLeaf (LSize 4))))
    (VMap [(Sample.vint 1, VVector [Sample.vint 10; Sample.vint 11])]).

(** Two-phase parameter objects with their dynamic state, for the
    three-phase parameter classes; [Scalar] is taken to be [Z]. *)
Definition TwoPhaseParams : shape := SObj false [SLeaf TInt; SLeaf TBool] [].
Definition gasOil : value := VObj [Sample.vint 7; Sample.vbool true] [].
Definition oilWater : value := VObj [Sample.vint 8; Sample.vbool false] [].

Definition default_params : EclDefaultMaterialParams.t Z :=
  EclDefaultMaterialParams.mk gasOil oilWater 3%Z.

(** A Stone 1 parameter object owning the two objects of [stone1_store],
    and one owning two default-constructed objects. *)
Definition stone1_store : list value := [gasOil; oilWater].
Definition stone1_params : EclStone1MaterialParams.t Z :=
  EclStone1MaterialParams.mk (Some 0) (Some 1) 1%Z 2%Z 3%Z.
Definition stone1_fresh_store : list value :=
  [default_value TwoPhaseParams; default_value TwoPhaseParams].
Definition stone1_fresh : EclStone1MaterialParams.t Z :=
  EclStone1MaterialParams.mk (Some 0) (Some 1) 0%Z 0%Z 0%Z.
End SampleObjects.

(** ** Valid values *)

(** A count that fits [std::size_t]. *)
Definition size_ok (n : nat) : Prop := (N.of_nat n < 2 ^ 64)%N.

(** [wf_value h T v]: [v] is a value of the C++ type [T] in the free store
    [h]: the leaves are in range, the counts fit [size_t], the keys of an
    associative container are distinct, and a non-null pointer owns a valid
    pointee. *)
Inductive wf_value (h : list value) : shape -> value -> Prop :=
| wf_leaf t x :
    type_of x = t -> leaf_ok x -> wf_value h (SLeaf t) (VLeaf x)
| wf_null T1 :
    wf_value h (SPtr T1) (VPtr None)
| wf_ptr T1 a v :
    h !! a = Some v -> wf_value h T1 v -> wf_value h (SPtr T1) (VPtr (Some a))
| wf_tuple Ts vs :
    Forall2 (wf_value h) Ts vs -> wf_value h (STuple Ts) (VTuple vs)
| wf_variant Ts i T v :
    Ts !! i = Some T -> size_ok i -> wf_value h T v ->
    wf_value h (SVariant Ts) (VVariant i v)
| wf_none T :
    wf_value h (SOptional T) (VOptional None)
| wf_some T v :
    wf_value h T v -> wf_value h (SOptional T) (VOptional (Some v))
| wf_vector T vs :
    size_ok (length vs) -> Forall (wf_value h T) vs ->
    wf_value h (SVector T) (VVector vs)
| wf_map Key T es :
    size_ok (length es) -> NoDup es.*1 ->
    Forall (fun e => wf_value h Key e.1 /\ wf_value h T e.2) es ->
    wf_value h (SMap Key T) (VMap es)
| wf_array N T vs :
    length vs = N -> Forall (wf_value h T) vs ->
    wf_value h (SArray N T) (VArray vs)
| wf_set Key ks :
    size_ok (length ks) -> NoDup ks -> Forall (wf_value h Key) ks ->
    wf_value h (SSet Key) (VSet ks)
| wf_obj pod members others ms os :
    Forall2 (wf_value h) members ms -> Forall2 (wf_value h) others os ->
    wf_value h (SObj pod members others) (VObj ms os).

Section Granted.
Context (grants : shape -> N -> bool).

(** [granted h T v]: the allocator grants the memory of every non-empty
    vector inside [v]. *)
Inductive granted (h : list value) : shape -> value -> Prop :=
| granted_leaf t x :
    granted h (SLeaf t) (VLeaf x)
| granted_null T1 :
    granted h (SPtr T1) (VPtr None)
| granted_ptr T1 a v :
    h !! a = Some v -> granted h T1 v -> granted h (SPtr T1) (VPtr (Some a))
| granted_tuple Ts vs :
    Forall2 (granted h) Ts vs -> granted h (STuple Ts) (VTuple vs)
| granted_variant Ts i T v :
    Ts !! i = Some T -> granted h T v -> granted h (SVariant Ts) (VVariant i v)
| granted_none T :
    granted h (SOptional T) (VOptional None)
| granted_some T v :
    granted h T v -> granted h (SOptional T) (VOptional (Some v))
| granted_vector T vs :
    (vs <> [] -> grants T (N.of_nat (length vs)) = true) ->
    Forall (granted h T) vs ->
    granted h (SVector T) (VVector vs)
| granted_map Key T es :
    Forall (fun e => granted h Key e.1 /\ granted h T e.2) es ->
    granted h (SMap Key T) (VMap es)
| granted_array N T vs :
    Forall (granted h T) vs -> granted h (SArray N T) (VArray vs)
| granted_set Key ks :
    Forall (granted h Key) ks -> granted h (SSet Key) (VSet ks)
| granted_obj pod members others ms os :
    Forall2 (granted h) members ms ->
    granted h (SObj pod members others) (VObj ms os).
End Granted.

(** Key types compared by value: no pointer, no associative container and
    no member left out of [serializeOp] inside. *)
Fixpoint key_shape (T : shape) : bool :=
  match T with
  | SLeaf _ => true
  | SPtr _ => false
  | STuple Ts => forallb key_shape Ts
  | SVariant Ts => forallb key_shape Ts
  | SOptional T1 => key_shape T1
  | SVector T1 => key_shape T1
  | SMap _ _ => false
  | SArray _ T1 => key_shape T1
  | SSet _ => false
  | SObj _ members others =>
      forallb key_shape members && bool_decide (others = [])
  end.

(** The shapes of the round-trip law: any nesting of the handlers, with
    keys compared by value. *)
Fixpoint supported (T : shape) : bool :=
  match T with
  | SLeaf _ => true
  | SPtr T1 => supported T1
  | STuple Ts => forallb supported Ts
  | SVariant Ts => forallb supported Ts
  | SOptional T1 => supported T1
  | SVector T1 => supported T1
  | SMap Key T1 => key_shape Key && supported T1
  | SArray _ T1 => supported T1
  | SSet Key => key_shape Key
  | SObj _ members _ => forallb supported members
  end.

(** ** Observational equality *)

(** [obs_eq h h' T v v']: the value [v] in the store [h] and the value [v']
    in the store [h'] are equal as C++ values of type [T]: pointers by
    their pointees, associative containers by their entries whatever the
    iteration order, and objects of a class with [serializeOp] by the
    members it lists, the others being of whatever value. *)
Inductive obs_eq (h h' : list value) : shape -> value -> value -> Prop :=
| eq_leaf t x :
    obs_eq h h' (SLeaf t) (VLeaf x) (VLeaf x)
| eq_null T1 :
    obs_eq h h' (SPtr T1) (VPtr None) (VPtr None)
| eq_ptr T1 a a' v v' :
    h !! a = Some v -> h' !! a' = Some v' -> obs_eq h h' T1 v v' ->
    obs_eq h h' (SPtr T1) (VPtr (Some a)) (VPtr (Some a'))
| eq_tuple Ts vs vs' :
    Forall3 (obs_eq h h') Ts vs vs' ->
    obs_eq h h' (STuple Ts) (VTuple vs) (VTuple vs')
| eq_variant Ts i T v v' :
    Ts !! i = Some T -> obs_eq h h' T v v' ->
    obs_eq h h' (SVariant Ts) (VVariant i v) (VVariant i v')
| eq_none T :
    obs_eq h h' (SOptional T) (VOptional None) (VOptional None)
| eq_some T v v' :
    obs_eq h h' T v v' ->
    obs_eq h h' (SOptional T) (VOptional (Some v)) (VOptional (Some v'))
| eq_vector T vs vs' :
    Forall2 (obs_eq h h' T) vs vs' ->
    obs_eq h h' (SVector T) (VVector vs) (VVector vs')
| eq_map Key T es es' es'' :
    es'' ≡ₚ es' ->
    Forall2 (fun e e' => obs_eq h h' Key e.1 e'.1 /\ obs_eq h h' T e.2 e'.2) es es'' ->
    obs_eq h h' (SMap Key T) (VMap es) (VMap es')
| eq_array N T vs vs' :
    Forall2 (obs_eq h h' T) vs vs' ->
    obs_eq h h' (SArray N T) (VArray vs) (VArray vs')
| eq_set Key ks ks' ks'' :
    ks'' ≡ₚ ks' ->
    Forall2 (obs_eq h h' Key) ks ks'' ->
    obs_eq h h' (SSet Key) (VSet ks) (VSet ks')
| eq_obj pod members others ms ms' os os' :
    Forall3 (obs_eq h h') members ms ms' ->
    length os = length others -> length os' = length others ->
    obs_eq h h' (SObj pod members others) (VObj ms os) (VObj ms' os').

(** ** The contract of the Packer *)

(** Size law: [pack] advances the cursor by [packSize] and, given room at
    the cursor, writes inside the buffer. *)
Record PackerSized (P : Packer.t) : Prop := {
  pack_position x b p :
    (Packer.pack P x b p).2 = (p + Z.of_nat (Packer.packSize P x))%Z;
  pack_length x b q :
    q + Packer.packSize P x <= length b ->
    length (Packer.pack P x b (Z.of_nat q)).1 = length b;
  packN_position T vs b p :
    (Packer.packN P T vs b p).2 = (p + Z.of_nat (Packer.packSizeN P T vs))%Z;
  packN_length T vs b q :
    q + Packer.packSizeN P T vs <= length b ->
    length (Packer.packN P T vs b (Z.of_nat q)).1 = length b
}.

(** Inversion law: [pack] writes a byte string [enc x] at the cursor, and
    [unpack] at a cursor where [enc x] stands returns [x] and steps over it;
    the same for a contiguous run of objects of a POD type. *)
Record PackerInverts (P : Packer.t)
    (enc : leaf -> list byte) (encN : shape -> list value -> list byte) : Prop := {
  packSize_enc x :
    Packer.packSize P x = length (enc x);
  pack_enc x b q :
    q + length (enc x) <= length b ->
    Packer.pack P x b (Z.of_nat q)
    = (splice b q (enc x), Z.of_nat (q + length (enc x)));
  unpack_enc x pre post :
    leaf_ok x ->
    Packer.unpack P (type_of x) (pre ++ enc x ++ post) (Z.of_nat (length pre))
    = Some (x, Z.of_nat (length pre + length (enc x)));
  packSizeN_enc T vs :
    Packer.packSizeN P T vs = length (encN T vs);
  packN_enc T vs b q :
    q + length (encN T vs) <= length b ->
    Packer.packN P T vs b (Z.of_nat q)
    = (splice b q (encN T vs), Z.of_nat (q + length (encN T vs)));
  unpackN_enc T vs pre post :
    is_pod_v T = true ->
    Forall (wf_value [] T) vs ->
    Packer.unpackN P T (length vs) (pre ++ encN T vs ++ post) (Z.of_nat (length pre))
    = Some (vs, Z.of_nat (length pre + length (encN T vs)))
}.

(** ** The entries a stream carries *)

(** What [n] successive reads return: the entries the decoding loop of [map]
    and [set] hands to [insert], in stream order. *)
Fixpoint read_n {A} (read : M A) (n : nat) : M (list A) :=
  match n with
  | 0 => mret []
  | S n' => e ← read; es ← read_n read n'; mret (e :: es)
  end.

(** The computations of a list, one after the other: what [for_each],
    [tuple_call] and the decoding loops run. *)
Fixpoint run_all {A} (ms : list (M A)) : M (list A) :=
  match ms with
  | [] => mret []
  | m :: ms' => a ← m; rest ← run_all ms'; mret (a :: rest)
  end.

(** The entries of a container with a given key. *)
Definition entries_with_key (k : value) (es : list (value * value))
    : list (value * value) :=
  filter (fun e => e.1 = k) es.

(** ** What a computation does to the buffer *)

(** The byte count a PACKSIZE pass of [m] arrives at, from zero: the size
    [pack] gives the buffer. *)
Definition pass_size {A} (m : M A) (h : list value) : nat :=
  match m (mkSerializer PACKSIZE 0 0 [], h) with
  | Ok _ st => m_packSize st.1
  | Err _ st => m_packSize st.1
  end.

(** [sized m a h k]: in the store [h], [m] returns [a] and leaves the store
    alone; a PACKSIZE pass counts [k] bytes, and a PACK pass with the cursor
    at an offset [q] from which the buffer and an [int] have room for [k]
    more moves the cursor by [k] without resizing the buffer. *)
Definition sized {A} (m : M A) (a : A) (h : list value) (k : nat) : Prop :=
  (forall s, m_op s = PACKSIZE ->
     m (s, h) = Ok a (with_packSize (m_packSize s + k) s, h))
  /\ (forall s q, m_op s = PACK -> m_position s = Z.of_nat q ->
     q + k <= length (m_buffer s) -> addressable (q + k) ->
     exists b',
       m (s, h) = Ok a (with_buffer b' (with_position (Z.of_nat (q + k)) s), h)
       /\ length b' = length (m_buffer s)).

(** [packs m a h bs]: as [sized], and the PACK pass writes exactly the bytes
    [bs] at the cursor. *)
Definition packs {A} (m : M A) (a : A) (h : list value) (bs : list byte) : Prop :=
  (forall s, m_op s = PACKSIZE ->
     m (s, h) = Ok a (with_packSize (m_packSize s + length bs) s, h))
  /\ (forall s q, m_op s = PACK -> m_position s = Z.of_nat q ->
     q + length bs <= length (m_buffer s) -> addressable (q + length bs) ->
     m (s, h) = Ok a (with_buffer (splice (m_buffer s) q bs)
                        (with_position (Z.of_nat (q + length bs)) s), h)).

(** [unpacks m bs Q]: an UNPACK pass with the cursor at a place where [bs]
    stands, at an offset an [int] holds, reads exactly [bs]; it returns some
    [a], having allocated the cells [hn] at the end of the store and changed
    none of the old ones, with [Q a base hn], [base] being the size of the
    store before. *)
Definition unpacks {A} (m : M A) (bs : list byte)
    (Q : A -> nat -> list value -> Prop) : Prop :=
  forall s pre post h2,
    m_op s = UNPACK -> m_buffer s = pre ++ bs ++ post ->
    m_position s = Z.of_nat (length pre) ->
    addressable (length pre + length bs) ->
    exists a hn,
      m (s, h2) = Ok a (with_position (Z.of_nat (length pre + length bs)) s, h2 ++ hn)
      /\ Q a (length h2) hn.

(** A decoded value equal to [v]: whatever the old cells of the store hold,
    the new cells [hn] make it observationally equal to [v] in [h]. *)
Definition decoded (h : list value) (T : shape) (v : value)
    : value -> nat -> list value -> Prop :=
  fun v' base hn =>
    forall hx, length hx = base -> obs_eq h (hx ++ hn) T v v'.

(** ** What a call leaves alone *)

(** The state a call leaves, whether it returns or throws. *)
Definition state_of {A} (r : result A) : state :=
  match r with
  | Ok _ st => st
  | Err _ st => st
  end.

(** [frame st st']: from [st] to [st'] the mode is the same, the byte count
    moved only in a PACKSIZE pass, the cursor only outside it, the buffer
    only in a PACK pass, and every address in use is still in use (the store
    keeps the objects a [reset] lets go of). *)
Definition frame (st st' : state) : Prop :=
  m_op st'.1 = m_op st.1
  /\ (m_op st.1 <> PACKSIZE -> m_packSize st'.1 = m_packSize st.1)
  /\ (m_op st.1 = PACKSIZE -> m_position st'.1 = m_position st.1)
  /\ (m_op st.1 <> PACK -> m_buffer st'.1 = m_buffer st.1)
  /\ length st.2 <= length st'.2.

Definition framed {A} (m : M A) : Prop :=
  forall st, frame st (state_of (m st)).

(** [reads m a]: outside an UNPACK pass [m] only reads: it leaves the free
    store as it was, and when it returns, it returns [a]. *)
Definition reads {A} (m : M A) (a : A) : Prop :=
  forall st, m_op st.1 <> UNPACK ->
    (state_of (m st)).2 = st.2
    /\ forall a' st', m st = Ok a' st' -> a' = a.

(** The types a read overwrites whole: every [optional], smart pointer, map
    and set and every class that [serializeOp] lists in part lies under a
    [variant], which is assigned a fresh alternative before it is read. *)
Fixpoint overwrites (T : shape) : bool :=
  match T with
  | SLeaf _ => true
  | SPtr _ => false
  | STuple Ts => forallb overwrites Ts
  | SVariant _ => true
  | SOptional _ => false
  | SVector T1 => overwrites T1
  | SMap _ _ => false
  | SArray _ T1 => overwrites T1
  | SSet _ => false
  | SObj _ members others =>
      forallb overwrites members && bool_decide (others = [])
  end.

(** [same_pass m m' h]: outside an UNPACK pass and over the store [h], the
    two computations leave the same state, return or throw together, and
    leave the store as it is. *)
Definition same_pass {A B} (m : M A) (m' : M B) (h : list value) : Prop :=
  forall s, m_op s <> UNPACK ->
    match m (s, h), m' (s, h) with
    | Ok _ st1, Ok _ st2 => st1 = st2 /\ st1.2 = h
    | Err _ st1, Err _ st2 => st1 = st2
    | _, _ => False
    end.

(** [agree r r0]: the two runs end alike, unless the second ran out of
    memory. *)
Definition agree {A} (r r0 : result A) : Prop :=
  (exists st', r0 = Err BadAlloc st') \/ r = r0.

(** * Properties *)

(** ** The monad *)

Lemma bind_Ok {A B} (m : M A) (f : A -> M B) st a st' :
  m st = Ok a st' -> (m ≫= f) st = f a st'.
Proof. intros H. unfold mbind, M_bind. by rewrite H. Qed.

Lemma bind_Err {A B} (m : M A) (f : A -> M B) st e st' :
  m st = Err e st' -> (m ≫= f) st = Err e st'.
Proof. intros H. unfold mbind, M_bind. by rewrite H. Qed.

Lemma bind_inv {A B} (m : M A) (f : A -> M B) st b st' :
  (m ≫= f) st = Ok b st' -> exists a st1, m st = Ok a st1 /\ f a st1 = Ok b st'.
Proof.
  unfold mbind, M_bind. destruct (m st) as [a st1|e st1]; [eauto | discriminate].
Qed.

Lemma bind_ext {A B} (m : M A) (f g : A -> M B) st :
  (forall a st1, m st = Ok a st1 -> f a st1 = g a st1) -> (m ≫= f) st = (m ≫= g) st.
Proof.
  intros H. unfold mbind, M_bind. destruct (m st) as [a st1|e st1]; [by apply H | done].
Qed.

Lemma ret_inv {A} (a b : A) st st' : (mret a : M A) st = Ok b st' -> a = b /\ st = st'.
Proof. by intros [= -> ->]. Qed.

Lemma bind_cong {A B} (m m' : M A) (f : A -> M B) st st' :
  m st = m' st' -> (m ≫= f) st = (m' ≫= f) st'.
Proof. intros H. unfold mbind, M_bind. by rewrite H. Qed.

Lemma bind_assoc {A B C} (m : M A) (f : A -> M B) (g : B -> M C) st :
  ((m ≫= f) ≫= g) st = (m ≫= fun a => f a ≫= g) st.
Proof. unfold mbind, M_bind. by destruct (m st). Qed.

Lemma get_op_run st : get_op st = Ok (m_op st.1) st.
Proof. done. Qed.

(** ** Induction on shapes, through the lists of alternatives and members *)

Lemma shape_nested_ind (Q : shape -> Prop) :
  (forall t, Q (SLeaf t)) ->
  (forall T1, Q T1 -> Q (SPtr T1)) ->
  (forall Ts, Forall Q Ts -> Q (STuple Ts)) ->
  (forall Ts, Forall Q Ts -> Q (SVariant Ts)) ->
  (forall T, Q T -> Q (SOptional T)) ->
  (forall T, Q T -> Q (SVector T)) ->
  (forall Key T, Q Key -> Q T -> Q (SMap Key T)) ->
  (forall N T, Q T -> Q (SArray N T)) ->
  (forall Key, Q Key -> Q (SSet Key)) ->
  (forall pod members others,
     Forall Q members -> Forall Q others -> Q (SObj pod members others)) ->
  forall T, Q T.
Proof.
  intros Hleaf Hptr Htuple Hvariant Hopt Hvec Hmap Harr Hset Hobj.
  fix IH 1. intros [t|T1|Ts|Ts|T|T|Key T|N T|Key|pod members others].
  - apply Hleaf.
  - apply Hptr, IH.
  - apply Htuple. induction Ts as [|T Ts IHTs]; constructor; [apply IH | apply IHTs].
  - apply Hvariant. induction Ts as [|T Ts IHTs]; constructor; [apply IH | apply IHTs].
  - apply Hopt, IH.
  - apply Hvec, IH.
  - apply Hmap; apply IH.
  - apply Harr, IH.
  - apply Hset, IH.
  - apply Hobj.
    + induction members as [|T Ts IHTs]; constructor; [apply IH | apply IHTs].
    + induction others as [|T Ts IHTs]; constructor; [apply IH | apply IHTs].
Qed.

Section Facts.
Context (P : Packer.t) (place : value -> list value -> nat).
Context (grants : shape -> N -> bool).

#[local] Abbreviation call := (operator_call P place grants).

(** *** Reading a primitive does not look at the value it overwrites *)

Lemma leaf_call_unpack t x y st :
  m_op st.1 = UNPACK -> leaf_call P t x st = leaf_call P t y st.
Proof. intros H. unfold leaf_call. by rewrite H. Qed.

Lemma call_bool_unpack b b' st :
  m_op st.1 = UNPACK -> call_bool P b st = call_bool P b' st.
Proof.
  intros H. unfold call_bool, mbind, M_bind.
  by rewrite (leaf_call_unpack _ (LBool b) (LBool b')).
Qed.

Lemma call_size_unpack n n' st :
  m_op st.1 = UNPACK -> call_size P n st = call_size P n' st.
Proof.
  intros H. unfold call_size, mbind, M_bind.
  by rewrite (leaf_call_unpack _ (LSize n) (LSize n')).
Qed.

(** Reading or writing a primitive changes neither the mode nor the store. *)
Lemma leaf_call_frame t x y st st' :
  leaf_call P t x st = Ok y st' ->
  m_op st'.1 = m_op st.1 /\ st'.2 = st.2 /\ m_buffer st'.1 = m_buffer st.1
  \/ m_op st.1 = PACK /\ m_op st'.1 = PACK /\ st'.2 = st.2.
Proof.
  unfold leaf_call. destruct st as [s h]; simpl.
  destruct (m_op s) eqn:Hop.
  - intros [= <- <-]. left. simpl. by rewrite Hop.
  - intros [= <- <-]. right. simpl. by rewrite Hop.
  - destruct (Packer.unpack P t (m_buffer s) (m_position s)) as [[x' p]|]; [|done].
    intros [= <- <-]. left. simpl. by rewrite Hop.
Qed.

Lemma leaf_call_op t x y st st' :
  leaf_call P t x st = Ok y st' -> m_op st'.1 = m_op st.1 /\ st'.2 = st.2.
Proof.
  intros H. destruct (leaf_call_frame _ _ _ _ _ H) as [(?&?&?)|(?&?&?)]; [done|].
  split; congruence.
Qed.

Lemma call_bool_op b b' st st' :
  call_bool P b st = Ok b' st' -> m_op st'.1 = m_op st.1 /\ st'.2 = st.2.
Proof.
  unfold call_bool. intros H. apply bind_inv in H as (x & st1 & H1 & H2).
  apply leaf_call_op in H1. destruct x; try discriminate.
  by injection H2 as <- <-.
Qed.

Lemma call_size_op n n' st st' :
  call_size P n st = Ok n' st' -> m_op st'.1 = m_op st.1 /\ st'.2 = st.2.
Proof.
  unfold call_size. intros H. apply bind_inv in H as (x & st1 & H1 & H2).
  apply leaf_call_op in H1. destruct x; try discriminate.
  by injection H2 as <- <-.
Qed.

(** *** Equations of [operator()] *)

Lemma call_variant Ts data :
  call (SVariant Ts) data = variant P call Ts data.
Proof. by destruct data. Qed.

Lemma visit_lookup self Ts i T v :
  Ts !! i = Some T -> visit self Ts i v = self T v.
Proof.
  revert i. induction Ts as [|T' Ts IH]; intros [|i] H; simplify_eq/=; [done|].
  by apply IH.
Qed.

(** *** [make_variant] *)

Lemma make_variant_impl_in_range Ts Rest Index index st :
  (N.of_nat Index <= index)%N ->
  (index < N.of_nat (S Index + length Rest))%N ->
  make_variant_impl Ts Index Rest index st
  = Ok (VVariant (N.to_nat index) (default_value (nth (N.to_nat index) Ts (STuple [])))) st.
Proof.
  revert Index. induction Rest as [|R Rest IH]; intros Index Hlo Hhi; simpl.
  - case_decide as Heq; [|simpl in *; lia]. subst index. by rewrite Nat2N.id.
  - case_decide as Heq.
    + subst index. by rewrite Nat2N.id.
    + apply IH; simpl in *; lia.
Qed.

Lemma make_variant_impl_out_of_range Ts Rest Index index st :
  (N.of_nat (S Index + length Rest) <= index)%N ->
  make_variant_impl Ts Index Rest index st = Err InvalidVariantIndex st.
Proof.
  revert Index. induction Rest as [|R Rest IH]; intros Index Hhi; simpl.
  - case_decide as Heq; [simpl in *; lia|done].
  - case_decide as Heq; [simpl in *; lia|].
    apply IH. simpl in *. lia.
Qed.

Lemma make_variant_in_range Ts i T st :
  Ts !! i = Some T ->
  make_variant Ts (N.of_nat i) st = Ok (VVariant i (default_value T)) st.
Proof.
  intros Hi. unfold make_variant. destruct Ts as [|T0 Rest]; [done|].
  pose proof (lookup_lt_Some _ _ _ Hi) as Hlt. simpl in Hlt.
  rewrite make_variant_impl_in_range; [|lia|simpl; lia].
  rewrite Nat2N.id. by rewrite (nth_lookup_Some _ _ _ _ Hi).
Qed.

Lemma make_variant_out_of_range Ts index st :
  Ts <> [] -> (N.of_nat (length Ts) <= index)%N ->
  make_variant Ts index st = Err InvalidVariantIndex st.
Proof.
  intros Hne Hge. unfold make_variant. destruct Ts as [|T0 Rest]; [done|].
  apply make_variant_impl_out_of_range. simpl in *. lia.
Qed.

(** C3: while a [std::variant] with [n] alternatives is unpacked, an index
    read from the buffer that is [n] or more makes the call throw
    "Invalid variant index", in the state reached by reading the index: no
    alternative is constructed and the cursor does not move past the index. *)
Theorem variant_unpack_invalid_index Ts data st index st1 :
  m_op st.1 = UNPACK ->
  Ts <> [] ->
  call_size P 0 st = Ok index st1 ->
  (N.of_nat (length Ts) <= index)%N ->
  call (SVariant Ts) data st = Err InvalidVariantIndex st1.
Proof.
  intros Hop Hne Hread Hge.
  rewrite call_variant. unfold variant.
  rewrite (bind_Ok _ _ _ _ _ (get_op_run st)), Hop.
  rewrite (bind_Ok _ _ _ _ _ Hread).
  apply bind_Err. by apply make_variant_out_of_range.
Qed.

(** C7: packing a variant that holds alternative [i] hands the index [i] to
    the Packer at the cursor (in the size pass: counts it) and then goes on
    to the payload; unpacking a buffer in which the Packer reads the index
    [i] at the cursor default-constructs alternative [i] and reads into it
    in place, whatever the destination held, so that a call that returns
    leaves a variant whose active alternative is [i]. *)
Theorem variant_tag_fidelity Ts i T v data sp su h p' :
  Ts !! i = Some T ->
  m_op sp = PACK ->
  m_op su = UNPACK ->
  Packer.unpack P TSize (m_buffer su) (m_position su) = Some (LSize (N.of_nat i), p') ->
  (forall s, m_op s = PACKSIZE ->
     call (SVariant Ts) (VVariant i v) (s, h)
     = (call T v ≫= fun v' => mret (VVariant i v'))
         (with_packSize (m_packSize s + Packer.packSize P (LSize (N.of_nat i))) s, h))
  /\ call (SVariant Ts) (VVariant i v) (sp, h)
     = (call T v ≫= fun v' => mret (VVariant i v'))
         (let r := Packer.pack P (LSize (N.of_nat i)) (m_buffer sp) (m_position sp) in
          with_buffer r.1 (with_position (int_wrap r.2) sp), h)
  /\ call (SVariant Ts) data (su, h)
     = (call T (default_value T) ≫= fun v' => mret (VVariant i v'))
         (with_position (int_wrap p') su, h)
  /\ forall w st', call (SVariant Ts) data (su, h) = Ok w st' ->
       exists v', w = VVariant i v'.
Proof.
  intros Hi Hp Hu Hread.
  assert (Hpack : forall s, m_op s <> UNPACK ->
            call (SVariant Ts) (VVariant i v) (s, h)
            = (call_size P (N.of_nat i) ≫= fun _ =>
               call T v ≫= fun v' => mret (VVariant i v')) (s, h)).
  { intros s Hop. rewrite call_variant. unfold variant.
    rewrite (bind_Ok _ _ _ _ _ (get_op_run _)). simpl.
    destruct (m_op s) eqn:E; try done;
      apply bind_ext; intros _ st1 _; by rewrite (visit_lookup _ _ _ _ _ Hi). }
  assert (Hunpack : call (SVariant Ts) data (su, h)
            = (call T (default_value T) ≫= fun v' => mret (VVariant i v'))
                (with_position (int_wrap p') su, h)).
  { assert (Hsize : call_size P 0 (su, h)
                    = Ok (N.of_nat i) (with_position (int_wrap p') su, h)).
    { unfold call_size, leaf_call, mbind, M_bind. simpl. by rewrite Hu, Hread. }
    rewrite call_variant. unfold variant.
    rewrite (bind_Ok _ _ _ _ _ (get_op_run _)). simpl. rewrite Hu.
    rewrite (bind_Ok _ _ _ _ _ Hsize).
    rewrite (bind_Ok _ _ _ _ _ (make_variant_in_range _ _ _ _ Hi)).
    by rewrite (visit_lookup _ _ _ _ _ Hi). }
  split; [|split; [|split]].
  - intros s Hs. rewrite Hpack by congruence.
    erewrite bind_Ok; [done|].
    unfold call_size, leaf_call, mbind, M_bind. simpl. by rewrite Hs.
  - rewrite Hpack by congruence.
    erewrite bind_Ok; [done|].
    unfold call_size, leaf_call, mbind, M_bind. simpl. by rewrite Hp.
  - done.
  - intros w st'. rewrite Hunpack. intros H.
    apply bind_inv in H as (v' & st1 & _ & [<- _]%ret_inv). by exists v'.
Qed.

(** *** The other equations of [operator()] *)

Lemma call_leaf t x :
  call (SLeaf t) (VLeaf x) = leaf_call P t x ≫= fun x' => mret (VLeaf x').
Proof. done. Qed.

Lemma call_ptr T1 p :
  call (SPtr T1) (VPtr p) = ptr P call T1 p ≫= fun p' => mret (VPtr p').
Proof. done. Qed.

Lemma call_tuple Ts vs :
  call (STuple Ts) (VTuple vs) = tuple call Ts vs ≫= fun vs' => mret (VTuple vs').
Proof. done. Qed.

Lemma call_optional T o :
  call (SOptional T) (VOptional o)
  = optional P call T o ≫= fun o' => mret (VOptional o').
Proof. done. Qed.

Lemma call_vector_bool vs :
  call (SVector (SLeaf TBool)) (VVector vs)
  = vector_bool P grants vs ≫= fun vs' => mret (VVector vs').
Proof. done. Qed.

Lemma call_vector T vs :
  T <> SLeaf TBool ->
  call (SVector T) (VVector vs) = vector P grants call T vs ≫= fun vs' => mret (VVector vs').
Proof. intros H. destruct T as [[]| | | | | | | | |]; done. Qed.

Lemma call_map Key T es :
  call (SMap Key T) (VMap es) = map P place call Key T es ≫= fun es' => mret (VMap es').
Proof. done. Qed.

Lemma call_array N T vs :
  call (SArray N T) (VArray vs) = array P call T vs ≫= fun vs' => mret (VArray vs').
Proof. done. Qed.

Lemma call_set Key ks :
  call (SSet Key) (VSet ks) = set P place call Key ks ≫= fun ks' => mret (VSet ks').
Proof. done. Qed.

Lemma call_obj pod members others ms os :
  call (SObj pod members others) (VObj ms os)
  = tuple_call call members ms ≫= fun ms' => mret (VObj ms' os).
Proof. done. Qed.

(** *** Optional values and smart pointers *)

(** C4, as the code has it: unpacking a [std::optional<T>] reads the
    has-value flag; if it is true, a [T] is default-constructed, read into
    and assigned to the destination; if it is false the destination is left
    as it was, so it is empty afterwards exactly when it was empty before. *)
Theorem optional_unpack_by_flag T data st has st1 :
  m_op st.1 = UNPACK ->
  call_bool P false st = Ok has st1 ->
  call (SOptional T) (VOptional data) st
  = if has
    then (call T (default_value T) ≫= fun res => mret (VOptional (Some res))) st1
    else Ok (VOptional data) st1.
Proof.
  intros Hop Hread. rewrite call_optional. unfold optional.
  rewrite bind_assoc, (bind_Ok _ _ _ _ _ (get_op_run st)), Hop.
  rewrite bind_assoc, (bind_Ok _ _ _ _ _ Hread).
  destruct has; [|done].
  rewrite bind_assoc. by apply bind_ext.
Qed.

Lemma ptr_unpack_run self T1 data st value st1 :
  m_op st.1 = UNPACK ->
  call_bool P false st = Ok value st1 ->
  ptr P self T1 data st
  = ((if value then new (default_value T1) ≫= fun a => mret (Some a) else mret data)
     ≫= fun data' =>
     match data' with
     | Some a =>
         load a ≫= fun pointee =>
         self T1 pointee ≫= fun pointee' =>
         store a pointee' ≫= fun _ => mret data'
     | None => mret data'
     end) st1.
Proof.
  intros Hop Hread.
  destruct (call_bool_op _ _ _ _ Hread) as [Hop1 _].
  unfold ptr.
  rewrite (bind_cong _ _ _ _ _ (call_bool_unpack _ false st Hop)).
  rewrite (bind_Ok _ _ _ _ _ Hread).
  rewrite (bind_Ok _ _ _ _ _ (get_op_run st1)), Hop1, Hop.
  by destruct value.
Qed.

(** C5, as the code has it: unpacking a smart pointer reads the non-null
    flag; when it is false the pointer is not re-seated: a destination that
    was null is null afterwards and nothing more is read, and a destination
    that owned a pointee still owns that pointee when the call returns. *)
Theorem ptr_unpack_flag_false T1 data st st1 :
  m_op st.1 = UNPACK ->
  call_bool P false st = Ok false st1 ->
  match data with
  | None => call (SPtr T1) (VPtr None) st = Ok (VPtr None) st1
  | Some a =>
      forall v st2, call (SPtr T1) (VPtr (Some a)) st = Ok v st2 -> v = VPtr (Some a)
  end.
Proof.
  intros Hop Hread.
  destruct data as [a|].
  - intros v st2. rewrite call_ptr.
    rewrite (bind_cong _ _ _ _ _ (ptr_unpack_run _ _ _ _ _ _ Hop Hread)).
    intros H. apply bind_inv in H as (p' & st3 & H & [<- <-]%ret_inv).
    apply bind_inv in H as (d & st4 & [<- <-]%ret_inv & H).
    apply bind_inv in H as (pointee & st5 & _ & H).
    apply bind_inv in H as (pointee' & st6 & _ & H).
    apply bind_inv in H as (u & st7 & _ & [<- <-]%ret_inv). done.
  - rewrite call_ptr.
    by rewrite (bind_cong _ _ _ _ _ (ptr_unpack_run _ _ _ _ _ _ Hop Hread)).
Qed.

(** C10: unpacking a smart pointer whose non-null flag reads true resets the
    destination to a pointee freshly allocated at an address the store did
    not hold, default-constructed, and reads into it; nothing of the result
    depends on the destination's prior state. *)
Theorem ptr_unpack_flag_true T1 data st st1 :
  m_op st.1 = UNPACK ->
  call_bool P false st = Ok true st1 ->
  st.2 !! length st.2 = None
  /\ call (SPtr T1) (VPtr data) st
     = (call T1 (default_value T1) ≫= fun pointee' =>
        store (length st.2) pointee' ≫= fun _ =>
        mret (VPtr (Some (length st.2))))
         (st1.1, st1.2 ++ [default_value T1]).
Proof.
  intros Hop Hread.
  destruct (call_bool_op _ _ _ _ Hread) as [Hop1 Hst].
  split; [by apply lookup_ge_None_2|].
  rewrite call_ptr.
  rewrite (bind_cong _ _ _ _ _ (ptr_unpack_run _ _ _ _ _ _ Hop Hread)).
  assert (Hnew : (new (default_value T1) ≫= fun a => mret (Some a)) st1
                 = Ok (Some (length st.2)) (st1.1, st1.2 ++ [default_value T1])).
  { unfold new, mbind, M_bind, mret, M_ret. by rewrite Hst. }
  rewrite bind_assoc, (bind_Ok _ _ _ _ _ Hnew).
  assert (Hload : load (length st.2) (st1.1, st1.2 ++ [default_value T1])
                  = Ok (default_value T1) (st1.1, st1.2 ++ [default_value T1])).
  { unfold load. simpl. rewrite Hst. by rewrite list_lookup_middle. }
  rewrite bind_assoc, (bind_Ok _ _ _ _ _ Hload).
  rewrite bind_assoc. apply bind_ext. intros pointee' st2 _.
  rewrite bind_assoc. apply bind_ext. intros [] st3 _. done.
Qed.

(** *** Several top-level values *)

Lemma variadic_call_tuple_call first args st :
  variadic_call P place grants first args st
  = tuple_call call (first :: args).*1 (first :: args).*2 st.
Proof.
  revert first st. induction args as [|a args IH]; intros first st; simpl.
  - apply bind_ext. intros v st1 _. done.
  - apply bind_ext. intros v st1 _. simpl in IH.
    unfold mbind at 1 3, M_bind. by rewrite IH.
Qed.

(** C8: [pack(v1, ..., vn)] and [pack] of the tuple [(v1, ..., vn)] run the
    same two passes over the same elements in the same order, with no arity
    prefix: they leave the same buffer, byte for byte, and the same state. *)
Theorem pack_variadic_as_tuple first args st :
  buffer_of (pack_variadic P place grants first args st)
  = buffer_of (pack P place grants (STuple (first :: args).*1) (VTuple (first :: args).*2) st)
  /\ (pack_variadic P place grants first args ≫= fun vs => mret (VTuple vs)) st
     = pack P place grants (STuple (first :: args).*1) (VTuple (first :: args).*2) st.
Proof.
  unfold pack, pack_variadic. rewrite call_tuple. unfold tuple.
  unfold mbind, M_bind, set_op, set_packSize, set_position, resize_buffer,
    mret, M_ret.
  rewrite !variadic_call_tuple_call.
  destruct (tuple_call _ _ _ _) as [vs st1|e st1]; [|done].
  rewrite !variadic_call_tuple_call.
  by destruct (tuple_call _ _ _ _).
Qed.

(** *** Associative containers *)

Lemma insert_at_perm {A} i (x : A) l : insert_at i x l ≡ₚ x :: l.
Proof.
  unfold insert_at. rewrite <- Permutation_middle. by rewrite take_drop.
Qed.

Lemma map_insert_perm e data :
  e.1 ∉ data.*1 -> map_insert place e data ≡ₚ e :: data.
Proof.
  intros H. unfold map_insert. rewrite decide_False by done. apply insert_at_perm.
Qed.

Lemma map_insert_dup e data :
  e.1 ∈ data.*1 -> map_insert place e data = data.
Proof. intros H. unfold map_insert. by rewrite decide_True. Qed.

Lemma set_insert_perm k data :
  k ∉ data -> set_insert place k data ≡ₚ k :: data.
Proof.
  intros H. unfold set_insert. rewrite decide_False by done. apply insert_at_perm.
Qed.

Lemma set_insert_dup k data : k ∈ data -> set_insert place k data = data.
Proof. intros H. unfold set_insert. by rewrite decide_True. Qed.

Lemma map_insert_keeps e data x : x ∈ data -> x ∈ map_insert place e data.
Proof.
  intros H. destruct (decide (e.1 ∈ data.*1)) as [Hin|Hin].
  - by rewrite map_insert_dup.
  - rewrite map_insert_perm by done. by right.
Qed.

Lemma map_insert_new e data : e.1 ∉ data.*1 -> e ∈ map_insert place e data.
Proof. intros H. rewrite map_insert_perm by done. by left. Qed.

Lemma map_insert_key e data : e.1 ∈ (map_insert place e data).*1.
Proof.
  destruct (decide (e.1 ∈ data.*1)) as [Hin|Hin].
  - by rewrite map_insert_dup.
  - rewrite map_insert_perm by done. by left.
Qed.

Lemma map_insert_NoDup e data :
  NoDup data.*1 -> NoDup (map_insert place e data).*1.
Proof.
  intros H. destruct (decide (e.1 ∈ data.*1)) as [Hin|Hin].
  - by rewrite map_insert_dup.
  - rewrite map_insert_perm by done. by constructor.
Qed.

Lemma set_insert_keeps k data x : x ∈ data -> x ∈ set_insert place k data.
Proof.
  intros H. destruct (decide (k ∈ data)) as [Hin|Hin].
  - by rewrite set_insert_dup.
  - rewrite set_insert_perm by done. by right.
Qed.

Lemma set_insert_key k data : k ∈ set_insert place k data.
Proof.
  destruct (decide (k ∈ data)) as [Hin|Hin].
  - by rewrite set_insert_dup.
  - rewrite set_insert_perm by done. by left.
Qed.

Lemma set_insert_NoDup k data : NoDup data -> NoDup (set_insert place k data).
Proof.
  intros H. destruct (decide (k ∈ data)) as [Hin|Hin].
  - by rewrite set_insert_dup.
  - rewrite set_insert_perm by done. by constructor.
Qed.

(** The decoding loop inserts what the stream carries, in stream order. *)
Lemma insert_loop_read_n {A} (read : M A) insert n data st :
  insert_loop read insert n data st
  = (read_n read n ≫= fun es => mret (foldl (fun d e => insert e d) data es)) st.
Proof.
  revert data st. induction n as [|n IH]; intros data st; simpl; [done|].
  rewrite bind_assoc. apply bind_ext. intros e st1 _.
  rewrite IH, bind_assoc. apply bind_ext. by intros es st2 _.
Qed.

Lemma foldl_map_insert_keeps es data x :
  x ∈ data -> x ∈ foldl (fun d e => map_insert place e d) data es.
Proof.
  revert data. induction es as [|e es IH]; intros data H; simpl; [done|].
  by apply IH, map_insert_keeps.
Qed.

Lemma foldl_map_insert_NoDup es data :
  NoDup data.*1 -> NoDup (foldl (fun d e => map_insert place e d) data es).*1.
Proof.
  revert data. induction es as [|e es IH]; intros data H; simpl; [done|].
  by apply IH, map_insert_NoDup.
Qed.

Lemma foldl_map_insert_key es data e :
  e ∈ es -> e.1 ∈ (foldl (fun d e => map_insert place e d) data es).*1.
Proof.
  revert data. induction es as [|e' es IH]; intros data H; simpl.
  - by apply elem_of_nil in H.
  - apply elem_of_cons in H as [->|H]; [|by apply IH].
    destruct (proj1 (list_elem_of_fmap _ _ _) (map_insert_key e' data)) as (x & Hx1 & Hx2).
    rewrite Hx1. apply list_elem_of_fmap_2. by apply foldl_map_insert_keeps.
Qed.

Lemma foldl_map_insert_first es1 e es2 data :
  e.1 ∉ data.*1 -> e.1 ∉ es1.*1 ->
  e ∈ foldl (fun d e => map_insert place e d) data (es1 ++ e :: es2).
Proof.
  revert data. induction es1 as [|e1 es1 IH]; intros data Hd H1; simpl.
  - by apply foldl_map_insert_keeps, map_insert_new.
  - rewrite fmap_cons, not_elem_of_cons in H1. destruct H1 as [Hne H1].
    apply IH; [|done].
    destruct (decide (e1.1 ∈ data.*1)) as [Hin|Hin].
    + by rewrite map_insert_dup.
    + rewrite map_insert_perm by done. rewrite fmap_cons, not_elem_of_cons. done.
Qed.

Lemma foldl_set_insert_keeps ks data x :
  x ∈ data -> x ∈ foldl (fun d k => set_insert place k d) data ks.
Proof.
  revert data. induction ks as [|k ks IH]; intros data H; simpl; [done|].
  by apply IH, set_insert_keeps.
Qed.

Lemma foldl_set_insert_NoDup ks data :
  NoDup data -> NoDup (foldl (fun d k => set_insert place k d) data ks).
Proof.
  revert data. induction ks as [|k ks IH]; intros data H; simpl; [done|].
  by apply IH, set_insert_NoDup.
Qed.

Lemma foldl_set_insert_key ks data k :
  k ∈ ks -> k ∈ foldl (fun d k => set_insert place k d) data ks.
Proof.
  revert data. induction ks as [|k' ks IH]; intros data H; simpl.
  - by apply elem_of_nil in H.
  - apply elem_of_cons in H as [->|H]; [|by apply IH].
    apply foldl_set_insert_keeps, set_insert_key.
Qed.

Lemma entries_with_key_none k (es : list (value * value)) :
  k ∉ es.*1 -> entries_with_key k es = [].
Proof.
  unfold entries_with_key. induction es as [|e es IH]; intros Hk; [done|].
  rewrite fmap_cons, not_elem_of_cons in Hk. destruct Hk as [Hne Hk].
  rewrite filter_cons_False by (simpl; congruence). by apply IH.
Qed.

(** With distinct keys, a key that is present has exactly one entry. *)
Lemma entries_with_key_one k (es : list (value * value)) :
  NoDup es.*1 -> k ∈ es.*1 -> length (entries_with_key k es) = 1.
Proof.
  induction es as [|e es IH]; intros Hnd Hin.
  - by apply elem_of_nil in Hin.
  - rewrite fmap_cons in Hnd, Hin. apply NoDup_cons in Hnd as [Hne Hnd].
    unfold entries_with_key. destruct (decide (e.1 = k)) as [Hk|Hk].
    + rewrite filter_cons_True by done. simpl. f_equal.
      fold (entries_with_key k es). rewrite entries_with_key_none; [done|congruence].
    + rewrite filter_cons_False by done. apply IH; [done|].
      apply elem_of_cons in Hin as [Hin|Hin]; [congruence|done].
Qed.

Lemma map_unpack_run self Key T data st size st1 :
  m_op st.1 = UNPACK ->
  call_size P 0 st = Ok size st1 ->
  map P place self Key T data st
  = (read_n (pair_call self Key T (default_value Key, default_value T)) (N.to_nat size)
     ≫= fun es => mret (foldl (fun d e => map_insert place e d) data es)) st1.
Proof.
  intros Hop Hread. unfold map.
  rewrite (bind_Ok _ _ _ _ _ (get_op_run st)), Hop, (bind_Ok _ _ _ _ _ Hread).
  apply insert_loop_read_n.
Qed.

Lemma set_unpack_run self Key data st size st1 :
  m_op st.1 = UNPACK ->
  call_size P 0 st = Ok size st1 ->
  set P place self Key data st
  = (read_n (self Key (default_value Key)) (N.to_nat size)
     ≫= fun ks => mret (foldl (fun d k => set_insert place k d) data ks)) st1.
Proof.
  intros Hop Hread. unfold set.
  rewrite (bind_Ok _ _ _ _ _ (get_op_run st)), Hop, (bind_Ok _ _ _ _ _ Hread).
  apply insert_loop_read_n.
Qed.

(** C6: unpacking a map or a set reads the count and inserts each decoded
    entry with the container's own insert.  Whatever the stream carries,
    the call returns normally, the keys of the destination stay distinct,
    and every decoded key has exactly one entry: entries with the same key
    collapse. *)
Theorem assoc_unpack_collapses_duplicates Key st size st1 :
  m_op st.1 = UNPACK ->
  call_size P 0 st = Ok size st1 ->
  (forall T data es st2,
     NoDup data.*1 ->
     read_n (pair_call call Key T (default_value Key, default_value T))
            (N.to_nat size) st1 = Ok es st2 ->
     exists res,
       call (SMap Key T) (VMap data) st = Ok (VMap res) st2
       /\ res = foldl (fun d e => map_insert place e d) data es
       /\ NoDup res.*1
       /\ forall e, e ∈ es -> length (entries_with_key e.1 res) = 1)
  /\ (forall data ks st2,
     NoDup data ->
     read_n (call Key (default_value Key)) (N.to_nat size) st1 = Ok ks st2 ->
     exists res,
       call (SSet Key) (VSet data) st = Ok (VSet res) st2
       /\ res = foldl (fun d k => set_insert place k d) data ks
       /\ NoDup res
       /\ forall k, k ∈ ks -> k ∈ res).
Proof.
  intros Hop Hread. split.
  - intros T data es st2 Hnd Hes. eexists. split; [|split; [done|]].
    + rewrite call_map.
      rewrite (bind_cong _ _ _ _ _ (map_unpack_run _ _ _ _ _ _ _ Hop Hread)).
      by rewrite bind_assoc, (bind_Ok _ _ _ _ _ Hes).
    + pose proof (foldl_map_insert_NoDup es data Hnd) as Hnd'.
      split; [done|]. intros e He.
      apply entries_with_key_one; [done|]. by apply foldl_map_insert_key.
  - intros data ks st2 Hnd Hks. eexists. split; [|split; [done|]].
    + rewrite call_set.
      rewrite (bind_cong _ _ _ _ _ (set_unpack_run _ _ _ _ _ _ Hop Hread)).
      by rewrite bind_assoc, (bind_Ok _ _ _ _ _ Hks).
    + split; [by apply foldl_set_insert_NoDup|].
      intros k Hk. by apply foldl_set_insert_key.
Qed.

(** *** What unpack keeps of the destination *)

Lemma for_each_length {A} (f : A -> M A) data st data' st' :
  for_each f data st = Ok data' st' -> length data' = length data.
Proof.
  revert st data'. induction data as [|v data IH]; intros st data' H; simpl in H.
  - by apply ret_inv in H as [<- _].
  - apply bind_inv in H as (v' & st1 & _ & H).
    apply bind_inv in H as (vs & st2 & Hvs & [<- <-]%ret_inv).
    simpl. f_equal. by eapply IH.
Qed.

Lemma push_back_loop_length n data_mut st data' st' :
  push_back_loop P n data_mut st = Ok data' st' ->
  length data' = length data_mut + n.
Proof.
  revert data_mut st. induction n as [|n IH]; intros data_mut st H; simpl in H.
  - apply ret_inv in H as [<- _]. lia.
  - apply bind_inv in H as (b & st1 & _ & H).
    apply IH in H. rewrite length_app in H. simpl in H. lia.
Qed.

Lemma block_call_unpack_length t data st data' st' :
  m_op st.1 = UNPACK ->
  block_call P t data st = Ok data' st' -> length data' = length data.
Proof.
  unfold block_call. intros ->.
  destruct (Packer.unpackN _ _ _ _ _) as [[xs p]|]; [|done].
  case_decide as Hlen; [|done]. by intros [= <- _].
Qed.

Lemma vector_resize_inv T size data st data_mut st' :
  vector_resize grants T size data st = Ok data_mut st' ->
  data_mut = resize (N.to_nat size) (default_value T) data /\ st' = st.
Proof. unfold vector_resize. destruct (_ || _); [by intros [= <- <-]|done]. Qed.

Lemma vector_bool_reserve_inv size data st data_mut st' :
  vector_bool_reserve grants size data st = Ok data_mut st' ->
  data_mut = [] /\ st' = st.
Proof. unfold vector_bool_reserve. destruct (_ || _); [by intros [= <- <-]|done]. Qed.

(** C9: unpacking a map or a set never clears the destination: every entry
    it held before is still there afterwards, together with every decoded
    entry whose key was neither in the destination nor earlier in the
    stream.  A vector, in contrast, ends up with exactly the decoded count
    of elements. *)
Theorem assoc_unpack_keeps_destination st :
  m_op st.1 = UNPACK ->
  (forall Key T data v st',
     call (SMap Key T) (VMap data) st = Ok v st' ->
     exists size st1 es res,
       call_size P 0 st = Ok size st1
       /\ read_n (pair_call call Key T (default_value Key, default_value T))
                 (N.to_nat size) st1 = Ok es st'
       /\ v = VMap res
       /\ (forall e, e ∈ data -> e ∈ res)
       /\ (forall es1 e es2, es = es1 ++ e :: es2 ->
              e.1 ∉ data.*1 -> e.1 ∉ es1.*1 -> e ∈ res))
  /\ (forall Key data v st',
     call (SSet Key) (VSet data) st = Ok v st' ->
     exists size st1 ks res,
       call_size P 0 st = Ok size st1
       /\ read_n (call Key (default_value Key)) (N.to_nat size) st1 = Ok ks st'
       /\ v = VSet res
       /\ (forall k, k ∈ data -> k ∈ res)
       /\ (forall k, k ∈ ks -> k ∈ res))
  /\ (forall T data v st',
     call (SVector T) (VVector data) st = Ok v st' ->
     exists size st1 vs,
       call_size P 0 st = Ok size st1
       /\ v = VVector vs
       /\ length vs = N.to_nat size).
Proof.
  intros Hop. split; [|split].
  - intros Key T data v st' H. rewrite call_map in H.
    apply bind_inv in H as (res & st2 & H & [<- <-]%ret_inv).
    assert (exists size st1, call_size P 0 st = Ok size st1) as (size & st1 & Hread).
    { unfold map in H. rewrite (bind_Ok _ _ _ _ _ (get_op_run st)), Hop in H.
      apply bind_inv in H as (size & st1 & Hread & _). eauto. }
    rewrite (map_unpack_run _ _ _ _ _ _ _ Hop Hread) in H.
    apply bind_inv in H as (es & st3 & Hes & [<- <-]%ret_inv).
    exists size, st1, es. eexists. repeat split; try done.
    + intros e He. by apply foldl_map_insert_keeps.
    + intros es1 e es2 -> Hd H1. by apply foldl_map_insert_first.
  - intros Key data v st' H. rewrite call_set in H.
    apply bind_inv in H as (res & st2 & H & [<- <-]%ret_inv).
    assert (exists size st1, call_size P 0 st = Ok size st1) as (size & st1 & Hread).
    { unfold set in H. rewrite (bind_Ok _ _ _ _ _ (get_op_run st)), Hop in H.
      apply bind_inv in H as (size & st1 & Hread & _). eauto. }
    rewrite (set_unpack_run _ _ _ _ _ _ Hop Hread) in H.
    apply bind_inv in H as (ks & st3 & Hks & [<- <-]%ret_inv).
    exists size, st1, ks. eexists. repeat split; try done.
    + intros k Hk. by apply foldl_set_insert_keeps.
    + intros k Hk. by apply foldl_set_insert_key.
  - intros T data v st' H.
    assert (T = SLeaf TBool \/ T <> SLeaf TBool) as [->|HT]
      by (destruct T as [[]| | | | | | | | |]; (by left) || (by right)).
    + rewrite call_vector_bool in H.
      apply bind_inv in H as (vs & st2 & H & [<- <-]%ret_inv).
      unfold vector_bool in H.
      rewrite (bind_Ok _ _ _ _ _ (get_op_run st)), Hop in H.
      apply bind_inv in H as (size & st1 & Hread & H).
      apply bind_inv in H as (d & st3 & [-> ->]%vector_bool_reserve_inv & H).
      exists size, st1, vs. repeat split; try done.
      by apply push_back_loop_length in H.
    + rewrite call_vector in H by done.
      apply bind_inv in H as (vs & st2 & H & [<- <-]%ret_inv).
      unfold vector in H.
      destruct (is_pod_v T);
        rewrite (bind_Ok _ _ _ _ _ (get_op_run st)), Hop in H.
      * apply bind_inv in H as (size & st1 & Hread & H).
        apply bind_inv in H as (d & st3 & [-> ->]%vector_resize_inv & H).
        exists size, st1, vs. repeat split; try done.
        apply block_call_unpack_length in H.
        -- by rewrite H, length_resize.
        -- destruct (call_size_op _ _ _ _ Hread). congruence.
      * apply bind_inv in H as (size & st1 & Hread & H).
        apply bind_inv in H as (d & st3 & [-> ->]%vector_resize_inv & H).
        exists size, st1, vs. repeat split; try done.
        apply for_each_length in H. by rewrite H, length_resize.
Qed.

End Facts.

(** ** The size law *)

Lemma int_wrap_nat n : addressable n -> int_wrap (Z.of_nat n) = Z.of_nat n.
Proof.
  unfold addressable, int_wrap. intros H. rewrite Z.mod_small by lia. lia.
Qed.

Lemma addressable_le n k : addressable k -> n <= k -> addressable n.
Proof. unfold addressable. lia. Qed.

Lemma sized_ret {A} (a : A) h : sized (mret a) a h 0.
Proof.
  split.
  - intros [op n p b] _. unfold with_packSize; simpl. by rewrite Nat.add_0_r.
  - intros [op n p b] q _ Hq _ _. simpl in Hq. subst p. exists b.
    unfold with_buffer, with_position; simpl. by rewrite Nat.add_0_r.
Qed.

Lemma sized_bind {A B} (m : M A) (f : A -> M B) a b h k1 k2 :
  sized m a h k1 -> sized (f a) b h k2 -> sized (m ≫= f) b h (k1 + k2).
Proof.
  intros [Hm1 Hm2] [Hf1 Hf2]. split.
  - intros s Hop. rewrite (bind_Ok _ _ _ _ _ (Hm1 s Hop)), Hf1 by done.
    unfold with_packSize; simpl. do 3 f_equal. lia.
  - intros s q Hop Hq Hfit Hadd.
    destruct (Hm2 s q Hop Hq) as (b1 & Hrun1 & Hlen1);
      [lia|apply (addressable_le _ _ Hadd); lia|].
    rewrite (bind_Ok _ _ _ _ _ Hrun1).
    destruct (Hf2 (with_buffer b1 (with_position (Z.of_nat (q + k1)) s)) (q + k1))
      as (b2 & Hrun2 & Hlen2);
      [done|done|simpl; lia|apply (addressable_le _ _ Hadd); lia|].
    exists b2. rewrite Hrun2. split; [|simpl in Hlen2; congruence].
    unfold with_buffer, with_position; simpl. do 3 f_equal. lia.
Qed.

Lemma sized_get_op {A} (f : Operation -> M A) a h k :
  sized (f PACKSIZE) a h k -> sized (f PACK) a h k -> sized (get_op ≫= f) a h k.
Proof.
  intros [H1 _] [_ H2]. split.
  - intros s Hop. rewrite (bind_Ok _ _ _ _ _ (get_op_run _)). simpl. rewrite Hop. auto.
  - intros s q Hop Hq Hfit Hadd.
    rewrite (bind_Ok _ _ _ _ _ (get_op_run _)). simpl. rewrite Hop. auto.
Qed.

Lemma sized_load a v h : h !! a = Some v -> sized (load a) v h 0.
Proof.
  intros Ha. unfold load. split.
  - intros [op n p b] _. simpl. rewrite Ha. unfold with_packSize; simpl.
    by rewrite Nat.add_0_r.
  - intros [op n p b] q _ Hq _ _. simpl in Hq. subst p. exists b. simpl. rewrite Ha.
    unfold with_buffer, with_position; simpl. by rewrite Nat.add_0_r.
Qed.

Lemma sized_store a v h : h !! a = Some v -> sized (store a v) () h 0.
Proof.
  intros Ha. unfold store. split.
  - intros [op n p b] _. simpl. rewrite list_insert_id by done.
    unfold with_packSize; simpl. by rewrite Nat.add_0_r.
  - intros [op n p b] q _ Hq _ _. simpl in Hq. subst p. exists b. simpl.
    rewrite list_insert_id by done.
    unfold with_buffer, with_position; simpl. by rewrite Nat.add_0_r.
Qed.

Lemma sized_for_each {A} (f : A -> M A) data h :
  Forall (fun v => exists k, sized (f v) v h k) data ->
  exists k, sized (for_each f data) data h k.
Proof.
  induction 1 as [|v data [k1 Hv] _ [k2 IH]]; simpl.
  - exists 0. apply sized_ret.
  - exists (k1 + (k2 + 0)).
    apply sized_bind with (a := v); [done|].
    apply sized_bind with (a := data); [done|]. apply sized_ret.
Qed.

Lemma sized_tuple_call self Ts vs h :
  Forall2 (fun T v => exists k, sized (self T v) v h k) Ts vs ->
  exists k, sized (tuple_call self Ts vs) vs h k.
Proof.
  induction 1 as [|T v Ts vs [k1 Hv] _ [k2 IH]]; simpl.
  - exists 0. apply sized_ret.
  - exists (k1 + (k2 + 0)).
    apply sized_bind with (a := v); [done|].
    apply sized_bind with (a := vs); [done|]. apply sized_ret.
Qed.

(** The size pass of a sized computation counts its bytes. *)
Lemma sized_pass_size {A} (m : M A) a h k : sized m a h k -> pass_size m h = k.
Proof.
  intros [H _]. unfold pass_size.
  by rewrite (H (mkSerializer PACKSIZE 0 0 []) eq_refl).
Qed.

Section SizeLaw.
Context (P : Packer.t) (place : value -> list value -> nat).
Context (grants : shape -> N -> bool).
Context (HP : PackerSized P).

#[local] Abbreviation call := (operator_call P place grants).

Lemma sized_leaf_call t x h : sized (leaf_call P t x) x h (Packer.packSize P x).
Proof.
  unfold leaf_call. split.
  - intros s Hop. simpl. by rewrite Hop.
  - intros s q Hop Hq Hfit Hadd. simpl. rewrite Hop, Hq.
    exists (Packer.pack P x (m_buffer s) (Z.of_nat q)).1. split.
    + by rewrite (pack_position P HP), <- Nat2Z.inj_add, int_wrap_nat.
    + by apply (pack_length P HP).
Qed.

Lemma sized_call_bool b h : exists k, sized (call_bool P b) b h k.
Proof.
  exists (Packer.packSize P (LBool b) + 0). unfold call_bool.
  eapply sized_bind; [apply sized_leaf_call|]. apply sized_ret.
Qed.

Lemma sized_call_size n h : exists k, sized (call_size P n) n h k.
Proof.
  exists (Packer.packSize P (LSize n) + 0). unfold call_size.
  eapply sized_bind; [apply sized_leaf_call|]. apply sized_ret.
Qed.

Lemma sized_block_call T data h :
  sized (block_call P T data) data h (Packer.packSizeN P T data).
Proof.
  unfold block_call. split.
  - intros s Hop. simpl. by rewrite Hop.
  - intros s q Hop Hq Hfit Hadd. simpl. rewrite Hop, Hq.
    exists (Packer.packN P T data (m_buffer s) (Z.of_nat q)).1. split.
    + by rewrite (packN_position P HP), <- Nat2Z.inj_add, int_wrap_nat.
    + by apply (packN_length P HP).
Qed.

Lemma sized_bool_entry h v :
  wf_value h (SLeaf TBool) v -> exists k, sized (bool_entry P v) v h k.
Proof.
  intros Hv. inversion Hv as [t x Ht Hx| | | | | | | | | | |]; subst.
  destruct x as [b| | |]; try discriminate. simpl.
  destruct (sized_call_bool b h) as [k Hk].
  exists (k + 0). eapply sized_bind; [done|]. apply sized_ret.
Qed.

Lemma sized_pair_call Key T e h :
  (exists k, sized (call Key e.1) e.1 h k) ->
  (exists k, sized (call T e.2) e.2 h k) ->
  exists k, sized (pair_call call Key T e) e h k.
Proof.
  intros [k1 H1] [k2 H2]. destruct e as [k v]. simpl in *.
  eexists. unfold pair_call, tuple. simpl.
  eapply sized_bind with (a := [k; v]); [|apply sized_ret].
  eapply sized_bind with (a := k); [done|].
  eapply sized_bind with (a := [v]); [|apply sized_ret].
  eapply sized_bind with (a := v); [done|].
  eapply sized_bind with (a := []); apply sized_ret.
Qed.

(** In the two packing modes [operator()] counts and writes the same number
    of bytes, and changes neither the data nor the store. *)
Lemma call_sized h T :
  forall v, wf_value h T v -> exists k, sized (call T v) v h k.
Proof.
  induction T as [t|T1 IH|Ts IH|Ts IH|T IH|T IH|Key T IHK IHT|N T IH|Key IH
                 |pod members others IH IHo]
    using shape_nested_ind; intros v Hv;
    inversion Hv as [t' x Ht Hx|T1'|T1' a v0 Ha Hv0|Ts' vs Hvs|Ts' i T' v0 Hi Hsz Hv0
                    |T'|T' v0 Hv0|T' vs Hsz Hvs|Key' T' es Hsz Hnd Hes
                    |N' T' vs Hlen Hvs|Key' ks Hsz Hnd Hks|pod' ms' os' ms os Hms Hos];
    subst.
  - (* leaf *)
    rewrite call_leaf. eexists. eapply sized_bind; [apply sized_leaf_call|apply sized_ret].
  - (* null pointer *)
    rewrite call_ptr. unfold ptr.
    destruct (sized_call_bool (bool_decide (is_Some (@None addr))) h) as [k Hk].
    eexists. eapply sized_bind; [|apply sized_ret].
    eapply sized_bind; [exact Hk|].
    rewrite bool_decide_false by (by intros [? ?]).
    apply sized_get_op; (eapply sized_bind; [apply sized_ret|apply sized_ret]).
  - (* pointer *)
    rewrite call_ptr. unfold ptr.
    destruct (sized_call_bool (bool_decide (is_Some (Some a))) h) as [k Hk].
    destruct (IH _ Hv0) as [k0 Hk0].
    eexists. eapply sized_bind; [|apply sized_ret].
    eapply sized_bind; [exact Hk|].
    rewrite bool_decide_true by done.
    apply sized_get_op;
      (eapply sized_bind; [apply sized_ret|];
       eapply sized_bind; [by apply sized_load|];
       eapply sized_bind; [exact Hk0|];
       eapply sized_bind; [by apply sized_store|apply sized_ret]).
  - (* tuple *)
    rewrite call_tuple. unfold tuple.
    destruct (sized_tuple_call call Ts vs h) as [k Hk].
    { clear Hv. induction Hvs as [|T v Ts vs HTv _ IHvs]; [constructor|].
      apply Forall_cons in IH as [IHT IHTs]. constructor; auto. }
    eexists. eapply sized_bind; [exact Hk|apply sized_ret].
  - (* variant *)
    rewrite call_variant. unfold variant.
    destruct (sized_call_size (N.of_nat i) h) as [k Hk].
    destruct (proj1 (Forall_lookup _ _) IH i T' Hi v0 Hv0) as [k0 Hk0].
    eexists.
    apply sized_get_op;
      (eapply sized_bind; [exact Hk|];
       rewrite (visit_lookup _ _ _ _ _ Hi);
       eapply sized_bind; [exact Hk0|apply sized_ret]).
  - (* empty optional *)
    rewrite call_optional. unfold optional.
    destruct (sized_call_bool (bool_decide (is_Some (@None value))) h) as [k Hk].
    eexists. eapply sized_bind; [|apply sized_ret].
    apply sized_get_op; (eapply sized_bind; [exact Hk|apply sized_ret]).
  - (* optional *)
    rewrite call_optional. unfold optional.
    destruct (sized_call_bool (bool_decide (is_Some (Some v0))) h) as [k Hk].
    destruct (IH _ Hv0) as [k0 Hk0].
    eexists. eapply sized_bind; [|apply sized_ret].
    apply sized_get_op;
      (eapply sized_bind; [exact Hk|];
       eapply sized_bind; [exact Hk0|apply sized_ret]).
  - (* vector *)
    destruct (sized_call_size (N.of_nat (length vs)) h) as [k Hk].
    assert (T = SLeaf TBool \/ T <> SLeaf TBool) as [->|HT]
      by (destruct T as [[]| | | | | | | | |]; (by left) || (by right)).
    + rewrite call_vector_bool. unfold vector_bool.
      destruct (sized_for_each (bool_entry P) vs h) as [k1 Hk1].
      { eapply Forall_impl; [exact Hvs|]. apply sized_bool_entry. }
      eexists. eapply sized_bind; [|apply sized_ret].
      apply sized_get_op; (eapply sized_bind; [exact Hk|exact Hk1]).
    + rewrite call_vector by done. unfold vector.
      destruct (is_pod_v T) eqn:Hpod.
      * eexists. eapply sized_bind; [|apply sized_ret].
        apply sized_get_op;
          (eapply sized_bind; [exact Hk|by apply sized_block_call]).
      * destruct (sized_for_each (call T) vs h) as [k1 Hk1].
        { eapply Forall_impl; [exact Hvs|]. apply IH. }
        eexists. eapply sized_bind; [|apply sized_ret].
        apply sized_get_op; (eapply sized_bind; [exact Hk|exact Hk1]).
  - (* map *)
    rewrite call_map. unfold map.
    destruct (sized_call_size (N.of_nat (length es)) h) as [k Hk].
    destruct (sized_for_each (pair_call call Key T) es h) as [k1 Hk1].
    { eapply Forall_impl; [exact Hes|]. intros e [He1 He2].
      apply sized_pair_call; auto. }
    eexists. eapply sized_bind; [|apply sized_ret].
    apply sized_get_op; (eapply sized_bind; [exact Hk|exact Hk1]).
  - (* array *)
    rewrite call_array. unfold array.
    destruct (is_pod_v T) eqn:Hpod.
    + eexists. eapply sized_bind; [by apply sized_block_call|apply sized_ret].
    + destruct (sized_for_each (call T) vs h) as [k1 Hk1].
      { eapply Forall_impl; [exact Hvs|]. apply IH. }
      eexists. eapply sized_bind; [exact Hk1|apply sized_ret].
  - (* set *)
    rewrite call_set. unfold set.
    destruct (sized_call_size (N.of_nat (length ks)) h) as [k Hk].
    destruct (sized_for_each (call Key) ks h) as [k1 Hk1].
    { eapply Forall_impl; [exact Hks|]. apply IH. }
    eexists. eapply sized_bind; [|apply sized_ret].
    apply sized_get_op; (eapply sized_bind; [exact Hk|exact Hk1]).
  - (* self-describing composite *)
    rewrite call_obj.
    destruct (sized_tuple_call call members ms h) as [k Hk].
    { clear Hv. induction Hms as [|T v Ts vs HTv _ IHvs]; [constructor|].
      apply Forall_cons in IH as [IHT IHTs]. constructor; auto. }
    eexists. eapply sized_bind; [exact Hk|apply sized_ret].
Qed.

(** The cursor at the end of a buffer an [int] can address, as [position()]
    returns it. *)
Lemma position_at_end s h :
  m_position s = Z.of_nat (length (m_buffer s)) ->
  addressable (length (m_buffer s)) ->
  position (s, h) = Ok (N.of_nat (length (m_buffer s))) (s, h).
Proof.
  unfold position, addressable. simpl. intros -> Hlt. f_equal.
  rewrite Z.mod_small by lia. apply N2Z.inj. rewrite Z2N.id by lia.
  by rewrite nat_N_Z.
Qed.


End SizeLaw.

(** ** The round trip *)

(** *** Writing into the buffer *)

Lemma splice_app (b1 b2 b3 bs : list byte) :
  length b2 = length bs ->
  splice (b1 ++ b2 ++ b3) (length b1) bs = b1 ++ bs ++ b3.
Proof.
  intros Hlen. unfold splice.
  rewrite take_app_length. do 2 f_equal.
  rewrite <- Hlen, (assoc_L (++)), <- length_app. by rewrite drop_app_length.
Qed.

Lemma fits_split (b : list byte) p n :
  p + n <= length b ->
  exists b1 b2 b3, b = b1 ++ b2 ++ b3 /\ length b1 = p /\ length b2 = n.
Proof.
  intros Hfit. exists (take p b), (take n (drop p b)), (drop n (drop p b)).
  rewrite !take_drop. split; [done|]. rewrite !length_take, length_drop. lia.
Qed.

Lemma length_splice (b : list byte) p bs :
  p + length bs <= length b -> length (splice b p bs) = length b.
Proof.
  intros Hfit. destruct (fits_split b p (length bs) Hfit) as (b1 & b2 & b3 & -> & <- & Hb2).
  rewrite splice_app by done. rewrite !length_app. lia.
Qed.

Lemma splice_nil (b : list byte) p : splice b p [] = b.
Proof. unfold splice. simpl. rewrite Nat.add_0_r. apply take_drop. Qed.

Lemma splice_splice (b : list byte) p bs1 bs2 :
  p + length bs1 + length bs2 <= length b ->
  splice (splice b p bs1) (p + length bs1) bs2 = splice b p (bs1 ++ bs2).
Proof.
  intros Hfit.
  destruct (fits_split b p (length bs1 + length bs2)) as (b1 & b23 & b4 & -> & <- & H23);
    [lia|].
  destruct (fits_split b23 (length bs1) (length bs2)) as (b2 & b3 & b5 & -> & H2 & H3);
    [lia|].
  rewrite !length_app in H23. assert (b5 = []) as -> by (apply length_zero_iff_nil; lia).
  rewrite app_nil_r.
  rewrite (splice_app b1 (b2 ++ b3) b4 (bs1 ++ bs2)) by (rewrite !length_app; lia).
  rewrite <- (assoc_L (++) b2 b3 b4).
  rewrite (splice_app b1 b2 (b3 ++ b4) bs1) by done.
  rewrite (assoc_L (++) b1 bs1), <- length_app.
  rewrite (splice_app (b1 ++ bs1) b3 b4 bs2) by done.
  by rewrite <- !(assoc_L (++)).
Qed.

Lemma packs_ret {A} (a : A) h : packs (mret a) a h [].
Proof.
  split.
  - intros [op n p b] _. unfold with_packSize; simpl. by rewrite Nat.add_0_r.
  - intros [op n p b] q _ Hq _ _. simpl in Hq. subst p.
    unfold with_buffer, with_position; simpl.
    by rewrite Nat.add_0_r, splice_nil.
Qed.

Lemma packs_bind {A B} (m : M A) (f : A -> M B) a b h bs1 bs2 :
  packs m a h bs1 -> packs (f a) b h bs2 -> packs (m ≫= f) b h (bs1 ++ bs2).
Proof.
  intros [Hm1 Hm2] [Hf1 Hf2]. split.
  - intros s Hop. rewrite (bind_Ok _ _ _ _ _ (Hm1 s Hop)), Hf1 by done.
    unfold with_packSize; simpl. rewrite length_app. do 3 f_equal. lia.
  - intros s q Hop Hq Hfit Hadd. rewrite length_app in Hfit, Hadd.
    assert (Hadd1 : addressable (q + length bs1))
      by (apply (addressable_le _ _ Hadd); lia).
    rewrite (bind_Ok _ _ _ _ _ (Hm2 s q Hop Hq ltac:(lia) Hadd1)).
    rewrite (Hf2 _ (q + length bs1));
      [|done|done|simpl; rewrite length_splice; lia
       |apply (addressable_le _ _ Hadd); lia].
    unfold with_buffer, with_position; simpl.
    rewrite splice_splice by lia. rewrite length_app. do 3 f_equal. lia.
Qed.

Lemma packs_fmap {A B} (m : M A) (g : A -> B) a h bs :
  packs m a h bs -> packs (m ≫= fun x => mret (g x)) (g a) h bs.
Proof.
  intros H. rewrite <- (app_nil_r bs). eapply packs_bind; [exact H|apply packs_ret].
Qed.

Lemma packs_get_op {A} (f : Operation -> M A) a h bs :
  packs (f PACKSIZE) a h bs -> packs (f PACK) a h bs -> packs (get_op ≫= f) a h bs.
Proof.
  intros [H1 _] [_ H2]. split.
  - intros s Hop. rewrite (bind_Ok _ _ _ _ _ (get_op_run _)). simpl. rewrite Hop. auto.
  - intros s q Hop Hq Hfit Hadd.
    rewrite (bind_Ok _ _ _ _ _ (get_op_run _)). simpl. rewrite Hop. auto.
Qed.

Lemma packs_load a v h : h !! a = Some v -> packs (load a) v h [].
Proof.
  intros Ha. unfold load. split.
  - intros [op n p b] _. simpl. rewrite Ha. unfold with_packSize; simpl.
    by rewrite Nat.add_0_r.
  - intros [op n p b] q _ Hq _ _. simpl in Hq. subst p. simpl. rewrite Ha.
    unfold with_buffer, with_position; simpl. by rewrite Nat.add_0_r, splice_nil.
Qed.

Lemma packs_store a v h : h !! a = Some v -> packs (store a v) () h [].
Proof.
  intros Ha. unfold store. split.
  - intros [op n p b] _. simpl. rewrite list_insert_id by done.
    unfold with_packSize; simpl. by rewrite Nat.add_0_r.
  - intros [op n p b] q _ Hq _ _. simpl in Hq. subst p. simpl.
    rewrite list_insert_id by done.
    unfold with_buffer, with_position; simpl. by rewrite Nat.add_0_r, splice_nil.
Qed.

Lemma packs_run_all {A} (ms : list (M A)) (xs : list A) h bss :
  Forall3 (fun m a bs => packs m a h bs) ms xs bss ->
  packs (run_all ms) xs h (concat bss).
Proof.
  induction 1 as [|m a bs ms xs bss Hm _ IH]; simpl.
  - apply packs_ret.
  - eapply packs_bind; [exact Hm|]. by apply (packs_fmap _ (cons a)).
Qed.

(** *** Reading from the buffer *)

Lemma with_position_id s p : m_position s = p -> with_position p s = s.
Proof. intros <-. by destruct s. Qed.

Lemma unpacks_ret {A} (a : A) (Q : A -> nat -> list value -> Prop) :
  (forall base, Q a base []) -> unpacks (mret a) [] Q.
Proof.
  intros HQ s pre post h2 Hop Hbuf Hpos Hadd. exists a, []. split; [|done].
  simpl. rewrite Nat.add_0_r, app_nil_r. by rewrite with_position_id.
Qed.

Lemma unpacks_bind {A B} (m : M A) (f : A -> M B) bs1 bs2 Q1
    (Q : B -> nat -> list value -> Prop) :
  unpacks m bs1 Q1 ->
  (forall a base hn1, Q1 a base hn1 ->
     unpacks (f a) bs2
       (fun b base' hn2 => base' = base + length hn1 -> Q b base (hn1 ++ hn2))) ->
  unpacks (m ≫= f) (bs1 ++ bs2) Q.
Proof.
  intros Hm Hf s pre post h2 Hop Hbuf Hpos Hadd. rewrite length_app in Hadd.
  destruct (Hm s pre (bs2 ++ post) h2) as (a & hn1 & Hrun1 & HQ1);
    [done|by rewrite Hbuf, <- (assoc_L (++))|done
    |apply (addressable_le _ _ Hadd); lia|].
  rewrite (bind_Ok _ _ _ _ _ Hrun1).
  destruct (Hf a _ _ HQ1 (with_position (Z.of_nat (length pre + length bs1)) s)
              (pre ++ bs1) post (h2 ++ hn1))
    as (b & hn2 & Hrun2 & HQ2); [done|..].
  { simpl. by rewrite Hbuf, <- !(assoc_L (++)). }
  { simpl. by rewrite length_app. }
  { rewrite length_app. apply (addressable_le _ _ Hadd); lia. }
  exists b, (hn1 ++ hn2). rewrite Hrun2. split.
  - rewrite (assoc_L (++) h2). do 2 f_equal.
    unfold with_position; simpl. rewrite !length_app. f_equal. lia.
  - apply HQ2. by rewrite length_app.
Qed.

(** A read that allocates nothing and returns a known value. *)
Lemma unpacks_bind_val {A B} (m : M A) (f : A -> M B) bs1 bs2 x
    (Q : B -> nat -> list value -> Prop) :
  unpacks m bs1 (fun a _ hn => a = x /\ hn = []) ->
  unpacks (f x) bs2 Q ->
  unpacks (m ≫= f) (bs1 ++ bs2) Q.
Proof.
  intros Hm Hf. eapply unpacks_bind; [exact Hm|].
  intros a base hn1 [-> ->]. intros s pre post h2 Hop Hbuf Hpos Hadd.
  destruct (Hf s pre post h2) as (b & hn2 & Hrun & HQ); [done..|].
  exists b, hn2. split; [done|]. simpl. rewrite Nat.add_0_r. by intros <-.
Qed.

Lemma unpacks_fmap {A B} (m : M A) (g : A -> B) bs Q1
    (Q : B -> nat -> list value -> Prop) :
  unpacks m bs Q1 ->
  (forall a base hn, Q1 a base hn -> Q (g a) base hn) ->
  unpacks (m ≫= fun x => mret (g x)) bs Q.
Proof.
  intros Hm HQ s pre post h2 Hop Hbuf Hpos Hadd.
  destruct (Hm s pre post h2) as (a & hn & Hrun & HQ1); [done..|].
  rewrite (bind_Ok _ _ _ _ _ Hrun). exists (g a), hn. split; [done|]. by apply HQ.
Qed.

Lemma unpacks_get_op {A} (f : Operation -> M A) bs Q :
  unpacks (f UNPACK) bs Q -> unpacks (get_op ≫= f) bs Q.
Proof.
  intros Hf s pre post h2 Hop Hbuf Hpos Hadd.
  rewrite (bind_Ok _ _ _ _ _ (get_op_run _)). simpl. rewrite Hop.
  by apply (Hf s pre post h2).
Qed.

(** A step that neither reads nor allocates. *)
Lemma unpacks_bind_pure {A B} (m : M A) (f : A -> M B) a bs Q :
  (forall st, m st = Ok a st) -> unpacks (f a) bs Q -> unpacks (m ≫= f) bs Q.
Proof.
  intros Hm Hf s pre post h2 Hop Hbuf Hpos Hadd.
  rewrite (bind_Ok _ _ _ _ _ (Hm _)). by apply (Hf s pre post h2).
Qed.

(** A sequence of reads, each with a postcondition that survives later
    allocations and does not depend on the old cells. *)
Lemma unpacks_run_all {A} (ms : list (M A))
    (Rs : list (A -> nat -> list value -> Prop)) bss :
  Forall3 (fun m R bs =>
             unpacks m bs R
             /\ (forall a base hn hn2, R a base hn -> R a base (hn ++ hn2))
             /\ (forall a base hn1 hn2, R a (base + length hn1) hn2 ->
                   R a base (hn1 ++ hn2))) ms Rs bss ->
  unpacks (run_all ms) (concat bss)
    (fun xs base hn => Forall2 (fun R a => R a base hn) Rs xs).
Proof.
  induction 1 as [|m R bs ms Rs bss (Hm & Hext & Hshift) Hrest IH]; simpl.
  - apply unpacks_ret. by constructor.
  - eapply unpacks_bind; [exact Hm|]. intros a base hn1 HR.
    eapply unpacks_fmap; [exact IH|]. simpl. intros xs base' hn2 Hxs ->.
    constructor; [by apply Hext|].
    clear -Hrest Hxs. revert xs Hxs.
    induction Hrest as [|m' R' bs' ms Rs bss (_ & _ & Hshift) _ IH];
      intros xs Hxs; inversion Hxs; subst; constructor; auto.
Qed.

(** Reads that allocate nothing and return known values. *)
Lemma unpacks_read_n_val {A} (m : M A) (xs : list A) bss :
  Forall2 (fun x bs => unpacks m bs (fun a _ hn => a = x /\ hn = [])) xs bss ->
  unpacks (read_n m (length xs)) (concat bss) (fun a _ hn => a = xs /\ hn = []).
Proof.
  induction 1 as [|x bs xs bss Hx _ IH]; simpl.
  - by apply unpacks_ret.
  - eapply unpacks_bind_val; [exact Hx|].
    eapply unpacks_fmap; [exact IH|]. by intros a base hn [-> ->].
Qed.

(** *** The loops as sequences *)

Lemma for_each_run_all {A} (f : A -> M A) data st :
  for_each f data st = run_all (f <$> data) st.
Proof.
  revert st. induction data as [|v data IH]; intros st; simpl; [done|].
  apply bind_ext. intros v' st1 _. by apply bind_cong, IH.
Qed.

Lemma tuple_call_run_all self Ts data st :
  length Ts = length data ->
  tuple_call self Ts data st = run_all (zip_with self Ts data) st.
Proof.
  revert data st. induction Ts as [|T Ts IH]; intros [|v data] st Hlen;
    simplify_eq/=; [done|].
  apply bind_ext. intros v' st1 _. by apply bind_cong, IH.
Qed.

Lemma read_n_run_all {A} (m : M A) n st :
  read_n m n st = run_all (replicate n m) st.
Proof.
  revert st. induction n as [|n IH]; intros st; simpl; [done|].
  apply bind_ext. intros v' st1 _. by apply bind_cong, IH.
Qed.

Lemma packs_ext {A} (m m' : M A) a h bs :
  (forall st, m st = m' st) -> packs m' a h bs -> packs m a h bs.
Proof.
  intros Heq [H1 H2]. split; [intros s|intros s q]; rewrite Heq; auto.
Qed.

Lemma unpacks_ext {A} (m m' : M A) bs Q :
  (forall st, m st = m' st) -> unpacks m' bs Q -> unpacks m bs Q.
Proof.
  intros Heq H s pre post h2 Hop Hbuf Hpos Hadd. rewrite Heq.
  by apply (H s pre post h2).
Qed.

Lemma unpacks_conseq {A} (m : M A) bs (Q Q' : A -> nat -> list value -> Prop) :
  unpacks m bs Q -> (forall a base hn, Q a base hn -> Q' a base hn) ->
  unpacks m bs Q'.
Proof.
  intros H HQ s pre post h2 Hop Hbuf Hpos Hadd.
  destruct (H s pre post h2) as (a & hn & Hrun & Ha); [done..|].
  exists a, hn. auto.
Qed.

(** *** Observational equality and the store *)

Lemma Forall3_impl_Forall {A B C} (R R' : A -> B -> C -> Prop) l1 l2 l3 :
  Forall (fun a => forall b c, R a b c -> R' a b c) l1 ->
  Forall3 R l1 l2 l3 -> Forall3 R' l1 l2 l3.
Proof.
  intros HF H. induction H as [|a b c l1 l2 l3 Habc _ IH]; [constructor|].
  apply Forall_cons in HF as [Ha HF]. constructor; auto.
Qed.

(** Cells allocated later do not change what a value is. *)
Lemma obs_eq_app h h' ext T :
  forall v v', obs_eq h h' T v v' -> obs_eq h (h' ++ ext) T v v'.
Proof.
  induction T as [t|T1 IH|Ts IH|Ts IH|T IH|T IH|Key T IHK IHT|N T IH|Key IH
                 |pod members others IH IHo]
    using shape_nested_ind; intros v v' H; inversion H; subst.
  - constructor.
  - constructor.
  - econstructor; [done|by apply lookup_app_l_Some|by apply IH].
  - constructor. by eapply Forall3_impl_Forall.
  - econstructor; [done|].
    match goal with Hi : Ts !! _ = Some _ |- _ =>
      by apply (proj1 (Forall_lookup _ _) IH _ _ Hi) end.
  - constructor.
  - constructor. by apply IH.
  - constructor. eapply Forall2_impl; [done|]. intros; by apply IH.
  - econstructor; [done|]. eapply Forall2_impl; [done|].
    intros e e' [Hek Hev]. split; [by apply IHK|by apply IHT].
  - constructor. eapply Forall2_impl; [done|]. intros; by apply IH.
  - econstructor; [done|]. eapply Forall2_impl; [done|]. intros; by apply IH.
  - constructor; [by eapply Forall3_impl_Forall|done..].
Qed.

Lemma Forall3_eq_Forall {A B} (R : A -> B -> B -> Prop) l1 l2 l3 :
  Forall (fun a => forall b c, R a b c -> b = c) l1 ->
  Forall3 R l1 l2 l3 -> l2 = l3.
Proof.
  intros HF H. induction H as [|a b c l1 l2 l3 Habc _ IH]; [done|].
  apply Forall_cons in HF as [Ha HF]. f_equal; auto.
Qed.

Lemma Forall2_eq {A} (R : A -> A -> Prop) l1 l2 :
  (forall a b, R a b -> a = b) -> Forall2 R l1 l2 -> l1 = l2.
Proof. intros HR H. induction H; f_equal; auto. Qed.

Lemma forallb_Forall_true {A} (f : A -> bool) l :
  forallb f l = true <-> Forall (fun x => f x = true) l.
Proof.
  induction l as [|x l IH]; simpl; [by split|].
  rewrite andb_true_iff, Forall_cons. by rewrite IH.
Qed.

(** On a key type observational equality is equality. *)
Lemma key_shape_eq h h' T :
  key_shape T = true -> forall v v', obs_eq h h' T v v' -> v = v'.
Proof.
  induction T as [t|T1 IH|Ts IH|Ts IH|T IH|T IH|Key T IHK IHT|N T IH|Key IH
                 |pod members others IH IHo]
    using shape_nested_ind; simpl; intros Hkey v v' H; try discriminate;
    inversion H; subst; try done.
  - f_equal. eapply Forall3_eq_Forall; [|done].
    apply forallb_Forall_true in Hkey. rewrite Forall_forall in IH, Hkey |- *.
    intros T HT. by apply IH, Hkey.
  - f_equal. apply forallb_Forall_true in Hkey.
    match goal with Hi : Ts !! _ = Some _ |- _ =>
      apply (proj1 (Forall_lookup _ _) IH _ _ Hi); [|done];
      by apply (proj1 (Forall_lookup _ _) Hkey _ _ Hi) end.
  - do 2 f_equal. by apply IH.
  - f_equal. eapply Forall2_eq; [|done]. by apply IH.
  - f_equal. eapply Forall2_eq; [|done]. by apply IH.
  - apply andb_true_iff in Hkey as [Hkey ->%bool_decide_eq_true].
    repeat match goal with
           | Hl : length ?l = length [] |- _ =>
               apply length_zero_iff_nil in Hl; subst l
           end.
    f_equal. eapply Forall3_eq_Forall; [|done].
    apply forallb_Forall_true in Hkey. rewrite Forall_forall in IH, Hkey |- *.
    intros T HT. by apply IH, Hkey.
Qed.

Lemma decoded_ext h T v v' base hn hn2 :
  decoded h T v v' base hn -> decoded h T v v' base (hn ++ hn2).
Proof.
  intros H hx Hlen. rewrite (assoc_L (++)). by apply obs_eq_app, H.
Qed.

Lemma decoded_shift h T v v' base hn1 hn2 :
  decoded h T v v' (base + length hn1) hn2 -> decoded h T v v' base (hn1 ++ hn2).
Proof.
  intros H hx Hlen. rewrite (assoc_L (++)). apply H. rewrite length_app. lia.
Qed.

(** A key type is one of the supported shapes. *)
Lemma key_shape_supported T : key_shape T = true -> supported T = true.
Proof.
  induction T as [t|T1 IH|Ts IH|Ts IH|T IH|T IH|Key T IHK IHT|N T IH|Key IH
                 |pod members others IH IHo]
    using shape_nested_ind; simpl; intros Hkey; try done; auto;
    try apply andb_true_iff in Hkey as [Hkey _];
    apply forallb_Forall_true; apply forallb_Forall_true in Hkey;
    rewrite Forall_forall in IH, Hkey |- *; intros T HT; by apply IH, Hkey.
Qed.

(** Inserting entries with distinct keys into an empty container. *)
Lemma foldl_map_insert_perm place es data :
  NoDup (es.*1 ++ data.*1) ->
  foldl (fun d e => map_insert place e d) data es ≡ₚ data ++ es.
Proof.
  revert data. induction es as [|e es IH]; intros data Hnd; simpl.
  - by rewrite app_nil_r.
  - apply NoDup_cons in Hnd as [Hne Hnd].
    rewrite not_elem_of_app in Hne. destruct Hne as [Hne1 Hne2].
    rewrite IH.
    + rewrite map_insert_perm by done. by rewrite <- Permutation_middle.
    + rewrite map_insert_perm by done. rewrite fmap_cons.
      rewrite <- Permutation_middle. by constructor; [rewrite not_elem_of_app|].
Qed.

Lemma foldl_set_insert_perm place ks data :
  NoDup (ks ++ data) ->
  foldl (fun d k => set_insert place k d) data ks ≡ₚ data ++ ks.
Proof.
  revert data. induction ks as [|k ks IH]; intros data Hnd; simpl.
  - by rewrite app_nil_r.
  - apply NoDup_cons in Hnd as [Hne Hnd].
    rewrite not_elem_of_app in Hne. destruct Hne as [Hne1 Hne2].
    rewrite IH.
    + rewrite set_insert_perm by done. by rewrite <- Permutation_middle.
    + rewrite set_insert_perm by done.
      rewrite <- Permutation_middle. by constructor; [rewrite not_elem_of_app|].
Qed.

(** *** The loops, packing and unpacking *)

Lemma packs_for_each {A} (f : A -> M A) vs h bss :
  Forall2 (fun v bs => packs (f v) v h bs) vs bss ->
  packs (for_each f vs) vs h (concat bss).
Proof.
  intros H. eapply packs_ext; [apply for_each_run_all|]. apply packs_run_all.
  induction H; simpl; constructor; auto.
Qed.

Lemma packs_tuple_call self Ts vs h bss :
  Forall3 (fun T v bs => packs (self T v) v h bs) Ts vs bss ->
  packs (tuple_call self Ts vs) vs h (concat bss).
Proof.
  intros H. eapply packs_ext.
  { intros st. apply tuple_call_run_all. by eapply Forall3_length_lm. }
  apply packs_run_all. induction H; simpl; constructor; auto.
Qed.

Lemma unpacks_read_n {A B} (m : M A) (R : B -> A -> nat -> list value -> Prop) vs bss :
  (forall v a base hn hn2, R v a base hn -> R v a base (hn ++ hn2)) ->
  (forall v a base hn1 hn2, R v a (base + length hn1) hn2 -> R v a base (hn1 ++ hn2)) ->
  Forall2 (fun v bs => unpacks m bs (R v)) vs bss ->
  unpacks (read_n m (length vs)) (concat bss)
    (fun xs base hn => Forall2 (fun v a => R v a base hn) vs xs).
Proof.
  intros Hext Hshift H. eapply unpacks_ext; [apply read_n_run_all|].
  eapply unpacks_conseq.
  - apply (unpacks_run_all _ (R <$> vs)).
    induction H; simpl; constructor; auto.
  - simpl. intros xs base hn Hxs. by apply Forall2_fmap_l in Hxs.
Qed.

Lemma for_each_replicate {A} (f : A -> M A) n d st :
  for_each f (replicate n d) st = read_n (f d) n st.
Proof.
  revert st. induction n as [|n IH]; intros st; simpl; [done|].
  apply bind_ext. intros v' st1 _. by apply bind_cong, IH.
Qed.

Lemma unpacks_tuple_call self (R : shape -> value -> value -> nat -> list value -> Prop)
    Ts vs bss :
  (forall T v a base hn hn2, R T v a base hn -> R T v a base (hn ++ hn2)) ->
  (forall T v a base hn1 hn2, R T v a (base + length hn1) hn2 ->
     R T v a base (hn1 ++ hn2)) ->
  Forall3 (fun T v bs => unpacks (self T (default_value T)) bs (R T v)) Ts vs bss ->
  unpacks (tuple_call self Ts (default_value <$> Ts)) (concat bss)
    (fun xs base hn => Forall3 (fun T v a => R T v a base hn) Ts vs xs).
Proof.
  intros Hext Hshift H. eapply unpacks_ext.
  { intros st. apply tuple_call_run_all. by rewrite length_fmap. }
  eapply unpacks_conseq.
  - apply (unpacks_run_all _ (zip_with R Ts vs)).
    induction H; simpl; constructor; auto.
  - simpl. intros xs base hn Hxs. clear Hext Hshift.
    revert xs Hxs. induction H as [|T v bs Ts vs bss _ _ IH]; intros xs Hxs;
      simpl in Hxs; inversion Hxs; subst; constructor; auto.
Qed.

Lemma push_back_loop_read_n P n data_mut st :
  push_back_loop P n data_mut st
  = (read_n (call_bool P false) n ≫= fun bs =>
     mret (data_mut ++ ((fun b => VLeaf (LBool b)) <$> bs))) st.
Proof.
  revert data_mut st. induction n as [|n IH]; intros data_mut st; simpl.
  - unfold mbind, M_bind, mret, M_ret. simpl. by rewrite app_nil_r.
  - rewrite bind_assoc. apply bind_ext. intros b st1 _.
    rewrite IH, bind_assoc. apply bind_ext. intros bs st2 _.
    by rewrite <- (assoc_L (++)).
Qed.

Lemma unpacks_bind_ret {A B} (m : M A) (f : A -> M B) bs Q1
    (Q : B -> nat -> list value -> Prop) :
  unpacks m bs Q1 ->
  (forall a base hn, Q1 a base hn ->
     exists b, (forall st, f a st = Ok b st) /\ Q b base hn) ->
  unpacks (m ≫= f) bs Q.
Proof.
  intros Hm HQ s pre post h2 Hop Hbuf Hpos Hadd.
  destruct (Hm s pre post h2) as (a & hn & Hrun & HQ1); [done..|].
  destruct (HQ _ _ _ HQ1) as (b & Hf & Hb).
  rewrite (bind_Ok _ _ _ _ _ Hrun), Hf. by exists b, hn.
Qed.

(** [reset(new T1)] and the read into the new pointee. *)
Lemma unpacks_new_ptr (m : value -> M value) d bs Q0 :
  unpacks (m d) bs Q0 ->
  unpacks
    ((new d ≫= fun a => mret (Some a)) ≫= fun data' : option addr =>
     match data' with
     | Some a =>
         load a ≫= fun pointee =>
         m pointee ≫= fun pointee' =>
         store a pointee' ≫= fun _ => mret data'
     | None => mret data'
     end) bs
    (fun p base hn =>
       exists v' hn0, p = Some base /\ hn = v' :: hn0 /\ Q0 v' (base + 1) hn0).
Proof.
  intros Hm s pre post h2 Hop Hbuf Hpos Hadd.
  destruct (Hm s pre post (h2 ++ [d])) as (v' & hn0 & Hrun & HQ); [done..|].
  exists (Some (length h2)), (v' :: hn0). split.
  - rewrite (bind_Ok _ _ _ (Some (length h2)) (s, h2 ++ [d])) by done.
    rewrite (bind_Ok _ _ _ d (s, h2 ++ [d])).
    2:{ unfold load. simpl. by rewrite list_lookup_middle. }
    rewrite (bind_Ok _ _ _ _ _ Hrun).
    unfold store, mbind, M_bind, mret, M_ret. simpl. do 2 f_equal.
    rewrite <- (assoc_L (++)). rewrite insert_app_r_alt by done.
    by rewrite Nat.sub_diag.
  - exists v', hn0. repeat split. by rewrite length_app in HQ.
Qed.

Lemma Forall3_same {A B} (R : A -> B -> B -> Prop) l1 l2 :
  Forall2 (fun a b => R a b b) l1 l2 -> Forall3 R l1 l2 l2.
Proof. induction 1; by constructor. Qed.

Lemma Forall2_same {A} (R : A -> A -> Prop) l :
  Forall (fun a => R a a) l -> Forall2 R l l.
Proof. induction 1; by constructor. Qed.

(** A value of a POD type holds no pointer: it is valid in any store, and
    equal to itself. *)
Lemma pod_wf_any h h' T :
  is_pod_v T = true -> forall v, wf_value h T v -> wf_value h' T v.
Proof.
  induction T as [t|T1 IH|Ts IH|Ts IH|T IH|T IH|Key T IHK IHT|N T IH|Key IH
                 |pod members others IH IHo]
    using shape_nested_ind; simpl; intros Hpod v Hv; try discriminate;
    inversion Hv; subst.
  - by constructor.
  - constructor; [done|].
    match goal with Hvs : Forall _ ?vs |- _ =>
      destruct vs as [|v0 vs]; [constructor|] end.
    simpl in Hpod. eapply Forall_impl; [done|]. intros v. by apply IH.
  - apply andb_true_iff in Hpod as [[_ Hms]%andb_true_iff Hos].
    apply forallb_Forall_true in Hms, Hos.
    constructor.
    + match goal with Hm : Forall2 _ members _ |- _ =>
        clear -Hm IH Hms; induction Hm as [|T v Ts vs HTv _ IHm]; [constructor|] end.
      apply Forall_cons in IH as [IHT IHTs]. apply Forall_cons in Hms as [HT HTs].
      constructor; auto.
    + match goal with Hm : Forall2 _ others _ |- _ =>
        clear -Hm IHo Hos; induction Hm as [|T v Ts vs HTv _ IHm]; [constructor|] end.
      apply Forall_cons in IHo as [IHT IHTs]. apply Forall_cons in Hos as [HT HTs].
      constructor; auto.
Qed.

Lemma pod_obs_eq_refl h h' h0 T :
  is_pod_v T = true -> forall v, wf_value h0 T v -> obs_eq h h' T v v.
Proof.
  induction T as [t|T1 IH|Ts IH|Ts IH|T IH|T IH|Key T IHK IHT|N T IH|Key IH
                 |pod members others IH IHo]
    using shape_nested_ind; simpl; intros Hpod v Hv; try discriminate;
    inversion Hv; subst.
  - constructor.
  - constructor.
    match goal with Hvs : Forall _ ?vs |- _ =>
      destruct vs as [|v0 vs]; [constructor|] end.
    simpl in Hpod. apply Forall2_same. eapply Forall_impl; [done|].
    intros v. by apply IH.
  - apply andb_true_iff in Hpod as [[_ Hms]%andb_true_iff Hos].
    apply forallb_Forall_true in Hms.
    constructor;
      [|match goal with Hm : Forall2 _ others _ |- _ =>
          by apply Forall2_length in Hm end..].
    apply Forall3_same.
    match goal with Hm : Forall2 _ members _ |- _ =>
      clear -Hm IH Hms; induction Hm as [|T v Ts vs HTv _ IHm]; [constructor|] end.
    apply Forall_cons in IH as [IHT IHTs]. apply Forall_cons in Hms as [HT HTs].
    constructor; auto.
Qed.

Lemma bools_wf h vs :
  Forall (wf_value h (SLeaf TBool)) vs ->
  exists bls, vs = (fun b => VLeaf (LBool b)) <$> bls.
Proof.
  induction 1 as [|v vs Hv _ [bls ->]].
  - by exists [].
  - inversion Hv as [t x Ht Hx| | | | | | | | | | |]; subst.
    destruct x as [b| | |]; try discriminate. by exists (b :: bls).
Qed.

Lemma Forall3_two_inv {A B C} (R : A -> B -> C -> Prop) a1 a2 b1 b2 xs :
  Forall3 R [a1; a2] [b1; b2] xs ->
  exists c1 c2, xs = [c1; c2] /\ R a1 b1 c1 /\ R a2 b2 c2.
Proof.
  intros H. inversion H as [|? ? c1 ? ? xs1 H1 H2]; subst.
  inversion H2 as [|? ? c2 ? ? xs2 H3 H4]; subst.
  inversion H4; subst. eauto.
Qed.

Lemma Forall_exists_Forall2 {A B} (R : A -> B -> Prop) l :
  Forall (fun a => exists b, R a b) l -> exists k, Forall2 R l k.
Proof.
  induction 1 as [|a l [b Hb] _ [k IH]].
  - exists []. constructor.
  - exists (b :: k). by constructor.
Qed.

Lemma is_Some_None_bool {A} : bool_decide (is_Some (@None A)) = false.
Proof. apply bool_decide_eq_false. by intros [? ?]. Qed.

Lemma is_Some_Some_bool {A} (a : A) : bool_decide (is_Some (Some a)) = true.
Proof. by apply bool_decide_eq_true. Qed.

Section RoundTrip.
Context (P : Packer.t) (place : value -> list value -> nat).
Context (grants : shape -> N -> bool).
Context (enc : leaf -> list byte) (encN : shape -> list value -> list byte).
Context (HP : PackerInverts P enc encN).

#[local] Abbreviation call := (operator_call P place grants).

(** *** The primitives *)

Lemma packs_leaf_call t x h : packs (leaf_call P t x) x h (enc x).
Proof.
  unfold leaf_call. split.
  - intros s Hop. simpl. by rewrite Hop, (packSize_enc P enc encN HP).
  - intros s q Hop Hq Hfit Hadd. simpl.
    rewrite Hop, Hq, (pack_enc P enc encN HP) by done. simpl.
    by rewrite int_wrap_nat.
Qed.

Lemma unpacks_leaf_call x y :
  leaf_ok x ->
  unpacks (leaf_call P (type_of x) y) (enc x) (fun a _ hn => a = x /\ hn = []).
Proof.
  intros Hok s pre post h2 Hop Hbuf Hpos Hadd. exists x, []. split; [|done].
  unfold leaf_call. simpl.
  rewrite Hop, Hbuf, Hpos, (unpack_enc P enc encN HP) by done.
  rewrite int_wrap_nat by done. by rewrite app_nil_r.
Qed.

Lemma packs_call_bool b h : packs (call_bool P b) b h (enc (LBool b)).
Proof.
  unfold call_bool. rewrite <- (app_nil_r (enc _)).
  eapply packs_bind; [apply packs_leaf_call|apply packs_ret].
Qed.

Lemma unpacks_call_bool b b0 :
  unpacks (call_bool P b0) (enc (LBool b)) (fun a _ hn => a = b /\ hn = []).
Proof.
  unfold call_bool. rewrite <- (app_nil_r (enc _)).
  eapply unpacks_bind_val; [by apply (unpacks_leaf_call (LBool b))|].
  by apply unpacks_ret.
Qed.

Lemma packs_call_size n h : packs (call_size P n) n h (enc (LSize n)).
Proof.
  unfold call_size. rewrite <- (app_nil_r (enc _)).
  eapply packs_bind; [apply packs_leaf_call|apply packs_ret].
Qed.

Lemma unpacks_call_size n n0 :
  (n < 2 ^ 64)%N ->
  unpacks (call_size P n0) (enc (LSize n)) (fun a _ hn => a = n /\ hn = []).
Proof.
  intros Hn. unfold call_size. rewrite <- (app_nil_r (enc _)).
  eapply unpacks_bind_val; [by apply (unpacks_leaf_call (LSize n))|].
  by apply unpacks_ret.
Qed.

Lemma packs_block_call T vs h :
  packs (block_call P T vs) vs h (encN T vs).
Proof.
  unfold block_call. split.
  - intros s Hop. simpl. by rewrite Hop, (packSizeN_enc P enc encN HP).
  - intros s q Hop Hq Hfit Hadd. simpl.
    rewrite Hop, Hq, (packN_enc P enc encN HP) by done. simpl.
    by rewrite int_wrap_nat.
Qed.

Lemma unpacks_block_call T vs data :
  is_pod_v T = true ->
  Forall (wf_value [] T) vs ->
  length data = length vs ->
  unpacks (block_call P T data) (encN T vs)
    (fun a _ hn => a = vs /\ hn = []).
Proof.
  intros Hpod Hvs Hlen s pre post h2 Hop Hbuf Hpos Hadd.
  exists vs, []. split; [|done].
  unfold block_call. simpl.
  rewrite Hop, Hbuf, Hpos, Hlen, (unpackN_enc P enc encN HP) by done.
  rewrite decide_True by done. rewrite int_wrap_nat by done. by rewrite app_nil_r.
Qed.

(** *** The visitor *)

(** [bs] is the encoding of [v]: what the PACK pass writes for [v], and what
    the UNPACK pass reads back into a default-constructed destination as a
    value observationally equal to [v], when the allocator grants the
    vectors of [v]. *)
#[local] Abbreviation codec h T v bs :=
  (packs (call T v) v h bs
   /\ (granted grants h T v ->
       unpacks (call T (default_value T)) bs (decoded h T v))).

(** What [granted] says of the parts of a value. *)
Lemma granted_ptr_inv h T1 a v :
  granted grants h (SPtr T1) (VPtr (Some a)) -> h !! a = Some v ->
  granted grants h T1 v.
Proof. inversion 1; subst. intros. by simplify_eq. Qed.

Lemma granted_tuple_inv h Ts vs :
  granted grants h (STuple Ts) (VTuple vs) -> Forall2 (granted grants h) Ts vs.
Proof. by inversion 1. Qed.

Lemma granted_variant_inv h Ts i T v :
  granted grants h (SVariant Ts) (VVariant i v) -> Ts !! i = Some T ->
  granted grants h T v.
Proof. inversion 1; subst. intros. by simplify_eq. Qed.

Lemma granted_some_inv h T v :
  granted grants h (SOptional T) (VOptional (Some v)) -> granted grants h T v.
Proof. by inversion 1. Qed.

Lemma granted_vector_inv h T vs :
  granted grants h (SVector T) (VVector vs) ->
  (vs <> [] -> grants T (N.of_nat (length vs)) = true)
  /\ Forall (granted grants h T) vs.
Proof. by inversion 1. Qed.

Lemma granted_map_inv h Key T es :
  granted grants h (SMap Key T) (VMap es) ->
  Forall (fun e => granted grants h Key e.1 /\ granted grants h T e.2) es.
Proof. by inversion 1. Qed.

Lemma granted_array_inv h N T vs :
  granted grants h (SArray N T) (VArray vs) -> Forall (granted grants h T) vs.
Proof. by inversion 1. Qed.

Lemma granted_set_inv h Key ks :
  granted grants h (SSet Key) (VSet ks) -> Forall (granted grants h Key) ks.
Proof. by inversion 1. Qed.

Lemma granted_obj_inv h pod members others ms os :
  granted grants h (SObj pod members others) (VObj ms os) ->
  Forall2 (granted grants h) members ms.
Proof. by inversion 1. Qed.

(** A default-constructed vector grows to the size of a granted one. *)
Lemma vector_resize_nil T (vs : list value) st :
  (vs <> [] -> grants T (N.of_nat (length vs)) = true) ->
  vector_resize grants T (N.of_nat (length vs)) [] st
  = Ok (replicate (length vs) (default_value T)) st.
Proof.
  intros Hg. unfold vector_resize. rewrite Nat2N.id, resize_nil.
  destruct vs as [|v vs]; [done|]. by rewrite Hg, orb_true_r.
Qed.

Lemma vector_bool_reserve_nil (vs : list value) st :
  (vs <> [] -> grants (SLeaf TBool) (N.of_nat (length vs)) = true) ->
  vector_bool_reserve grants (N.of_nat (length vs)) [] st = Ok [] st.
Proof.
  intros Hg. unfold vector_bool_reserve.
  destruct vs as [|v vs]; [done|]. by rewrite Hg, orb_true_r.
Qed.

Lemma codec_Forall h T vs :
  Forall (fun v => exists bs, codec h T v bs) vs ->
  exists bss, Forall2 (fun v bs => codec h T v bs) vs bss.
Proof.
  induction 1 as [|v vs [bs Hv] _ [bss IH]].
  - exists []. constructor.
  - exists (bs :: bss). by constructor.
Qed.

Lemma codec_Forall2 h Ts vs :
  Forall (fun T => supported T = true ->
            forall v, wf_value h T v -> exists bs, codec h T v bs) Ts ->
  forallb supported Ts = true ->
  Forall2 (wf_value h) Ts vs ->
  exists bss, Forall3 (fun T v bs => codec h T v bs) Ts vs bss.
Proof.
  intros IH Hsup Hwf. apply forallb_Forall_true in Hsup.
  induction Hwf as [|T v Ts vs Hv _ IHvs].
  - exists []. constructor.
  - apply Forall_cons in IH as [IHT IH]. apply Forall_cons in Hsup as [HT Hsup].
    destruct (IHT HT v Hv) as [bs Hbs]. destruct (IHvs IH Hsup) as [bss Hbss].
    exists (bs :: bss). by constructor.
Qed.

Lemma codec_Forall_wf h T vs :
  (forall v, wf_value h T v -> exists bs, codec h T v bs) ->
  Forall (wf_value h T) vs ->
  exists bss, Forall2 (fun v bs => codec h T v bs) vs bss.
Proof.
  intros IH Hwf. apply codec_Forall. eapply Forall_impl; [exact Hwf|]. done.
Qed.

Lemma Forall3_granted {A B C} (G : A -> B -> Prop) (U : A -> B -> C -> Prop)
    (W : A -> B -> C -> Prop) l1 l2 l3 :
  Forall3 (fun a b c => W a b c /\ (G a b -> U a b c)) l1 l2 l3 ->
  Forall2 G l1 l2 -> Forall3 U l1 l2 l3.
Proof.
  induction 1 as [|a b c l1 l2 l3 [_ Habc] _ IH]; intros Hg; [constructor|].
  apply Forall2_cons in Hg as [Hab Hg]. constructor; auto.
Qed.

Lemma Forall2_granted {B C} (G : B -> Prop) (U W : B -> C -> Prop) l2 l3 :
  Forall2 (fun b c => W b c /\ (G b -> U b c)) l2 l3 ->
  Forall G l2 -> Forall2 U l2 l3.
Proof.
  induction 1 as [|b c l2 l3 [_ Hbc] _ IH]; intros Hg; [constructor|].
  apply Forall_cons in Hg as [Hb Hg]. constructor; auto.
Qed.

Lemma tuple_round_trip h Ts vs bss :
  Forall3 (fun T v bs => codec h T v bs) Ts vs bss ->
  packs (tuple_call call Ts vs) vs h (concat bss)
  /\ (Forall2 (granted grants h) Ts vs ->
      unpacks (tuple_call call Ts (default_value <$> Ts)) (concat bss)
        (fun xs base hn =>
           forall hx, length hx = base -> Forall3 (obs_eq h (hx ++ hn)) Ts vs xs)).
Proof.
  intros H. split.
  - apply packs_tuple_call. eapply Forall3_impl; [exact H|]. by intros T v bs [? ?].
  - intros Hg. eapply unpacks_conseq.
    + apply (unpacks_tuple_call call (decoded h) Ts vs bss).
      * intros. by apply decoded_ext.
      * intros. by apply decoded_shift.
      * by apply (Forall3_granted (granted grants h) _
                    (fun T v bs => packs (call T v) v h bs)).
    + simpl. intros xs base hn Hxs hx Hlen.
      eapply Forall3_impl; [exact Hxs|]. intros T v a Hd. by apply Hd.
Qed.

Lemma for_each_round_trip h T vs bss :
  Forall2 (fun v bs => codec h T v bs) vs bss ->
  packs (for_each (call T) vs) vs h (concat bss)
  /\ (Forall (granted grants h T) vs ->
      unpacks (for_each (call T) (replicate (length vs) (default_value T))) (concat bss)
        (fun xs base hn =>
           forall hx, length hx = base -> Forall2 (obs_eq h (hx ++ hn) T) vs xs)).
Proof.
  intros H. split.
  - apply packs_for_each. eapply Forall2_impl; [exact H|]. by intros v bs [? ?].
  - intros Hg. eapply unpacks_ext; [apply for_each_replicate|].
    eapply unpacks_conseq.
    + apply (unpacks_read_n _ (decoded h T) vs bss).
      * intros. by apply decoded_ext.
      * intros. by apply decoded_shift.
      * by apply (Forall2_granted (granted grants h T) _
                    (fun v bs => packs (call T v) v h bs)).
    + simpl. intros xs base hn Hxs hx Hlen.
      eapply Forall2_impl; [exact Hxs|]. intros v a Hd. by apply Hd.
Qed.

(** The visitor writes an encoding of every valid value of a supported
    shape and reads it back. *)
Lemma call_round_trip h T :
  supported T = true -> forall v, wf_value h T v -> exists bs, codec h T v bs.
Proof.
  induction T as [t|T1 IH|Ts IH|Ts IH|T IH|T IH|Key T IHK IHT|N T IH|Key IH
                 |pod members others IH IHo]
    using shape_nested_ind; intros Hsup v Hv; simpl in Hsup;
    inversion Hv as [t' x Ht Hx|T1'|T1' a v0 Ha Hv0|Ts' vs Hvs|Ts' i T' v0 Hi Hsz Hv0
                    |T'|T' v0 Hv0|T' vs Hsz Hvs|Key' T' es Hsz Hnd Hes
                    |N' T' vs Hlen Hvs|Key' ks Hsz Hnd Hks|pod' ms' os' ms os Hms Hos];
    subst.
  - (* leaf *)
    exists (enc x). split.
    + rewrite call_leaf. apply (packs_fmap _ VLeaf), packs_leaf_call.
    + intros Hg.
      change (default_value (SLeaf (type_of x))) with (VLeaf (leaf_default (type_of x))).
      rewrite call_leaf. eapply unpacks_fmap; [by apply unpacks_leaf_call|].
      intros a base hn [-> ->] hx _. constructor.
  - (* null pointer *)
    exists (enc (LBool false)). split.
    + rewrite call_ptr. apply (packs_fmap _ VPtr). unfold ptr.
      rewrite is_Some_None_bool, <- (app_nil_r (enc _)).
      eapply packs_bind; [apply packs_call_bool|].
      apply packs_get_op;
        (eapply (packs_bind _ _ _ _ _ []); [apply packs_ret|apply packs_ret]).
    + intros Hg. change (default_value (SPtr T1)) with (VPtr None). rewrite call_ptr.
      eapply (unpacks_fmap _ VPtr _ (fun p _ _ => p = None)).
      * unfold ptr. rewrite <- (app_nil_r (enc _)).
        eapply unpacks_bind_val; [apply (unpacks_call_bool false)|].
        apply unpacks_get_op.
        eapply unpacks_bind_pure; [done|]. by apply unpacks_ret.
      * intros p base hn -> hx _. constructor.
  - (* pointer *)
    destruct (IH Hsup _ Hv0) as (bs0 & Hp0 & Hu0).
    exists (enc (LBool true) ++ bs0). split.
    + rewrite call_ptr. apply (packs_fmap _ VPtr). unfold ptr.
      rewrite is_Some_Some_bool.
      eapply packs_bind; [apply packs_call_bool|].
      apply packs_get_op;
        (eapply (packs_bind _ _ _ _ _ []); [apply packs_ret|];
         eapply (packs_bind _ _ _ _ _ []); [by apply packs_load|];
         rewrite <- (app_nil_r bs0); eapply packs_bind; [exact Hp0|];
         eapply (packs_bind _ _ _ _ _ []); [by apply packs_store|apply packs_ret]).
    + intros Hg. specialize (Hu0 (granted_ptr_inv _ _ _ _ Hg Ha)).
      change (default_value (SPtr T1)) with (VPtr None). rewrite call_ptr.
      eapply (unpacks_fmap _ VPtr).
      * unfold ptr. rewrite is_Some_None_bool.
        eapply unpacks_bind_val; [apply (unpacks_call_bool true)|].
        apply unpacks_get_op.
        apply (unpacks_new_ptr (call T1) (default_value T1) bs0 _ Hu0).
      * simpl. intros p base hn (v' & hn0 & -> & -> & Hd) hx Hlen.
        econstructor; [exact Ha|by apply list_lookup_middle|].
        rewrite cons_middle, (assoc_L (++)). apply Hd.
        rewrite length_app. simpl. lia.
  - (* tuple *)
    destruct (codec_Forall2 h Ts vs IH Hsup Hvs) as [bss Hbss].
    destruct (tuple_round_trip h Ts vs bss Hbss) as [Hp Hu].
    exists (concat bss). split.
    + rewrite call_tuple. by apply (packs_fmap _ VTuple).
    + intros Hg. specialize (Hu (granted_tuple_inv _ _ _ Hg)).
      change (default_value (STuple Ts)) with (VTuple (default_value <$> Ts)).
      rewrite call_tuple. eapply unpacks_fmap; [exact Hu|].
      intros xs base hn Hxs hx Hlen. constructor. by apply Hxs.
  - (* variant *)
    apply forallb_Forall_true in Hsup.
    destruct (proj1 (Forall_lookup _ _) IH i T' Hi
                (proj1 (Forall_lookup _ _) Hsup i T' Hi) v0 Hv0) as (bs0 & Hp0 & Hu0).
    exists (enc (LSize (N.of_nat i)) ++ bs0). split.
    + rewrite call_variant. unfold variant.
      apply packs_get_op;
        (eapply packs_bind; [apply packs_call_size|];
         rewrite (visit_lookup _ _ _ _ _ Hi);
         by apply (packs_fmap _ (VVariant i))).
    + intros Hg. specialize (Hu0 (granted_variant_inv _ _ _ _ _ Hg Hi)).
      rewrite call_variant. unfold variant.
      apply unpacks_get_op.
      eapply unpacks_bind_val; [by apply (unpacks_call_size (N.of_nat i))|].
      eapply unpacks_bind_pure.
      { intros st. by apply make_variant_in_range. }
      simpl. rewrite (visit_lookup _ _ _ _ _ Hi).
      eapply unpacks_fmap; [exact Hu0|].
      intros a base hn Hd hx Hlen. econstructor; [exact Hi|by apply Hd].
  - (* empty optional *)
    exists (enc (LBool false)). split.
    + rewrite call_optional. apply (packs_fmap _ VOptional). unfold optional.
      rewrite is_Some_None_bool.
      apply packs_get_op;
        (rewrite <- (app_nil_r (enc _));
         eapply packs_bind; [apply packs_call_bool|apply packs_ret]).
    + intros Hg. change (default_value (SOptional T)) with (VOptional None).
      rewrite call_optional.
      eapply (unpacks_fmap _ VOptional _ (fun o _ _ => o = None)).
      * unfold optional. apply unpacks_get_op.
        rewrite <- (app_nil_r (enc _)).
        eapply unpacks_bind_val; [apply (unpacks_call_bool false)|].
        by apply unpacks_ret.
      * intros o base hn -> hx _. constructor.
  - (* optional *)
    destruct (IH Hsup _ Hv0) as (bs0 & Hp0 & Hu0).
    exists (enc (LBool true) ++ bs0). split.
    + rewrite call_optional. apply (packs_fmap _ VOptional). unfold optional.
      rewrite is_Some_Some_bool.
      apply packs_get_op;
        (eapply packs_bind; [apply packs_call_bool|by apply (packs_fmap _ Some)]).
    + intros Hg. specialize (Hu0 (granted_some_inv _ _ _ Hg)).
      change (default_value (SOptional T)) with (VOptional None).
      rewrite call_optional.
      eapply (unpacks_fmap _ VOptional _
                (fun o base hn => exists v', o = Some v' /\ decoded h T v0 v' base hn)).
      * unfold optional. apply unpacks_get_op.
        eapply unpacks_bind_val; [apply (unpacks_call_bool true)|].
        eapply (unpacks_fmap _ Some); [exact Hu0|]. eauto.
      * simpl. intros o base hn (v' & -> & Hd) hx Hlen. constructor. by apply Hd.
  - (* vector *)
    change (default_value (SVector T)) with (VVector []).
    assert (T = SLeaf TBool \/ T <> SLeaf TBool) as [->|HT]
      by (destruct T as [[]| | | | | | | | |]; (by left) || (by right)).
    + (* of bool *)
      destruct (bools_wf _ _ Hvs) as [bls ->].
      exists (enc (LSize (N.of_nat (length ((fun b => VLeaf (LBool b)) <$> bls))))
              ++ concat ((fun b => enc (LBool b)) <$> bls)).
      split.
      * rewrite call_vector_bool. apply (packs_fmap _ VVector). unfold vector_bool.
        apply packs_get_op;
          (eapply packs_bind; [apply packs_call_size|];
           apply packs_for_each; apply Forall2_fmap, Forall_Forall2_diag, Forall_forall;
           intros b _; simpl; apply (packs_fmap _ (fun b => VLeaf (LBool b)));
           apply packs_call_bool).
      * intros [Hgrant Hg]%granted_vector_inv. rewrite call_vector_bool.
        eapply (unpacks_fmap _ VVector _
                  (fun xs _ _ => xs = (fun b => VLeaf (LBool b)) <$> bls)).
        -- unfold vector_bool. apply unpacks_get_op.
           eapply unpacks_bind_val; [by apply unpacks_call_size|].
           eapply unpacks_bind_pure.
           { intros st. by apply vector_bool_reserve_nil. }
           rewrite Nat2N.id, length_fmap.
           eapply unpacks_ext; [apply push_back_loop_read_n|].
           eapply unpacks_fmap.
           ++ apply (unpacks_read_n_val _ bls).
              apply Forall2_fmap_r, Forall_Forall2_diag, Forall_forall.
              intros b _. apply unpacks_call_bool.
           ++ by intros a base hn [-> _].
        -- intros xs base hn -> hx _. constructor.
           apply Forall2_fmap, Forall_Forall2_diag, Forall_forall.
           intros b _. constructor.
    + destruct (is_pod_v T) eqn:Hpod.
      * (* of POD *)
        exists (enc (LSize (N.of_nat (length vs))) ++ encN T vs). split.
        -- rewrite call_vector by done. apply (packs_fmap _ VVector).
           unfold vector. rewrite Hpod.
           apply packs_get_op;
             (eapply packs_bind; [apply packs_call_size|apply packs_block_call]).
        -- intros [Hgrant Hg]%granted_vector_inv. rewrite call_vector by done.
           eapply (unpacks_fmap _ VVector _ (fun a _ _ => a = vs)).
           ++ unfold vector. rewrite Hpod.
              apply unpacks_get_op.
              eapply unpacks_bind_val; [by apply unpacks_call_size|].
              eapply unpacks_bind_pure.
              { intros st. by apply vector_resize_nil. }
              eapply unpacks_conseq.
              ** apply unpacks_block_call; [done| |by rewrite length_replicate].
                 eapply Forall_impl; [exact Hvs|]. intros v. by apply pod_wf_any.
              ** by intros a base hn [-> _].
           ++ intros a base hn -> hx _. constructor. apply Forall2_same.
              eapply Forall_impl; [exact Hvs|]. intros v. by apply pod_obs_eq_refl.
      * (* of anything else *)
        destruct (codec_Forall_wf h T vs (IH Hsup) Hvs) as [bss Hbss].
        destruct (for_each_round_trip h T vs bss Hbss) as [Hp Hu].
        exists (enc (LSize (N.of_nat (length vs))) ++ concat bss). split.
        -- rewrite call_vector by done. apply (packs_fmap _ VVector).
           unfold vector. rewrite Hpod.
           apply packs_get_op; (eapply packs_bind; [apply packs_call_size|exact Hp]).
        -- intros [Hgrant Hg]%granted_vector_inv. specialize (Hu Hg).
           rewrite call_vector by done. eapply (unpacks_fmap _ VVector).
           ++ unfold vector. rewrite Hpod. apply unpacks_get_op.
              eapply unpacks_bind_val; [by apply unpacks_call_size|].
              eapply unpacks_bind_pure.
              { intros st. by apply vector_resize_nil. }
              exact Hu.
           ++ simpl. intros xs base hn Hxs hx Hlen. constructor. by apply Hxs.
  - (* map *)
    apply andb_true_iff in Hsup as [HKey HT].
    change (default_value (SMap Key T)) with (VMap []).
    set (R := fun (e e' : value * value) base hn =>
                decoded h Key e.1 e'.1 base hn /\ decoded h T e.2 e'.2 base hn).
    destruct (Forall_exists_Forall2
                (fun e bs =>
                   packs (pair_call call Key T e) e h bs
                   /\ (granted grants h Key e.1 /\ granted grants h T e.2 ->
                       unpacks (pair_call call Key T (default_value Key, default_value T))
                         bs (R e))) es) as [bss Hbss].
    { eapply Forall_impl; [exact Hes|]. intros [k v] [Hk Hv']. simpl in Hk, Hv'.
      destruct (IHK (key_shape_supported _ HKey) _ Hk) as (bsk & Hpk & Huk).
      destruct (IHT HT _ Hv') as (bsv & Hpv & Huv).
      exists (concat [bsk; bsv]). split.
      - unfold pair_call, tuple. rewrite <- (app_nil_r (concat _)).
        eapply packs_bind with (a := [k; v]); [|apply packs_ret].
        apply packs_tuple_call.
        apply Forall3_cons; [done|]. apply Forall3_cons; [done|]. apply Forall3_nil.
      - simpl. intros [Hgk Hgv]. specialize (Huk Hgk). specialize (Huv Hgv).
        unfold pair_call, tuple. eapply unpacks_bind_ret.
        + apply (unpacks_tuple_call call (decoded h) [Key; T] [k; v] [bsk; bsv]).
          * intros. by apply decoded_ext.
          * intros. by apply decoded_shift.
          * apply Forall3_cons; [done|]. apply Forall3_cons; [done|].
            apply Forall3_nil.
        + simpl. intros xs base hn (k' & v' & -> & Hdk & Hdv)%Forall3_two_inv.
          by exists (k', v'). }
    exists (enc (LSize (N.of_nat (length es))) ++ concat bss). split.
    + rewrite call_map. apply (packs_fmap _ VMap). unfold map.
      apply packs_get_op;
        (eapply packs_bind; [apply packs_call_size|];
         apply packs_for_each; eapply Forall2_impl; [exact Hbss|];
         by intros e bs [? ?]).
    + intros Hg%granted_map_inv. rewrite call_map.
      eapply (unpacks_fmap _ VMap _
                (fun res base hn =>
                   exists es', es' ≡ₚ res /\ Forall2 (fun e e' => R e e' base hn) es es')).
      * unfold map. apply unpacks_get_op.
        eapply unpacks_bind_val; [by apply unpacks_call_size|].
        rewrite Nat2N.id.
        eapply unpacks_ext; [intros st; apply insert_loop_read_n|].
        eapply unpacks_fmap.
        -- apply (unpacks_read_n _ R es bss).
           ++ intros e e' base hn hn2 [? ?]. split; by apply decoded_ext.
           ++ intros e e' base hn1 hn2 [? ?]. split; by apply decoded_shift.
           ++ by apply (Forall2_granted
                          (fun e => granted grants h Key e.1 /\ granted grants h T e.2) _
                          (fun e bs => packs (pair_call call Key T e) e h bs)).
        -- simpl. intros es' base hn Hes'. exists es'. split; [|done].
           symmetry. apply (foldl_map_insert_perm place es' []).
           rewrite app_nil_r.
           assert (es'.*1 = es.*1) as ->; [|done].
           clear -Hes' HKey. induction Hes' as [|e e' es es' [Hk _] _ IHes]; [done|].
           rewrite !fmap_cons. f_equal; [|done]. symmetry.
           apply (key_shape_eq h (replicate base (VTuple []) ++ hn) Key HKey).
           apply Hk. by rewrite length_replicate.
      * simpl. intros res base hn (es' & Hperm & HF) hx Hlen.
        econstructor; [exact Hperm|].
        eapply Forall2_impl; [exact HF|]. intros e e' [Hk Hv']. split; auto.
  - (* array *)
    change (default_value (SArray (length vs) T))
      with (VArray (replicate (length vs) (default_value T))).
    destruct (is_pod_v T) eqn:Hpod.
    + exists (encN T vs). split.
      * rewrite call_array. apply (packs_fmap _ VArray).
        unfold array. rewrite Hpod. apply packs_block_call.
      * intros Hg. rewrite call_array.
        eapply (unpacks_fmap _ VArray _ (fun a _ _ => a = vs)).
        -- unfold array. rewrite Hpod.
           eapply unpacks_conseq.
           ++ apply unpacks_block_call; [done| |by rewrite length_replicate].
              eapply Forall_impl; [exact Hvs|]. intros v. by apply pod_wf_any.
           ++ by intros a base hn [-> _].
        -- intros a base hn -> hx _. constructor. apply Forall2_same.
           eapply Forall_impl; [exact Hvs|]. intros v. by apply pod_obs_eq_refl.
    + destruct (codec_Forall_wf h T vs (IH Hsup) Hvs) as [bss Hbss].
      destruct (for_each_round_trip h T vs bss Hbss) as [Hp Hu].
      exists (concat bss). split.
      * rewrite call_array. apply (packs_fmap _ VArray).
        unfold array. by rewrite Hpod.
      * intros Hg%granted_array_inv. specialize (Hu Hg).
        rewrite call_array. eapply (unpacks_fmap _ VArray).
        -- unfold array. rewrite Hpod. exact Hu.
        -- simpl. intros xs base hn Hxs hx Hlen. constructor. by apply Hxs.
  - (* set *)
    change (default_value (SSet Key)) with (VSet []).
    destruct (codec_Forall_wf h Key ks (IH (key_shape_supported _ Hsup)) Hks)
      as [bss Hbss].
    exists (enc (LSize (N.of_nat (length ks))) ++ concat bss). split.
    + rewrite call_set. apply (packs_fmap _ VSet). unfold set.
      apply packs_get_op;
        (eapply packs_bind; [apply packs_call_size|];
         apply packs_for_each; eapply Forall2_impl; [exact Hbss|];
         by intros e bs [? ?]).
    + intros Hg%granted_set_inv. rewrite call_set.
      eapply (unpacks_fmap _ VSet _
                (fun res base hn =>
                   exists ks', ks' ≡ₚ res
                     /\ Forall2 (fun k k' => decoded h Key k k' base hn) ks ks')).
      * unfold set. apply unpacks_get_op.
        eapply unpacks_bind_val; [by apply unpacks_call_size|].
        rewrite Nat2N.id.
        eapply unpacks_ext; [intros st; apply insert_loop_read_n|].
        eapply unpacks_fmap.
        -- apply (unpacks_read_n _ (decoded h Key) ks bss).
           ++ intros. by apply decoded_ext.
           ++ intros. by apply decoded_shift.
           ++ by apply (Forall2_granted (granted grants h Key) _
                          (fun k bs => packs (call Key k) k h bs)).
        -- simpl. intros ks' base hn Hks'. exists ks'. split; [|done].
           symmetry. apply (foldl_set_insert_perm place ks' []).
           rewrite app_nil_r.
           assert (ks' = ks) as ->; [|done].
           clear -Hks' Hsup. induction Hks' as [|k k' ks ks' Hk _ IHks]; [done|].
           f_equal; [|done]. symmetry.
           apply (key_shape_eq h (replicate base (VTuple []) ++ hn) Key Hsup).
           apply Hk. by rewrite length_replicate.
      * simpl. intros res base hn (ks' & Hperm & HF) hx Hlen.
        econstructor; [exact Hperm|].
        eapply Forall2_impl; [exact HF|]. intros k k' Hk. by apply Hk.
  - (* self-describing composite *)
    destruct (codec_Forall2 h members ms IH Hsup Hms) as [bss Hbss].
    destruct (tuple_round_trip h members ms bss Hbss) as [Hp Hu].
    exists (concat bss). split.
    + rewrite call_obj. by apply (packs_fmap _ (fun ms' => VObj ms' os)).
    + intros Hg%granted_obj_inv. specialize (Hu Hg).
      change (default_value (SObj pod members others))
        with (VObj (default_value <$> members) (default_value <$> others)).
      rewrite call_obj. eapply unpacks_fmap; [exact Hu|].
      intros xs base hn Hxs hx Hlen. constructor; [by apply Hxs| |].
      * symmetry. by eapply Forall2_length.
      * by rewrite length_fmap.
Qed.

Lemma splice_full (b bs : list byte) : length b = length bs -> splice b 0 bs = bs.
Proof.
  intros Hlen. unfold splice. simpl. rewrite drop_ge by lia. apply app_nil_r.
Qed.

(** The size pass of a packing computation counts its bytes. *)
Lemma packs_pass_size {A} (m : M A) a h bs : packs m a h bs -> pass_size m h = length bs.
Proof.
  intros [H _]. unfold pass_size.
  by rewrite (H (mkSerializer PACKSIZE 0 0 []) eq_refl).
Qed.

(** [pack] and [unpack] at a computation with an encoding. *)
Lemma pack_run {A} (m : M A) a s h bs :
  packs m a h bs -> addressable (length bs) ->
  (set_op PACKSIZE ≫= fun _ => set_packSize 0 ≫= fun _ => m ≫= fun _ =>
   set_position 0 ≫= fun _ => resize_buffer ≫= fun _ => set_op PACK ≫= fun _ => m)
    (s, h)
  = Ok a (mkSerializer PACK (length bs) (Z.of_nat (length bs)) bs, h).
Proof.
  intros [Hsize Hpack] Hadd.
  set (s0 := with_packSize 0 (with_op PACKSIZE s)).
  set (sA := with_packSize (m_packSize s0 + length bs) s0).
  set (sB := with_op PACK (with_buffer (resize (m_packSize sA) Byte.x00 (m_buffer sA))
                             (with_position 0 sA))).
  rewrite (bind_Ok _ _ (s, h) () (with_op PACKSIZE s, h)) by done.
  rewrite (bind_Ok _ _ _ () (s0, h)) by done.
  rewrite (bind_Ok _ _ _ _ _ (Hsize s0 eq_refl)).
  rewrite (bind_Ok _ _ _ () (with_position 0 sA, h)) by done.
  rewrite (bind_Ok _ _ _ ()
             (with_buffer (resize (m_packSize sA) Byte.x00 (m_buffer sA))
                (with_position 0 sA), h)) by done.
  rewrite (bind_Ok _ _ _ () (sB, h)) by done.
  rewrite (Hpack sB 0 eq_refl eq_refl);
    [|simpl; rewrite length_resize; lia|done].
  unfold with_buffer, with_position. simpl.
  by rewrite splice_full by (rewrite length_resize; lia).
Qed.

Lemma unpack_run {A} (m : M A) bs Q s h :
  unpacks m bs Q -> addressable (length bs) -> m_buffer s = bs ->
  exists a hn,
    (set_position 0 ≫= fun _ => set_op UNPACK ≫= fun _ => m) (s, h)
    = Ok a (mkSerializer UNPACK (m_packSize s) (Z.of_nat (length bs)) bs, h ++ hn)
    /\ Q a (length h) hn.
Proof.
  intros Hm Hadd Hbuf.
  destruct (Hm (with_op UNPACK (with_position 0 s)) [] [] h)
    as (a & hn & Hrun & HQ); [done|simpl; by rewrite app_nil_r|done|done|].
  exists a, hn. split; [|done].
  rewrite (bind_Ok _ _ (s, h) () (with_position 0 s, h)) by done.
  rewrite (bind_Ok _ _ _ () (with_op UNPACK (with_position 0 s), h)) by done.
  rewrite Hrun. unfold with_position, with_op. simpl. by rewrite Hbuf.
Qed.


End RoundTrip.

(** ** The byte-exact Packer keeps the contract *)

Lemma MemPacker_write b q bs :
  q + length bs <= length b ->
  MemPacker.write b (Z.of_nat q) bs = (splice b q bs, Z.of_nat (q + length bs)).
Proof.
  intros Hfit. unfold MemPacker.write. rewrite Nat2Z.id, <- Nat2Z.inj_add.
  destruct (Z.leb_spec 0 (Z.of_nat q)); [|lia].
  by destruct (Z.leb_spec (Z.of_nat (q + length bs)) (Z.of_nat (length b))); [|lia].
Qed.

Lemma MemPacker_sized : PackerSized MemPacker.packer.
Proof.
  split; intros; cbn -[MemPacker.write];
    first [ done | rewrite MemPacker_write by done; by apply length_splice ].
Qed.

Lemma MemPacker_window pre bs post :
  MemPacker.window (pre ++ bs ++ post) (Z.of_nat (length pre)) (length bs) = Some bs.
Proof.
  unfold MemPacker.window.
  destruct (Z.ltb_spec (Z.of_nat (length pre)) 0); [lia|].
  rewrite Nat2Z.id, drop_app_length, take_app_length.
  by rewrite decide_True.
Qed.

Lemma MemPacker_byte_of n : Byte.to_N (MemPacker.byte_of n) = (n mod 256)%N.
Proof.
  unfold MemPacker.byte_of.
  destruct (Byte.of_N (n mod 256)) as [b|] eqn:E; simpl.
  - by apply Byte.to_of_N.
  - apply Byte.of_N_None_iff in E.
    pose proof (N.mod_upper_bound n 256). lia.
Qed.

Lemma MemPacker_length_le_bytes w n : length (MemPacker.le_bytes w n) = w.
Proof. revert n. induction w as [|w IH]; intros n; simpl; [done|]. by rewrite IH. Qed.

Lemma MemPacker_le_value w n :
  (n < 256 ^ N.of_nat w)%N -> MemPacker.le_value (MemPacker.le_bytes w n) = n.
Proof.
  revert n. induction w as [|w IH]; intros n Hn.
  - simpl in *. lia.
  - cbn [MemPacker.le_bytes MemPacker.le_value].
    rewrite MemPacker_byte_of, IH.
    + pose proof (N.div_mod' n 256). lia.
    + rewrite Nat2N.inj_succ, N.pow_succ_r' in Hn.
      apply N.Div0.div_lt_upper_bound. lia.
Qed.

Lemma MemPacker_unpack_enc x pre post :
  leaf_ok x ->
  MemPacker.dec (type_of x) (pre ++ MemPacker.enc x ++ post) (Z.of_nat (length pre))
  = Some (x, Z.of_nat (length pre + length (MemPacker.enc x))).
Proof.
  intros Hok.
  destruct x as [b|n|z|s]; unfold MemPacker.dec, MemPacker.enc, type_of, leaf_ok in *.
  - destruct b; simpl.
    + pose proof (MemPacker_window pre [Byte.x01] post) as Hw. simpl in Hw.
      rewrite Hw. simpl. do 2 f_equal. lia.
    + pose proof (MemPacker_window pre [Byte.x00] post) as Hw. simpl in Hw.
      rewrite Hw. simpl. do 2 f_equal. lia.
  - pose proof (MemPacker_window pre (MemPacker.le_bytes 8 n) post) as Hw.
    rewrite MemPacker_length_le_bytes in Hw. rewrite Hw. cbn [mbind option_bind].
    rewrite (MemPacker_le_value 8), MemPacker_length_le_bytes by done.
    do 2 f_equal. lia.
  - pose proof (MemPacker_window pre (MemPacker.le_bytes 4 (Z.to_N (z mod 2 ^ 32))) post)
      as Hw.
    rewrite MemPacker_length_le_bytes in Hw. rewrite Hw. cbn [mbind option_bind].
    rewrite (MemPacker_le_value 4), MemPacker_length_le_bytes.
    2:{ change (256 ^ N.of_nat 4)%N with 4294967296%N.
        change (2 ^ 32)%Z with 4294967296%Z.
        pose proof (Z.mod_pos_bound z 4294967296). lia. }
    do 2 f_equal; [f_equal|lia].
    change (2 ^ 32)%Z with 4294967296%Z in *. change (2 ^ 31)%Z with 2147483648%Z in *.
    change (2 ^ 31)%N with 2147483648%N.
    destruct (N.ltb_spec (Z.to_N (z mod 4294967296)) 2147483648) as [Hlt|Hge];
      pose proof (Z.mod_pos_bound z 4294967296);
      pose proof (Z.div_mod z 4294967296); lia.
  - rewrite <- (assoc_L (++)).
    pose proof (MemPacker_window pre (MemPacker.le_bytes 8 (N.of_nat (length s)))
                  (s ++ post)) as Hw.
    rewrite MemPacker_length_le_bytes in Hw. rewrite Hw. cbn [mbind option_bind].
    rewrite (MemPacker_le_value 8) by done. rewrite Nat2N.id.
    pose proof (MemPacker_window (pre ++ MemPacker.le_bytes 8 (N.of_nat (length s)))
                  s post) as Hw2.
    rewrite length_app, MemPacker_length_le_bytes, <- (assoc_L (++)) in Hw2.
    replace (Z.of_nat (length pre) + 8)%Z with (Z.of_nat (length pre + 8)) by lia.
    rewrite Hw2. cbn [mbind option_bind]. rewrite length_app, MemPacker_length_le_bytes.
    do 2 f_equal. lia.
Qed.

Lemma Forall2_replicate_diag {A B} (R : A -> B -> Prop) d (xs : list B) :
  Forall (R d) xs -> Forall2 R (replicate (length xs) d) xs.
Proof. induction 1; simpl; by constructor. Qed.

(** Decoders that invert an encoding, one after the other. *)
Lemma MemPacker_dec_all {A} (encA : A -> list byte)
    (ds : list (list byte -> Z -> option (A * Z))) (xs : list A) :
  Forall2 (fun d x => forall pre post,
             d (pre ++ encA x ++ post) (Z.of_nat (length pre))
             = Some (x, Z.of_nat (length pre + length (encA x)))) ds xs ->
  forall pre post,
    MemPacker.dec_all ds (pre ++ concat (encA <$> xs) ++ post) (Z.of_nat (length pre))
    = Some (xs, Z.of_nat (length pre + length (concat (encA <$> xs)))).
Proof.
  induction 1 as [|d x ds xs Hd _ IH]; intros pre post.
  - simpl. by rewrite Nat.add_0_r.
  - rewrite fmap_cons. cbn [concat MemPacker.dec_all]. rewrite <- (assoc_L (++)).
    rewrite Hd. cbn [mbind option_bind fst snd].
    specialize (IH (pre ++ encA x) post).
    rewrite length_app, <- (assoc_L (++)) in IH. rewrite IH.
    cbn [mbind option_bind fst snd]. rewrite length_app. do 2 f_equal. lia.
Qed.

Lemma MemPacker_dec_members (dec_value : shape -> list byte -> Z -> option (value * Z))
    Ts vs :
  Forall (fun T =>
            is_pod_v T = true -> forall v, wf_value [] T v ->
            forall pre post,
              dec_value T (pre ++ MemPacker.enc_value v ++ post) (Z.of_nat (length pre))
              = Some (v, Z.of_nat (length pre + length (MemPacker.enc_value v)))) Ts ->
  Forall (fun T => is_pod_v T = true) Ts ->
  Forall2 (wf_value []) Ts vs ->
  Forall2 (fun d x => forall pre post,
             d (pre ++ MemPacker.enc_value x ++ post) (Z.of_nat (length pre))
             = Some (x, Z.of_nat (length pre + length (MemPacker.enc_value x))))
    (dec_value <$> Ts) vs.
Proof.
  intros IH Hpod Hwf. induction Hwf as [|T v Ts vs HTv _ IHm]; [constructor|].
  apply Forall_cons in IH as [IHT IHTs]. apply Forall_cons in Hpod as [HT HTs].
  rewrite fmap_cons. constructor; auto.
Qed.

Lemma MemPacker_dec_value T :
  is_pod_v T = true ->
  forall v, wf_value [] T v ->
  forall pre post,
    MemPacker.dec_value T (pre ++ MemPacker.enc_value v ++ post) (Z.of_nat (length pre))
    = Some (v, Z.of_nat (length pre + length (MemPacker.enc_value v))).
Proof.
  induction T as [t|T1 IH|Ts IH|Ts IH|T IH|T IH|Key T IHK IHT|N T IH|Key IH
                 |pod members others IH IHo]
    using shape_nested_ind; simpl; intros Hpod v Hv; try discriminate;
    inversion Hv as [t' x Ht Hx| | | | | | | | |N' T' vs Hlen Hvs|
                    |pod' ms' os' ms os Hms Hos]; subst; intros pre post.
  - simpl. by rewrite MemPacker_unpack_enc.
  - cbn [MemPacker.enc_value].
    rewrite (MemPacker_dec_all MemPacker.enc_value); [done|].
    apply Forall2_replicate_diag.
    destruct vs as [|v0 vs]; [constructor|]. simpl in Hpod.
    eapply Forall_impl; [exact Hvs|]. intros v Hv'. by apply IH.
  - apply andb_true_iff in Hpod as [[_ Hpm]%andb_true_iff Hpo].
    apply forallb_Forall_true in Hpm, Hpo.
    cbn [MemPacker.enc_value]. rewrite <- (assoc_L (++)).
    rewrite (MemPacker_dec_all MemPacker.enc_value)
      by (by apply MemPacker_dec_members).
    cbn [mbind option_bind fst snd].
    pose proof (MemPacker_dec_all MemPacker.enc_value _ _
                  (MemPacker_dec_members _ _ _ IHo Hpo Hos)
                  (pre ++ concat (MemPacker.enc_value <$> ms)) post) as Hd.
    rewrite length_app, <- (assoc_L (++)) in Hd. rewrite Hd.
    cbn [mbind option_bind fst snd]. rewrite length_app. do 2 f_equal. lia.
Qed.

Lemma MemPacker_unpackN_enc T vs pre post :
  is_pod_v T = true ->
  Forall (wf_value [] T) vs ->
  MemPacker.decN T (length vs) (pre ++ MemPacker.encN T vs ++ post)
    (Z.of_nat (length pre))
  = Some (vs, Z.of_nat (length pre + length (MemPacker.encN T vs))).
Proof.
  intros Hpod Hvs. unfold MemPacker.decN, MemPacker.encN.
  apply (MemPacker_dec_all MemPacker.enc_value), Forall2_replicate_diag.
  eapply Forall_impl; [exact Hvs|]. intros v Hv. by apply MemPacker_dec_value.
Qed.

Lemma MemPacker_inverts :
  PackerInverts MemPacker.packer MemPacker.enc MemPacker.encN.
Proof.
  split; cbn -[MemPacker.write]; try done.
  - intros. by apply MemPacker_write.
  - apply MemPacker_unpack_enc.
  - intros. by apply MemPacker_write.
  - apply MemPacker_unpackN_enc.
Qed.

(** ** What a call leaves alone *)

Lemma frame_refl st : frame st st.
Proof. by repeat split. Qed.

Lemma frame_trans st1 st2 st3 : frame st1 st2 -> frame st2 st3 -> frame st1 st3.
Proof.
  intros (Hop & Hsz & Hpos & Hbuf & Hlen) (Hop' & Hsz' & Hpos' & Hbuf' & Hlen').
  rewrite Hop in Hsz', Hpos', Hbuf'.
  repeat split.
  - congruence.
  - intros H. rewrite Hsz', Hsz; done.
  - intros H. rewrite Hpos', Hpos; done.
  - intros H. rewrite Hbuf', Hbuf; done.
  - lia.
Qed.

Lemma framed_ret {A} (a : A) : framed (mret a).
Proof. intros st. apply frame_refl. Qed.

Lemma framed_throw {A} e : framed (throw e : M A).
Proof. intros st. apply frame_refl. Qed.

Lemma framed_bind {A B} (m : M A) (f : A -> M B) :
  framed m -> (forall a, framed (f a)) -> framed (m ≫= f).
Proof.
  intros Hm Hf st. specialize (Hm st). unfold mbind, M_bind.
  destruct (m st) as [a st1|e st1]; simpl in *; [|done].
  eapply frame_trans; [exact Hm|apply Hf].
Qed.

Lemma framed_get_op {A} (f : Operation -> M A) :
  (forall op, framed (f op)) -> framed (get_op ≫= f).
Proof. intros Hf. apply framed_bind; [|done]. intros st. apply frame_refl. Qed.

Lemma framed_new v : framed (new v).
Proof.
  intros [s h]. unfold new, frame. simpl. rewrite length_app. simpl.
  repeat split; lia.
Qed.

Lemma framed_load a : framed (load a).
Proof. intros st. unfold load. destruct (st.2 !! a); apply frame_refl. Qed.

Lemma framed_store a v : framed (store a v).
Proof.
  intros [s h]. unfold store, frame. simpl. rewrite length_insert. by repeat split.
Qed.

Lemma framed_for_each {A} (f : A -> M A) data :
  (forall v, framed (f v)) -> framed (for_each f data).
Proof.
  intros Hf. induction data as [|v data IH]; simpl; [apply framed_ret|].
  apply framed_bind; [done|]. intros v'.
  apply framed_bind; [done|]. intros vs. apply framed_ret.
Qed.

Lemma framed_insert_loop {A} (read : M A) insert size data_mut :
  framed read -> framed (insert_loop read insert size data_mut).
Proof.
  intros Hread. revert data_mut.
  induction size as [|n IH]; intros data_mut; simpl; [apply framed_ret|].
  apply framed_bind; [done|]. intros entry. apply IH.
Qed.

Lemma framed_make_variant Ts index : framed (make_variant Ts index).
Proof.
  unfold make_variant. destruct Ts as [|T Rest]; [apply framed_throw|].
  generalize 0 as Index. generalize (T :: Rest) as Ts.
  induction Rest as [|R Rest IH]; intros Ts Index; simpl;
    case_decide; first [apply framed_ret | apply framed_throw | apply IH].
Qed.

Section Frame.
Context (P : Packer.t) (place : value -> list value -> nat).
Context (grants : shape -> N -> bool).

#[local] Abbreviation call := (operator_call P place grants).

Lemma framed_leaf_call t x : framed (leaf_call P t x).
Proof.
  intros [s h]. unfold leaf_call, frame. simpl.
  destruct (m_op s) eqn:Hop; simpl.
  - rewrite Hop. by repeat split.
  - rewrite Hop. by repeat split.
  - destruct (Packer.unpack P t (m_buffer s) (m_position s)) as [[x' p]|]; simpl;
      rewrite Hop; by repeat split.
Qed.

Lemma framed_call_bool b : framed (call_bool P b).
Proof.
  unfold call_bool. apply framed_bind; [apply framed_leaf_call|].
  intros [| | |]; first [apply framed_ret | apply framed_throw].
Qed.

Lemma framed_call_size n : framed (call_size P n).
Proof.
  unfold call_size. apply framed_bind; [apply framed_leaf_call|].
  intros [| | |]; first [apply framed_ret | apply framed_throw].
Qed.

Lemma framed_block_call T data : framed (block_call P T data).
Proof.
  intros [s h]. unfold block_call, frame. simpl.
  destruct (m_op s) eqn:Hop; simpl.
  - rewrite Hop; by repeat split.
  - rewrite Hop; by repeat split.
  - destruct (Packer.unpackN P T (length data) (m_buffer s) (m_position s))
      as [[xs p]|]; simpl; [case_decide; simpl|]; rewrite Hop; by repeat split.
Qed.

Lemma framed_bool_entry entry : framed (bool_entry P entry).
Proof.
  unfold bool_entry. destruct entry as [[b| | |]| | | | | | | | |];
    try apply framed_throw.
  apply framed_bind; [apply framed_call_bool|]. intros b'. apply framed_ret.
Qed.

Lemma framed_push_back_loop size data_mut : framed (push_back_loop P size data_mut).
Proof.
  revert data_mut. induction size as [|n IH]; intros data_mut; simpl;
    [apply framed_ret|].
  apply framed_bind; [apply framed_call_bool|]. intros entry. apply IH.
Qed.

Lemma framed_vector_resize T size data : framed (vector_resize grants T size data).
Proof.
  unfold vector_resize. destruct (_ || _); [apply framed_ret|apply framed_throw].
Qed.

Lemma framed_vector_bool_reserve size data :
  framed (vector_bool_reserve grants size data).
Proof.
  unfold vector_bool_reserve. destruct (_ || _); [apply framed_ret|apply framed_throw].
Qed.

Lemma framed_vector_bool data : framed (vector_bool P grants data).
Proof.
  unfold vector_bool. apply framed_get_op. intros op.
  destruct op;
    (apply framed_bind; [apply framed_call_size|]; intros size;
     first [ apply framed_for_each; apply framed_bool_entry
           | apply framed_bind; [apply framed_vector_bool_reserve|];
             intros data_mut; apply framed_push_back_loop ]).
Qed.

Lemma framed_vector self T data :
  (forall v, framed (self T v)) -> framed (vector P grants self T data).
Proof.
  intros Hself. unfold vector.
  destruct (is_pod_v T); apply framed_get_op; intros op; destruct op;
    (apply framed_bind; [apply framed_call_size|]; intros size;
     first [ apply framed_block_call | by apply framed_for_each
           | apply framed_bind; [apply framed_vector_resize|];
             intros data_mut;
             first [apply framed_block_call | by apply framed_for_each] ]).
Qed.

Lemma framed_array self T data :
  (forall v, framed (self T v)) -> framed (array P self T data).
Proof.
  intros Hself. unfold array.
  destruct (is_pod_v T); [apply framed_block_call|by apply framed_for_each].
Qed.

Lemma framed_tuple_call self Ts :
  Forall (fun T => forall v, framed (self T v)) Ts ->
  forall data, framed (tuple_call self Ts data).
Proof.
  induction 1 as [|T Ts HT _ IH]; intros [|v data]; simpl;
    try apply framed_ret; try apply framed_throw.
  apply framed_bind; [done|]. intros v'.
  apply framed_bind; [done|]. intros vs. apply framed_ret.
Qed.

Lemma framed_visit self Ts :
  Forall (fun T => forall v, framed (self T v)) Ts ->
  forall index v, framed (visit self Ts index v).
Proof.
  induction 1 as [|T Ts HT _ IH]; intros [|i] v; simpl;
    try apply framed_throw; [done|apply IH].
Qed.

Lemma framed_pair_call self Key T entry :
  (forall v, framed (self Key v)) -> (forall v, framed (self T v)) ->
  framed (pair_call self Key T entry).
Proof.
  intros HK HT. unfold pair_call, tuple.
  apply framed_bind.
  - apply framed_tuple_call. by apply Forall_cons_2, Forall_cons_2, Forall_nil_2.
  - intros [|k [|v [|? ?]]]; first [apply framed_ret | apply framed_throw].
Qed.

(** The visitor, whatever the data and whether it returns or throws. *)
Lemma framed_call T : forall data, framed (call T data).
Proof.
  induction T as [t|T1 IH|Ts IH|Ts IH|T IH|T IH|Key T IHK IHT|N T IH|Key IH
                 |pod members others IH IHo]
    using shape_nested_ind; intros data.
  - destruct data; try apply framed_throw. simpl.
    apply framed_bind; [apply framed_leaf_call|]. intros x'. apply framed_ret.
  - destruct data; try apply framed_throw. rewrite call_ptr.
    apply framed_bind; [|intros; apply framed_ret]. unfold ptr.
    apply framed_bind; [apply framed_call_bool|]. intros value.
    apply framed_get_op. intros op. apply framed_bind.
    + destruct op, value; try apply framed_ret.
      apply framed_bind; [apply framed_new|]. intros a. apply framed_ret.
    + intros [a|]; [|apply framed_ret].
      apply framed_bind; [apply framed_load|]. intros pointee.
      apply framed_bind; [apply IH|]. intros pointee'.
      apply framed_bind; [apply framed_store|]. intros _. apply framed_ret.
  - destruct data; try apply framed_throw. rewrite call_tuple.
    apply framed_bind; [|intros; apply framed_ret]. by apply framed_tuple_call.
  - rewrite call_variant. unfold variant. apply framed_get_op. intros op.
    assert (Hpack : framed (match data with
                            | VVariant i v =>
                                call_size P (N.of_nat i) ≫= fun _ =>
                                visit call Ts i v ≫= fun v' => mret (VVariant i v')
                            | _ => throw Undefined
                            end)).
    { destruct data; try apply framed_throw.
      apply framed_bind; [apply framed_call_size|]. intros _.
      apply framed_bind; [by apply framed_visit|]. intros v'. apply framed_ret. }
    destruct op; try exact Hpack.
    apply framed_bind; [apply framed_call_size|]. intros index.
    apply framed_bind; [apply framed_make_variant|]. intros data_mut.
    destruct data_mut; try apply framed_throw.
    apply framed_bind; [by apply framed_visit|]. intros v'. apply framed_ret.
  - destruct data; try apply framed_throw. rewrite call_optional.
    apply framed_bind; [|intros; apply framed_ret]. unfold optional.
    apply framed_get_op. intros op.
    assert (Hpack : framed (call_bool P (bool_decide (is_Some o)) ≫= fun _ =>
                            match o with
                            | Some v => call T v ≫= fun v' => mret (Some v')
                            | None => mret o
                            end)).
    { apply framed_bind; [apply framed_call_bool|]. intros _.
      destruct o; [|apply framed_ret].
      apply framed_bind; [apply IH|]. intros v'. apply framed_ret. }
    destruct op; try exact Hpack.
    apply framed_bind; [apply framed_call_bool|]. intros [|]; [|apply framed_ret].
    apply framed_bind; [apply IH|]. intros res. apply framed_ret.
  - destruct data; try (destruct T as [[]| | | | | | | | |]; apply framed_throw).
    assert (T = SLeaf TBool \/ T <> SLeaf TBool) as [->|HT]
      by (destruct T as [[]| | | | | | | | |]; (by left) || (by right)).
    + rewrite call_vector_bool.
      apply framed_bind; [|intros; apply framed_ret]. apply framed_vector_bool.
    + rewrite call_vector by done.
      apply framed_bind; [|intros; apply framed_ret]. by apply framed_vector.
  - destruct data; try apply framed_throw. rewrite call_map.
    apply framed_bind; [|intros; apply framed_ret]. unfold map.
    apply framed_get_op. intros op.
    destruct op;
      (apply framed_bind; [apply framed_call_size|]; intros size;
       first [ apply framed_insert_loop; by apply framed_pair_call
             | apply framed_for_each; intros e; by apply framed_pair_call ]).
  - destruct data; try apply framed_throw. rewrite call_array.
    apply framed_bind; [|intros; apply framed_ret]. by apply framed_array.
  - destruct data; try apply framed_throw. rewrite call_set.
    apply framed_bind; [|intros; apply framed_ret]. unfold set.
    apply framed_get_op. intros op.
    destruct op;
      (apply framed_bind; [apply framed_call_size|]; intros size;
       first [ by apply framed_insert_loop | by apply framed_for_each ]).
  - destruct data; try apply framed_throw. rewrite call_obj.
    apply framed_bind; [|intros; apply framed_ret]. by apply framed_tuple_call.
Qed.

End Frame.

(** ** The passes that only read *)

Lemma reads_ret {A} (a : A) : reads (mret a) a.
Proof. intros st _. split; [done|]. by intros a' st' [-> _]%ret_inv. Qed.

Lemma reads_throw {A} e (a : A) : reads (throw e) a.
Proof. intros st _. split; [done|]. intros a' st'. discriminate. Qed.

Lemma reads_bind {A B} (m : M A) (f : A -> M B) a b :
  framed m -> reads m a -> reads (f a) b -> reads (m ≫= f) b.
Proof.
  intros Hfr Hm Hf st Hop.
  destruct (Hm st Hop) as [Hst Hret]. pose proof (Hfr st) as (Hop' & _).
  unfold mbind, M_bind. destruct (m st) as [a' st1|e st1]; simpl in *.
  - rewrite (Hret a' st1 eq_refl).
    destruct (Hf st1) as [Hst' Hret']; [by rewrite Hop'|]. by rewrite Hst', Hst.
  - split; [done|]. intros a' st'. discriminate.
Qed.

Lemma reads_get_op {A} (f : Operation -> M A) a :
  reads (f PACKSIZE) a -> reads (f PACK) a -> reads (get_op ≫= f) a.
Proof.
  intros H1 H2 st Hop. unfold mbind, M_bind, get_op.
  destruct (m_op st.1) eqn:E; [apply H1|apply H2|done]; by rewrite E.
Qed.

(** A pointee handed over by reference and put back. *)
Lemma reads_through {A} (m : value -> M value) a (b : A) :
  (forall v, framed (m v)) -> (forall v, reads (m v) v) ->
  reads (load a ≫= fun pointee =>
         m pointee ≫= fun pointee' =>
         store a pointee' ≫= fun _ => mret b) b.
Proof.
  intros Hfr Hm st Hop. unfold mbind, M_bind, load.
  destruct (st.2 !! a) as [v|] eqn:Ha; simpl.
  - destruct (Hm v st Hop) as [Hst Hret].
    destruct (m v st) as [v' st1|e st1]; simpl in *.
    + rewrite (Hret v' st1 eq_refl). unfold store, mret, M_ret. simpl.
      rewrite Hst, list_insert_id by done. split; [done|]. intros a' st' ?. congruence.
    + split; [done|]. intros a' st'. discriminate.
  - split; [done|]. intros a' st'. discriminate.
Qed.

Lemma reads_for_each {A} (f : A -> M A) data :
  (forall v, framed (f v)) -> (forall v, reads (f v) v) -> reads (for_each f data) data.
Proof.
  intros Hfr Hf. induction data as [|v data IH]; simpl; [apply reads_ret|].
  eapply reads_bind; [done|apply Hf|].
  eapply reads_bind; [by apply framed_for_each|exact IH|apply reads_ret].
Qed.

Section Reads.
Context (P : Packer.t) (place : value -> list value -> nat).
Context (grants : shape -> N -> bool).

#[local] Abbreviation call := (operator_call P place grants).

Lemma reads_leaf_call t x : reads (leaf_call P t x) x.
Proof.
  intros [s h] Hop. unfold leaf_call. simpl in *.
  destruct (m_op s); [| |done]; (split; [done|]); intros a' st' ?; congruence.
Qed.

Lemma reads_call_bool b : reads (call_bool P b) b.
Proof.
  unfold call_bool.
  eapply reads_bind; [apply framed_leaf_call|apply reads_leaf_call|apply reads_ret].
Qed.

Lemma reads_call_size n : reads (call_size P n) n.
Proof.
  unfold call_size.
  eapply reads_bind; [apply framed_leaf_call|apply reads_leaf_call|apply reads_ret].
Qed.

Lemma reads_block_call T data : reads (block_call P T data) data.
Proof.
  intros [s h] Hop. unfold block_call. simpl in *.
  destruct (m_op s); [| |done]; simpl;
    (split; [done|]); intros a' st' ?; congruence.
Qed.

Lemma reads_tuple_call self Ts :
  Forall (fun T => forall v, framed (self T v) /\ reads (self T v) v) Ts ->
  forall data, reads (tuple_call self Ts data) data.
Proof.
  induction 1 as [|T Ts HT HTs IH]; intros [|v data]; simpl;
    try apply reads_ret; try apply reads_throw.
  eapply reads_bind; [apply HT|apply HT|].
  eapply reads_bind; [|apply IH|apply reads_ret].
  apply framed_tuple_call. eapply Forall_impl; [exact HTs|]. intros T' H v'. apply H.
Qed.

Lemma reads_visit self Ts :
  Forall (fun T => forall v, reads (self T v) v) Ts ->
  forall index v, reads (visit self Ts index v) v.
Proof.
  induction 1 as [|T Ts HT _ IH]; intros [|i] v; simpl;
    try apply reads_throw; [done|apply IH].
Qed.

Lemma reads_bool_entry entry : reads (bool_entry P entry) entry.
Proof.
  unfold bool_entry. destruct entry as [[b| | |]| | | | | | | | |];
    try apply reads_throw.
  eapply reads_bind; [apply framed_call_bool|apply reads_call_bool|apply reads_ret].
Qed.

Lemma reads_pair_call self Key T entry :
  (forall v, framed (self Key v) /\ reads (self Key v) v) ->
  (forall v, framed (self T v) /\ reads (self T v) v) ->
  reads (pair_call self Key T entry) entry.
Proof.
  intros HK HT. unfold pair_call, tuple. destruct entry as [k v].
  eapply reads_bind.
  - apply framed_tuple_call.
    apply Forall_cons_2; [apply HK|]. apply Forall_cons_2; [apply HT|apply Forall_nil_2].
  - apply reads_tuple_call. by apply Forall_cons_2, Forall_cons_2, Forall_nil_2.
  - apply reads_ret.
Qed.

(** The visitor outside an UNPACK pass: the data and the free store are
    what they were, whatever the data. *)
Lemma reads_call T : forall data, reads (call T data) data.
Proof.
  induction T as [t|T1 IH|Ts IH|Ts IH|T IH|T IH|Key T IHK IHT|N T IH|Key IH
                 |pod members others IH IHo]
    using shape_nested_ind; intros data.
  - destruct data; try apply reads_throw. simpl.
    eapply reads_bind; [apply framed_leaf_call|apply reads_leaf_call|apply reads_ret].
  - destruct data as [|p| | | | | | | |]; try apply reads_throw. rewrite call_ptr.
    unfold ptr.
    eapply reads_bind with (a := p); [| |apply reads_ret].
    { apply framed_bind; [apply framed_call_bool|]. intros value.
      apply framed_get_op. intros op. apply framed_bind.
      - destruct op, value; try apply framed_ret.
        apply framed_bind; [apply framed_new|]. intros a. apply framed_ret.
      - intros [a|]; [|apply framed_ret].
        apply framed_bind; [apply framed_load|]. intros pointee.
        apply framed_bind; [apply framed_call|]. intros pointee'.
        apply framed_bind; [apply framed_store|]. intros _. apply framed_ret. }
    eapply reads_bind; [apply framed_call_bool|apply reads_call_bool|].
    apply reads_get_op;
      (eapply reads_bind; [apply framed_ret|apply reads_ret|];
       destruct p as [a|]; [|apply reads_ret];
       apply reads_through; [apply framed_call|apply IH]).
  - destruct data; try apply reads_throw. rewrite call_tuple.
    eapply reads_bind; [|apply reads_tuple_call|apply reads_ret].
    + apply framed_tuple_call. apply Forall_forall. intros T _ v. apply framed_call.
    + eapply Forall_impl; [exact IH|]. intros T H v. split; [apply framed_call|apply H].
  - rewrite call_variant. unfold variant.
    assert (Hpack : reads (match data with
                           | VVariant i v =>
                               call_size P (N.of_nat i) ≫= fun _ =>
                               visit call Ts i v ≫= fun v' => mret (VVariant i v')
                           | _ => throw Undefined
                           end) data).
    { destruct data as [| | |i v| | | | | |]; try apply reads_throw.
      eapply reads_bind; [apply framed_call_size|apply reads_call_size|].
      eapply reads_bind; [|by apply reads_visit|apply reads_ret].
      apply framed_visit. apply Forall_forall. intros T _ v'. apply framed_call. }
    by apply reads_get_op.
  - destruct data as [| | | |o| | | | |]; try apply reads_throw. rewrite call_optional.
    eapply reads_bind with (a := o); [| |apply reads_ret].
    { unfold optional. apply framed_get_op. intros op.
      destruct op;
        (apply framed_bind; [apply framed_call_bool|]; intros b;
         repeat first [ apply framed_ret
                      | apply framed_bind; [apply framed_call|intros ?]
                      | destruct b | destruct o ]). }
    unfold optional.
    assert (Hpack : reads (call_bool P (bool_decide (is_Some o)) ≫= fun _ =>
                           match o with
                           | Some v => call T v ≫= fun v' => mret (Some v')
                           | None => mret o
                           end) o).
    { eapply reads_bind; [apply framed_call_bool|apply reads_call_bool|].
      destruct o as [v|]; [|apply reads_ret].
      eapply reads_bind; [apply framed_call|apply IH|apply reads_ret]. }
    by apply reads_get_op.
  - destruct data as [| | | | |vs| | | |];
      try (destruct T as [[]| | | | | | | | |]; apply reads_throw).
    assert (T = SLeaf TBool \/ T <> SLeaf TBool) as [->|HT]
      by (destruct T as [[]| | | | | | | | |]; (by left) || (by right)).
    + rewrite call_vector_bool.
      eapply reads_bind with (a := vs); [apply framed_vector_bool| |apply reads_ret].
      unfold vector_bool.
      apply reads_get_op;
        (eapply reads_bind; [apply framed_call_size|apply reads_call_size|];
         apply reads_for_each; [apply framed_bool_entry|apply reads_bool_entry]).
    + rewrite call_vector by done.
      eapply reads_bind with (a := vs);
        [apply framed_vector, framed_call| |apply reads_ret].
      unfold vector.
      destruct (is_pod_v T); apply reads_get_op;
        (eapply reads_bind; [apply framed_call_size|apply reads_call_size|];
         first [apply reads_block_call
               | apply reads_for_each; [apply framed_call|apply IH]]).
  - destruct data as [| | | | | |es| | |]; try apply reads_throw. rewrite call_map.
    eapply reads_bind with (a := es); [| |apply reads_ret].
    { unfold map. apply framed_get_op. intros op.
      destruct op;
        (apply framed_bind; [apply framed_call_size|]; intros size;
         first [ apply framed_insert_loop; apply framed_pair_call; apply framed_call
               | apply framed_for_each; intros e; apply framed_pair_call;
                 apply framed_call ]). }
    unfold map.
    apply reads_get_op;
      (eapply reads_bind; [apply framed_call_size|apply reads_call_size|];
       apply reads_for_each;
       [ intros e; apply framed_pair_call; apply framed_call
       | intros e; apply reads_pair_call; intros v;
         (split; [apply framed_call|first [apply IHK|apply IHT]]) ]).
  - destruct data as [| | | | | | |vs| |]; try apply reads_throw. rewrite call_array.
    eapply reads_bind with (a := vs);
      [apply framed_array, framed_call| |apply reads_ret].
    unfold array.
    destruct (is_pod_v T);
      [apply reads_block_call|apply reads_for_each; [apply framed_call|apply IH]].
  - destruct data as [| | | | | | | |ks|]; try apply reads_throw. rewrite call_set.
    eapply reads_bind with (a := ks); [| |apply reads_ret].
    { unfold set. apply framed_get_op. intros op.
      destruct op;
        (apply framed_bind; [apply framed_call_size|]; intros size;
         first [ apply framed_insert_loop, framed_call
               | apply framed_for_each, framed_call ]). }
    unfold set.
    apply reads_get_op;
      (eapply reads_bind; [apply framed_call_size|apply reads_call_size|];
       apply reads_for_each; [apply framed_call|apply IH]).
  - destruct data as [| | | | | | | | |ms os]; try apply reads_throw. rewrite call_obj.
    eapply reads_bind; [|apply reads_tuple_call|apply reads_ret].
    + apply framed_tuple_call. apply Forall_forall. intros T _ v. apply framed_call.
    + eapply Forall_impl; [exact IH|]. intros T H v. split; [apply framed_call|apply H].
Qed.

End Reads.

(** ** The entry points *)

Lemma frame_op_buffer st st' :
  frame st st' -> m_op st.1 = UNPACK ->
  m_op st'.1 = UNPACK /\ m_buffer st'.1 = m_buffer st.1
  /\ m_packSize st'.1 = m_packSize st.1.
Proof.
  intros (Hop & Hsz & _ & Hbuf & _) H. rewrite H in *.
  repeat split; [done|by apply Hbuf|by apply Hsz].
Qed.

Lemma tuple_call_two self Key T k v vs st st' :
  tuple_call self [Key; T] [k; v] st = Ok vs st' -> exists k' v', vs = [k'; v'].
Proof.
  simpl. intros (k' & st1 & _ & H)%bind_inv.
  apply bind_inv in H as (vs' & st2 & H & [<- _]%ret_inv).
  apply bind_inv in H as (v' & st3 & _ & H).
  apply bind_inv in H as (r & st4 & [<- _]%ret_inv & [<- _]%ret_inv). eauto.
Qed.

Lemma pack_object_run {A} (hook : M A) st :
  match hook (with_packSize 0 (with_op PACKSIZE st.1), st.2) with
  | Ok _ st1 =>
      pack_object hook st
      = hook (with_op PACK
                (with_buffer (resize (m_packSize st1.1) Byte.x00 (m_buffer st1.1))
                   (with_position 0 st1.1)), st1.2)
  | Err e st1 => pack_object hook st = Err e st1
  end.
Proof.
  unfold pack_object, mbind, M_bind. simpl.
  by destruct (hook (with_packSize 0 (with_op PACKSIZE st.1), st.2)).
Qed.

Lemma unpack_object_run {A} (hook : M A) st :
  unpack_object hook st = hook (with_op UNPACK (with_position 0 st.1), st.2).
Proof. done. Qed.

Section Api.
Context (P : Packer.t) (place : value -> list value -> nat).
Context (grants : shape -> N -> bool).

#[local] Abbreviation call := (operator_call P place grants).

Lemma framed_variadic_call first args : framed (variadic_call P place grants first args).
Proof.
  intros st. rewrite variadic_call_tuple_call.
  apply framed_tuple_call. apply Forall_forall. intros T _ v. apply framed_call.
Qed.

(** X1: [operator()] keeps the mode it runs in and touches only what that
    mode owns, whatever the type and the data and whether it returns or
    throws: the byte count moves only in a PACKSIZE pass, the cursor only
    outside it, and the buffer only in a PACK pass. *)
Theorem operator_call_frame T data st :
  let st' := state_of (operator_call P place grants T data st) in
  m_op st'.1 = m_op st.1
  /\ (m_op st.1 <> PACKSIZE -> m_packSize st'.1 = m_packSize st.1)
  /\ (m_op st.1 = PACKSIZE -> m_position st'.1 = m_position st.1)
  /\ (m_op st.1 <> PACK -> m_buffer st'.1 = m_buffer st.1).
Proof.
  cbv zeta. by destruct (framed_call P place grants T data st) as (? & ? & ? & ? & _).
Qed.

(** X2: [unpack], for one value or for several, never changes the buffer it
    reads nor the byte count of the last [pack], whether it returns or
    throws. *)
Theorem unpack_keeps_buffer st :
  (forall T data,
     let st' := state_of (unpack P place grants T data st) in
     m_buffer st'.1 = m_buffer st.1 /\ m_packSize st'.1 = m_packSize st.1)
  /\ (forall first args,
        let st' := state_of (unpack_variadic P place grants first args st) in
        m_buffer st'.1 = m_buffer st.1 /\ m_packSize st'.1 = m_packSize st.1).
Proof.
  split; cbv zeta.
  - intros T data.
    change (unpack P place grants T data) with (unpack_object (call T data)).
    rewrite unpack_object_run.
    by destruct (frame_op_buffer _ _
                   (framed_call P place grants T data
                      (with_op UNPACK (with_position 0 st.1), st.2)) eq_refl)
      as (_ & ? & ?).
  - intros first args.
    change (unpack_variadic P place grants first args)
      with (unpack_object (variadic_call P place grants first args)).
    rewrite unpack_object_run.
    by destruct (frame_op_buffer _ _
                   (framed_variadic_call first args
                      (with_op UNPACK (with_position 0 st.1), st.2)) eq_refl)
      as (_ & ? & ?).
Qed.

(** X3: [isSerializing()] is true when [pack] is left and false when
    [unpack] is left, by a return or by an exception. *)
Theorem isSerializing_after T data st :
  (let st' := state_of (pack P place grants T data st) in isSerializing st' = Ok true st')
  /\ (let st' := state_of (unpack P place grants T data st) in isSerializing st' = Ok false st').
Proof.
  split; cbv zeta.
  - change (pack P place grants T data) with (pack_object (call T data)).
    pose proof (pack_object_run (call T data) st) as Hrun.
    pose proof (framed_call P place grants T data
                  (with_packSize 0 (with_op PACKSIZE st.1), st.2)) as (Hop & _).
    destruct (call T data (with_packSize 0 (with_op PACKSIZE st.1), st.2))
      as [v st1|e st1]; rewrite Hrun; simpl in *.
    + pose proof (framed_call P place grants T data
                    (with_op PACK
                       (with_buffer (resize (m_packSize st1.1) Byte.x00 (m_buffer st1.1))
                          (with_position 0 st1.1)), st1.2)) as (Hop' & _).
      unfold isSerializing. simpl in *. by rewrite Hop'.
    + unfold isSerializing. by rewrite Hop.
  - change (unpack P place grants T data) with (unpack_object (call T data)).
    rewrite unpack_object_run.
    pose proof (framed_call P place grants T data
                  (with_op UNPACK (with_position 0 st.1), st.2)) as (Hop & _).
    unfold isSerializing. simpl in *. by rewrite Hop.
Qed.

(** X4: [pack] only reads its argument: whatever the data, the free store is
    left as it was, and when [pack] returns the data is what it was. *)
Theorem pack_reads_only T data st :
  (state_of (pack P place grants T data st)).2 = st.2
  /\ forall v st', pack P place grants T data st = Ok v st' -> v = data.
Proof.
  change (pack P place grants T data) with (pack_object (call T data)).
  pose proof (pack_object_run (call T data) st) as Hrun.
  destruct (reads_call P place grants T data (with_packSize 0 (with_op PACKSIZE st.1), st.2))
    as [Hst _]; [done|].
  destruct (call T data (with_packSize 0 (with_op PACKSIZE st.1), st.2))
    as [v st1|e st1]; rewrite Hrun; simpl in *.
  - destruct (reads_call P place grants T data
                (with_op PACK
                   (with_buffer (resize (m_packSize st1.1) Byte.x00 (m_buffer st1.1))
                      (with_position 0 st1.1)), st1.2)) as [Hst' Hret]; [done|].
    simpl in Hst'. split; [by rewrite Hst', Hst|exact Hret].
  - split; [done|]. intros v st'. discriminate.
Qed.

Lemma ptr_unpack_fresh T1 st a st' :
  m_op st.1 = UNPACK ->
  call (SPtr T1) (VPtr None) st = Ok (VPtr (Some a)) st' ->
  a = length st.2 /\ length st.2 < length st'.2.
Proof.
  intros Hop. rewrite call_ptr.
  intros (p' & st1 & Hrun & [[= ->] ->]%ret_inv)%bind_inv.
  destruct (call_bool P false st) as [value st0|e st0] eqn:Hflag.
  2:{ unfold ptr in Hrun.
      rewrite (bind_cong _ (call_bool P false) _ st st) in Hrun
        by (by apply call_bool_unpack).
      by rewrite (bind_Err _ _ _ _ _ Hflag) in Hrun. }
  rewrite (ptr_unpack_run P _ T1 None st value st0 Hop Hflag) in Hrun.
  apply call_bool_op in Hflag as [_ Hst0].
  destruct value.
  - rewrite (bind_Ok _ _ _ (Some (length st0.2)) (st0.1, st0.2 ++ [default_value T1]))
      in Hrun by done.
    rewrite (bind_Ok _ _ _ (default_value T1) (st0.1, st0.2 ++ [default_value T1]))
      in Hrun.
    2:{ unfold load. simpl. by rewrite list_lookup_middle. }
    apply bind_inv in Hrun as (pointee' & st2 & Hcall & Hrun).
    apply bind_inv in Hrun as ([] & st3 & [= <-] & [[= <-] <-]%ret_inv).
    pose proof (framed_call P place grants T1 (default_value T1)
                  (st0.1, st0.2 ++ [default_value T1])) as (_ & _ & _ & _ & Hlen).
    rewrite Hcall in Hlen. simpl in Hlen. rewrite length_app in Hlen. simpl in Hlen.
    simpl. rewrite length_insert, <- Hst0. split; [done|lia].
  - by apply ret_inv in Hrun as [? _].
Qed.

(** X5: [unpack] never makes two pointers share an object: when one call
    reads two smart pointers and neither comes out null, they own two
    different objects, both allocated during the call. *)
Theorem unpack_never_shares T1 T2 st a b st' :
  m_op st.1 = UNPACK ->
  operator_call P place grants (STuple [SPtr T1; SPtr T2]) (VTuple [VPtr None; VPtr None]) st
  = Ok (VTuple [VPtr (Some a); VPtr (Some b)]) st' ->
  a <> b
  /\ st.2 !! a = None /\ st.2 !! b = None
  /\ is_Some (st'.2 !! a) /\ is_Some (st'.2 !! b).
Proof.
  intros Hop. rewrite call_tuple.
  intros (vs & st3 & Hrun & [[= ->] ->]%ret_inv)%bind_inv.
  unfold tuple in Hrun. cbn [tuple_call] in Hrun.
  apply bind_inv in Hrun as (v1 & st1 & H1 & Hrun).
  apply bind_inv in Hrun as (vs & st2 & Hrun & [[= -> ->] ->]%ret_inv).
  apply bind_inv in Hrun as (v2 & st2' & H2 & Hrun).
  apply bind_inv in Hrun as (r & st4 & [<- <-]%ret_inv & [[= ->] ->]%ret_inv).
  pose proof (framed_call P place grants (SPtr T1) (VPtr None) st) as (Hop1 & _).
  rewrite H1 in Hop1. simpl in Hop1.
  apply ptr_unpack_fresh in H1 as [-> Hlt1]; [|done].
  apply ptr_unpack_fresh in H2 as [-> Hlt2]; [|by rewrite Hop1].
  split; [lia|].
  split; [apply lookup_ge_None; lia|]. split; [apply lookup_ge_None; lia|].
  split; apply lookup_lt_is_Some; lia.
Qed.

End Api.

(** ** The bytes of a value *)

Lemma position_of_nat s h n :
  m_position s = Z.of_nat n -> addressable n ->
  position (s, h) = Ok (N.of_nat n) (s, h).
Proof.
  unfold position, addressable. simpl. intros -> Hlt. f_equal.
  rewrite Z.mod_small by lia. apply N2Z.inj. rewrite Z2N.id by lia.
  by rewrite nat_N_Z.
Qed.

Lemma pack_object_packs {A} (hook : M A) a h bs s :
  packs hook a h bs -> addressable (length bs) ->
  pack_object hook (s, h)
  = Ok a (mkSerializer PACK (length bs) (Z.of_nat (length bs)) bs, h).
Proof. apply pack_run. Qed.

Lemma unpack_object_unpacks {A} (hook : M A) bs Q s h rest :
  unpacks hook bs Q ->
  addressable (length bs) ->
  m_buffer s = bs ++ rest ->
  exists a hn,
    unpack_object hook (s, h)
    = Ok a (mkSerializer UNPACK (m_packSize s) (Z.of_nat (length bs)) (bs ++ rest),
            h ++ hn)
    /\ Q a (length h) hn.
Proof.
  intros Hu Hadd Hbuf.
  destruct (Hu (with_op UNPACK (with_position 0 s)) [] rest h)
    as (a & hn & Hrun & HQ); [done..|].
  exists a, hn. split; [|done].
  rewrite unpack_object_run. simpl. rewrite Hrun.
  unfold with_position, with_op. simpl. by rewrite Hbuf.
Qed.

Lemma packs_ext_pass {A} (m m' : M A) a h bs :
  (forall st, m_op st.1 <> UNPACK -> m st = m' st) -> packs m' a h bs -> packs m a h bs.
Proof.
  intros Heq [H1 H2]. split.
  - intros s Hop. rewrite Heq; [by apply H1|]. simpl. by rewrite Hop.
  - intros s q Hop Hq Hfit Hadd. rewrite Heq; [by apply H2|]. simpl. by rewrite Hop.
Qed.

Lemma packs_fmap_inv {A B} (m : M A) (g : A -> B) a h bs :
  (forall x y, g x = g y -> x = y) ->
  packs (m ≫= fun x => mret (g x)) (g a) h bs -> packs m a h bs.
Proof.
  intros Hg [H1 H2]. split.
  - intros s Hop. specialize (H1 s Hop). unfold mbind, M_bind in H1.
    destruct (m (s, h)) as [a' st'|e st']; [|done].
    apply ret_inv in H1 as [->%Hg ->]. done.
  - intros s q Hop Hq Hfit Hadd. specialize (H2 s q Hop Hq Hfit Hadd).
    unfold mbind, M_bind in H2.
    destruct (m (s, h)) as [a' st'|e st']; [|done].
    apply ret_inv in H2 as [->%Hg ->]. done.
Qed.

Lemma pack_object_ext {A} (m m' : M A) st :
  (forall st, m_op st.1 <> UNPACK -> m st = m' st) ->
  pack_object m st = pack_object m' st.
Proof.
  intros Heq.
  pose proof (pack_object_run m st) as H. pose proof (pack_object_run m' st) as H'.
  rewrite Heq in H by done.
  destruct (m' (with_packSize 0 (with_op PACKSIZE st.1), st.2)) as [a st1|e st1].
  - rewrite H, H'. by apply Heq.
  - by rewrite H, H'.
Qed.

Lemma state_of_fmap {A B} (m : M A) (g : A -> B) st :
  state_of ((m ≫= fun x => mret (g x)) st) = state_of (m st).
Proof. unfold mbind, M_bind. by destruct (m st). Qed.

Lemma pack_object_fmap {A B} (m : M A) (g : A -> B) st :
  pack_object (m ≫= fun x => mret (g x)) st
  = (pack_object m ≫= fun x => mret (g x)) st.
Proof.
  pose proof (pack_object_run m st) as H.
  pose proof (pack_object_run (m ≫= fun x => mret (g x)) st) as H'.
  unfold mbind at 1, M_bind at 1 in H'.
  destruct (m (with_packSize 0 (with_op PACKSIZE st.1), st.2)) as [a st1|e st1];
    simpl in H'.
  - rewrite H'. unfold mbind at 2, M_bind at 2. by rewrite H.
  - rewrite H'. unfold mbind, M_bind. by rewrite H.
Qed.

Lemma pack_object_same_pass {A B} (m : M A) (m' : M B) s h :
  same_pass m m' h ->
  state_of (pack_object m (s, h)) = state_of (pack_object m' (s, h)).
Proof.
  intros Hsame.
  pose proof (pack_object_run m (s, h)) as H.
  pose proof (pack_object_run m' (s, h)) as H'.
  pose proof (Hsame (with_packSize 0 (with_op PACKSIZE s)) ltac:(done)) as H1.
  simpl in H, H'.
  destruct (m (with_packSize 0 (with_op PACKSIZE s), h)) as [a st1|e st1],
           (m' (with_packSize 0 (with_op PACKSIZE s), h)) as [a' st1'|e' st1'];
    simpl in H1; try done.
  - destruct H1 as [<- Hh]. rewrite Hh in H, H'. rewrite H, H'.
    pose proof (Hsame (with_op PACK
                         (with_buffer (resize (m_packSize st1.1) Byte.x00 (m_buffer st1.1))
                            (with_position 0 st1.1))) ltac:(done)) as H2.
    destruct (m _) as [b st2|e st2], (m' _) as [b' st2'|e' st2'];
      simpl in H2; try done.
    by destruct H2.
  - subst. by rewrite H, H'.
Qed.

Lemma Forall3_zip_with_eq {A B C} (f : A -> B -> C) (l1 : list A) (l2 : list B) l3 :
  Forall3 (fun a b c => f a b = c) l1 l2 l3 -> zip_with f l1 l2 = l3.
Proof. induction 1; simpl; by f_equal. Qed.

Section Wire.
Context (P : Packer.t) (place : value -> list value -> nat).
Context (grants : shape -> N -> bool).
Context (enc : leaf -> list byte) (encN : shape -> list value -> list byte).
Context (HP : PackerInverts P enc encN).

#[local] Abbreviation call := (operator_call P place grants).

Lemma pack_buffer T v h bs s :
  packs (call T v) v h bs -> addressable (length bs) ->
  pack P place grants T v (s, h)
  = Ok v (mkSerializer PACK (length bs) (Z.of_nat (length bs)) bs, h).
Proof. apply (pack_object_packs (call T v)). Qed.

(** X6: the encoding delimits itself: for a value whose encoding an [int]
    can address, [unpack] from a buffer that holds the bytes [pack] wrote
    for it, followed by any other bytes, returns a value observationally
    equal to it, leaves the buffer as it is, and [position()] is then the
    number of bytes [pack] wrote. *)
Theorem unpack_ignores_trailing_bytes T v st rest :
  supported T = true ->
  wf_value st.2 T v ->
  granted grants st.2 T v ->
  addressable (pass_size (operator_call P place grants T v) st.2) ->
  exists s1,
    pack P place grants T v st = Ok v (s1, st.2)
    /\ forall s2 h2,
         m_buffer s2 = m_buffer s1 ++ rest ->
         exists v' s3 h3,
           unpack P place grants T (default_value T) (s2, h2) = Ok v' (s3, h3)
           /\ obs_eq st.2 h3 T v v'
           /\ m_buffer s3 = m_buffer s1 ++ rest
           /\ position (s3, h3) = Ok (N.of_nat (length (m_buffer s1))) (s3, h3).
Proof.
  intros Hsup Hv Hg Hadd. destruct st as [s h]. simpl in *.
  destruct (call_round_trip P place grants enc encN HP h T Hsup v Hv)
    as (bs & Hpack & Hunpack).
  specialize (Hunpack Hg). rewrite (packs_pass_size _ _ _ _ Hpack) in Hadd.
  eexists. split; [by apply pack_buffer|].
  simpl. intros s2 h2 Hbuf.
  destruct (unpack_object_unpacks _ bs _ s2 h2 rest Hunpack Hadd Hbuf)
    as (v' & hn & Hrun & Hdec).
  eexists v', _, (h2 ++ hn). split; [exact Hrun|].
  split; [by apply Hdec|]. split; [done|]. by apply position_of_nat.
Qed.

(** X7: a Serializer can be used again: what [pack] leaves (the buffer, the
    byte count and the cursor) depends on the value only, not on what the
    Serializer held before, for a value whose encoding an [int] can
    address. *)
Theorem pack_forgets_earlier_use T v h s s' :
  supported T = true ->
  wf_value h T v ->
  addressable (pass_size (operator_call P place grants T v) h) ->
  pack P place grants T v (s, h) = pack P place grants T v (s', h).
Proof.
  intros Hsup Hv Hadd.
  destruct (call_round_trip P place grants enc encN HP h T Hsup v Hv) as (bs & Hpack & _).
  rewrite (packs_pass_size _ _ _ _ Hpack) in Hadd.
  by rewrite !(pack_buffer T v h bs).
Qed.

(** X8: on types compared by value (no pointer, no associative container
    and no unlisted member inside), two values with the same bytes are the
    same value, when an [int] can address the bytes and the allocator
    grants the vectors of both. *)
Theorem pack_injective T v1 v2 h s1 s2 :
  key_shape T = true ->
  wf_value h T v1 ->
  wf_value h T v2 ->
  granted grants h T v1 ->
  granted grants h T v2 ->
  addressable (pass_size (operator_call P place grants T v1) h) ->
  addressable (pass_size (operator_call P place grants T v2) h) ->
  buffer_of (pack P place grants T v1 (s1, h)) = buffer_of (pack P place grants T v2 (s2, h)) ->
  v1 = v2.
Proof.
  intros Hkey Hv1 Hv2 Hg1 Hg2 Hadd1 Hadd2.
  destruct (call_round_trip P place grants enc encN HP h T (key_shape_supported T Hkey) v1 Hv1)
    as (bs1 & Hp1 & Hu1).
  destruct (call_round_trip P place grants enc encN HP h T (key_shape_supported T Hkey) v2 Hv2)
    as (bs2 & Hp2 & Hu2).
  specialize (Hu1 Hg1). specialize (Hu2 Hg2).
  rewrite (packs_pass_size _ _ _ _ Hp1) in Hadd1.
  rewrite (packs_pass_size _ _ _ _ Hp2) in Hadd2.
  rewrite (pack_buffer T v1 h bs1), (pack_buffer T v2 h bs2) by done. simpl.
  intros <-.
  destruct (Hu1 (mkSerializer UNPACK 0 0 bs1) [] [] [])
    as (a1 & hn1 & Hrun1 & Hd1); [done|simpl; by rewrite app_nil_r|done|done|].
  destruct (Hu2 (mkSerializer UNPACK 0 0 bs1) [] [] [])
    as (a2 & hn2 & Hrun2 & Hd2); [done|simpl; by rewrite app_nil_r|done|done|].
  rewrite Hrun1 in Hrun2. injection Hrun2 as <- <-.
  rewrite (key_shape_eq h ([] ++ hn1) T Hkey v1 a1) by (by apply Hd1).
  rewrite (key_shape_eq h ([] ++ hn1) T Hkey v2 a1) by (by apply Hd2).
  done.
Qed.

Lemma codec_buffers h Ts vs bss s :
  Forall3 (fun T v bs => packs (call T v) v h bs) Ts vs bss ->
  addressable (length (concat bss)) ->
  zip_with (fun T v => buffer_of (pack P place grants T v (s, h))) Ts vs = bss.
Proof.
  induction 1 as [|T v bs Ts vs bss Hp _ IH]; intros Hadd; [done|].
  simpl in *. rewrite length_app in Hadd. f_equal.
  - rewrite (pack_buffer T v h bs); [done..|]. apply (addressable_le _ _ Hadd). lia.
  - apply IH. apply (addressable_le _ _ Hadd). lia.
Qed.

(** X9: a tuple, and a class with a [serializeOp], are written as the
    elements, and the members listed, one after the other, with nothing
    before, between or after them: the buffer [pack] leaves is the
    concatenation of the buffers [pack] leaves for each of them (all of
    fewer than [2^31] bytes together). *)
Theorem pack_concatenates_members Ts vs pod others os s h :
  forallb supported Ts = true ->
  Forall2 (wf_value h) Ts vs ->
  addressable (pass_size (operator_call P place grants (STuple Ts) (VTuple vs)) h) ->
  buffer_of (pack P place grants (STuple Ts) (VTuple vs) (s, h))
  = concat (zip_with (fun T v => buffer_of (pack P place grants T v (s, h))) Ts vs)
  /\ buffer_of (pack P place grants (SObj pod Ts others) (VObj vs os) (s, h))
     = concat (zip_with (fun T v => buffer_of (pack P place grants T v (s, h))) Ts vs).
Proof.
  intros Hsup Hvs Hadd.
  destruct (codec_Forall2 P place grants h Ts vs) as [bss Hbss]; [|done..|].
  { apply Forall_forall. intros T _ HT v Hv.
    by apply (call_round_trip P place grants enc encN HP). }
  assert (Hp : Forall3 (fun T v bs => packs (call T v) v h bs) Ts vs bss).
  { eapply Forall3_impl; [exact Hbss|]. by intros T v bs [? _]. }
  pose proof (packs_tuple_call call Ts vs h bss Hp) as Ht.
  assert (HpT : packs (call (STuple Ts) (VTuple vs)) (VTuple vs) h (concat bss)).
  { rewrite call_tuple. by apply (packs_fmap _ VTuple). }
  rewrite (packs_pass_size _ _ _ _ HpT) in Hadd.
  rewrite (codec_buffers h Ts vs bss s Hp Hadd).
  split.
  - by rewrite (pack_buffer (STuple Ts) (VTuple vs) h (concat bss)).
  - rewrite (pack_buffer (SObj pod Ts others) (VObj vs os) h (concat bss)); [done| |done].
    rewrite call_obj. by apply (packs_fmap _ (fun ms => VObj ms os)).
Qed.

Lemma vector_as_array T vs st :
  m_op st.1 <> UNPACK ->
  vector P grants call T vs st
  = (call_size P (N.of_nat (length vs)) ≫= fun _ => array P call T vs) st.
Proof.
  intros Hop. unfold vector, array.
  destruct (is_pod_v T); unfold mbind at 1, M_bind at 1, get_op;
    by destruct (m_op st.1).
Qed.

(** X10: a vector is written as its element count followed by what the
    array of its elements is written as (for every element type but [bool],
    which has a handler of its own), when an [int] can address what is
    written. *)
Theorem vector_packs_as_count_and_array T vs s h :
  T <> SLeaf TBool ->
  supported T = true ->
  wf_value h (SVector T) (VVector vs) ->
  addressable (pass_size (operator_call P place grants (SVector T) (VVector vs)) h) ->
  buffer_of (pack P place grants (SVector T) (VVector vs) (s, h))
  = buffer_of (pack P place grants (SLeaf TSize) (VLeaf (LSize (N.of_nat (length vs)))) (s, h))
    ++ buffer_of (pack P place grants (SArray (length vs) T) (VArray vs) (s, h)).
Proof.
  intros HT Hsup Hv Hadd.
  inversion Hv as [| | | | | | |T' vs' Hsz Hvs| | | |]; subst.
  destruct (call_round_trip P place grants enc encN HP h (SArray (length vs) T) Hsup (VArray vs))
    as (bsA & HpA & _); [by constructor|].
  assert (HpV : packs (call (SVector T) (VVector vs)) (VVector vs) h
                  (enc (LSize (N.of_nat (length vs))) ++ bsA)).
  { rewrite call_vector by done. apply (packs_fmap _ VVector).
    eapply packs_ext_pass; [intros st Hop; by apply vector_as_array|].
    eapply packs_bind; [apply (packs_call_size P enc encN HP)|].
    rewrite call_array in HpA. apply packs_fmap_inv in HpA; [done|by intros x y [= ->]]. }
  rewrite (packs_pass_size _ _ _ _ HpV), length_app in Hadd.
  rewrite (pack_buffer (SArray (length vs) T) (VArray vs) h bsA);
    [|done|apply (addressable_le _ _ Hadd); lia].
  rewrite (pack_buffer (SLeaf TSize) (VLeaf (LSize (N.of_nat (length vs)))) h
             (enc (LSize (N.of_nat (length vs)))));
    [|rewrite call_leaf; apply (packs_fmap _ VLeaf), (packs_leaf_call P enc encN HP)
     |apply (addressable_le _ _ Hadd); lia].
  rewrite (pack_buffer (SVector T) (VVector vs) h
             (enc (LSize (N.of_nat (length vs))) ++ bsA)); [done..|].
  by rewrite length_app.
Qed.

(** X11: [pack(v1, ..., vn)] allocates exactly the bytes it writes, and
    followed by [unpack(w1, ..., wn)] into default-constructed values it
    gives back values observationally equal to the ones packed, the whole
    buffer being read, when an [int] can address what is written and the
    allocator grants the vectors. *)
Theorem variadic_round_trip first args s h :
  forallb supported (first :: args).*1 = true ->
  Forall2 (wf_value h) (first :: args).*1 (first :: args).*2 ->
  Forall2 (granted grants h) (first :: args).*1 (first :: args).*2 ->
  addressable (pass_size (variadic_call P place grants first args) h) ->
  exists s1,
    pack_variadic P place grants first args (s, h) = Ok (first :: args).*2 (s1, h)
    /\ position (s1, h) = Ok (N.of_nat (length (m_buffer s1))) (s1, h)
    /\ length (m_buffer s1) = m_packSize s1
    /\ forall s2 h2,
         m_buffer s2 = m_buffer s1 ->
         exists vs' s3 h3,
           unpack_variadic P place grants (first.1, default_value first.1)
             ((fun a => (a.1, default_value a.1)) <$> args) (s2, h2)
           = Ok vs' (s3, h3)
           /\ Forall3 (obs_eq h h3) (first :: args).*1 (first :: args).*2 vs'
           /\ position (s3, h3) = Ok (N.of_nat (length (m_buffer s3))) (s3, h3).
Proof.
  intros Hsup Hvs Hg Hadd.
  destruct (codec_Forall2 P place grants h (first :: args).*1 (first :: args).*2)
    as [bss Hbss]; [|done..|].
  { apply Forall_forall. intros T _ HT v Hv.
    by apply (call_round_trip P place grants enc encN HP). }
  destruct (tuple_round_trip P place grants h _ _ bss Hbss) as [Hp Hu].
  specialize (Hu Hg).
  assert (Hp' : packs (variadic_call P place grants first args) (first :: args).*2 h
                  (concat bss)).
  { eapply packs_ext; [apply variadic_call_tuple_call|exact Hp]. }
  rewrite (packs_pass_size _ _ _ _ Hp') in Hadd.
  eexists. split; [|split; [|split]].
  - change (pack_variadic P place grants first args)
      with (pack_object (variadic_call P place grants first args)).
    by apply pack_object_packs.
  - by apply position_of_nat.
  - done.
  - simpl. intros s2 h2 Hbuf.
    assert (Hu' : unpacks (variadic_call P place grants (first.1, default_value first.1)
                             ((fun a => (a.1, default_value a.1)) <$> args))
                    (concat bss)
                    (fun xs base hn =>
                       forall hx, length hx = base ->
                         Forall3 (obs_eq h (hx ++ hn)) (first :: args).*1
                           (first :: args).*2 xs)).
    { eapply unpacks_ext; [|exact Hu]. intros st.
      rewrite variadic_call_tuple_call. rewrite !fmap_cons. simpl.
      rewrite <- !list_fmap_compose. done. }
    destruct (unpack_object_unpacks _ _ _ s2 h2 [] Hu' Hadd)
      as (vs' & hn & Hrun & Hdec); [by rewrite app_nil_r|].
    eexists vs', _, (h2 ++ hn). split; [exact Hrun|].
    split; [by apply Hdec|]. apply position_of_nat; simpl; [|by rewrite app_nil_r].
    by rewrite app_nil_r.
Qed.

End Wire.

(** *** Smart pointers and optionals *)

Section PtrAsOptional.
Context (P : Packer.t) (place : value -> list value -> nat).
Context (grants : shape -> N -> bool).

#[local] Abbreviation call := (operator_call P place grants).

Lemma same_pass_null T h :
  same_pass (call (SPtr T) (VPtr None)) (call (SOptional T) (VOptional None)) h.
Proof.
  intros s Hop. rewrite call_ptr, call_optional. unfold ptr, optional.
  rewrite !is_Some_None_bool.
  destruct (reads_call_bool P false (s, h)) as [Hst _]; [done|].
  pose proof (framed_call_bool P false (s, h)) as (Hop1 & _).
  unfold mbind, M_bind, get_op. simpl in *.
  destruct (m_op s) eqn:E; [| |done];
    (destruct (call_bool P false (s, h)) as [b st1|e st1]; [|done];
     simpl in *; rewrite Hop1; by unfold mret, M_ret).
Qed.

Lemma same_pass_pointee T a v h :
  h !! a = Some v ->
  same_pass (call (SPtr T) (VPtr (Some a))) (call (SOptional T) (VOptional (Some v))) h.
Proof.
  intros Ha s Hop. rewrite call_ptr, call_optional. unfold ptr, optional.
  rewrite !is_Some_Some_bool.
  destruct (reads_call_bool P true (s, h)) as [Hst _]; [done|].
  pose proof (framed_call_bool P true (s, h)) as (Hop1 & _).
  unfold mbind, M_bind, get_op, load, store. simpl in *.
  destruct (m_op s) eqn:E; [| |done];
    (destruct (call_bool P true (s, h)) as [b st1|e st1]; [|done];
     simpl in *; rewrite Hop1; unfold mret, M_ret; simpl; rewrite Hst, Ha;
     destruct (reads_call P place grants T v st1) as [Hst2 Hret];
       [by rewrite Hop1|];
     destruct (call T v st1) as [v' st2|e st2]; [|done];
     simpl in *; rewrite (Hret v' st2 eq_refl), Hst2, Hst;
     rewrite list_insert_id by done;
     destruct st2 as [s2 h2]; simpl in *; by subst).
Qed.

(** X12: a smart pointer is written by value, exactly as the [optional] of
    its pointee: the presence flag, then the pointee if there is one. *)
Theorem ptr_packs_as_optional T p s h :
  supported T = true ->
  wf_value h (SPtr T) (VPtr p) ->
  buffer_of (pack P place grants (SPtr T) (VPtr p) (s, h))
  = buffer_of (pack P place grants (SOptional T) (VOptional (p ≫= fun a => h !! a)) (s, h)).
Proof.
  intros Hsup Hp.
  assert (Hst : forall {A B} (r : result A) (r' : result B),
            state_of r = state_of r' -> buffer_of r = buffer_of r').
  { intros A B [? ?|? ?] [? ?|? ?]; simpl; by intros ->. }
  apply Hst.
  inversion Hp as [|T1'|T1' a v Ha Hv| | | | | | | | |]; subst; cbn [mbind option_bind].
  - apply (pack_object_same_pass (call (SPtr T) (VPtr None))
             (call (SOptional T) (VOptional None))), same_pass_null.
  - rewrite Ha.
    by apply (pack_object_same_pass (call (SPtr T) (VPtr (Some a)))
                (call (SOptional T) (VOptional (Some v)))), same_pass_pointee.
Qed.

End PtrAsOptional.

(** ** Handlers that write the same bytes *)

Section Compose.
Context (P : Packer.t) (place : value -> list value -> nat).
Context (grants : shape -> N -> bool).

#[local] Abbreviation call := (operator_call P place grants).

(** X13: [unpack(w1, ..., wn)] is [unpack] of the tuple [(w1, ..., wn)]: the
    same reads in the same order, with no arity looked for in the buffer. *)
Theorem variadic_unpack_as_tuple first args st :
  (unpack_variadic P place grants first args ≫= fun vs => mret (VTuple vs)) st
  = unpack P place grants (STuple (first :: args).*1) (VTuple (first :: args).*2) st.
Proof.
  unfold unpack, unpack_variadic. rewrite call_tuple. unfold tuple.
  unfold mbind, M_bind, set_op, set_position, mret, M_ret.
  by rewrite variadic_call_tuple_call.
Qed.

(** The entry of a map as the pair it is. *)
Lemma pair_call_as_tuple Key T e st :
  call (STuple [Key; T]) (VTuple [e.1; e.2]) st
  = (pair_call call Key T e ≫= fun e' => mret (VTuple [e'.1; e'.2])) st.
Proof.
  rewrite call_tuple. unfold pair_call. rewrite bind_assoc.
  apply bind_ext. intros vs st1 (k' & v' & ->)%tuple_call_two. done.
Qed.

Lemma for_each_pair_call Key T es st :
  for_each (call (STuple [Key; T])) ((fun e => VTuple [e.1; e.2]) <$> es) st
  = (for_each (pair_call call Key T) es ≫= fun es' =>
     mret ((fun e => VTuple [e.1; e.2]) <$> es')) st.
Proof.
  revert st. induction es as [|e es IH]; intros st; [done|].
  rewrite fmap_cons. cbn [for_each].
  rewrite (bind_cong _ _ _ st st (pair_call_as_tuple Key T e st)).
  rewrite !bind_assoc. apply bind_ext. intros e' st1 _.
  unfold mbind at 1, M_bind at 1. unfold mret at 1, M_ret at 1.
  unfold mbind at 1 3, M_bind. rewrite IH.
  unfold mbind, M_bind. by destruct (for_each (pair_call call Key T) es st1).
Qed.

Lemma map_as_vector Key T es st :
  m_op st.1 <> UNPACK ->
  call (SVector (STuple [Key; T])) (VVector ((fun e => VTuple [e.1; e.2]) <$> es)) st
  = (map P place call Key T es ≫= fun es' =>
     mret (VVector ((fun e => VTuple [e.1; e.2]) <$> es'))) st.
Proof.
  intros Hop. rewrite call_vector by done. unfold vector, map. simpl is_pod_v.
  rewrite length_fmap.
  assert (Hrun : forall A (f : Operation -> M A),
            (get_op ≫= f) st = f (m_op st.1) st) by done.
  rewrite bind_assoc, Hrun, bind_assoc, Hrun.
  assert (Hgoal :
            ((call_size P (N.of_nat (length es)) ≫= fun _ =>
              for_each (call (STuple [Key; T])) ((fun e => VTuple [e.1; e.2]) <$> es))
             ≫= fun vs' => mret (VVector vs')) st
            = ((call_size P (N.of_nat (length es)) ≫= fun _ =>
                for_each (pair_call call Key T) es)
               ≫= fun es' => mret (VVector ((fun e => VTuple [e.1; e.2]) <$> es'))) st).
  { rewrite !bind_assoc. apply bind_ext. intros _ st1 _.
    unfold mbind at 1, M_bind at 1. rewrite for_each_pair_call.
    unfold mbind, M_bind. by destruct (for_each (pair_call call Key T) es st1). }
  by destruct (m_op st.1).
Qed.

(** X14: a map is written exactly as the vector of its entries in iteration
    order, each entry as a pair: [pack] leaves the same Serializer (buffer,
    byte count and cursor) and free store for both, whatever the Packer. *)
Theorem map_packs_as_vector_of_pairs Key T es st :
  state_of (pack P place grants (SMap Key T) (VMap es) st)
  = state_of (pack P place grants (SVector (STuple [Key; T]))
                (VVector ((fun e => VTuple [e.1; e.2]) <$> es)) st).
Proof.
  change (pack P place grants (SMap Key T) (VMap es))
    with (pack_object (call (SMap Key T) (VMap es))).
  change (pack P place grants (SVector (STuple [Key; T]))
            (VVector ((fun e => VTuple [e.1; e.2]) <$> es)))
    with (pack_object (call (SVector (STuple [Key; T]))
                         (VVector ((fun e => VTuple [e.1; e.2]) <$> es)))).
  rewrite (pack_object_ext _ _ st (fun st' H => map_as_vector Key T es st' H)).
  rewrite call_map, !pack_object_fmap. by rewrite !state_of_fmap.
Qed.

Lemma set_as_vector Key ks st :
  is_pod_v Key = false ->
  m_op st.1 <> UNPACK ->
  call (SVector Key) (VVector ks) st
  = (set P place call Key ks ≫= fun ks' => mret (VVector ks')) st.
Proof.
  intros Hpod Hop. rewrite call_vector by (by intros ->).
  unfold vector, set. rewrite Hpod.
  assert (Hrun : forall A (f : Operation -> M A),
            (get_op ≫= f) st = f (m_op st.1) st) by done.
  rewrite bind_assoc, Hrun, bind_assoc, Hrun. by destruct (m_op st.1).
Qed.

(** X15: a set whose key type is not POD ([std::is_pod_v] is false) is
    written exactly as the vector of its keys in iteration order, whatever
    the Packer; with a POD key type the vector goes to the Packer as one
    run and the set key by key. *)
Theorem set_packs_as_vector Key ks st :
  is_pod_v Key = false ->
  state_of (pack P place grants (SSet Key) (VSet ks) st)
  = state_of (pack P place grants (SVector Key) (VVector ks) st).
Proof.
  intros Hpod.
  change (pack P place grants (SSet Key) (VSet ks))
    with (pack_object (call (SSet Key) (VSet ks))).
  change (pack P place grants (SVector Key) (VVector ks))
    with (pack_object (call (SVector Key) (VVector ks))).
  rewrite (pack_object_ext _ _ st (fun st' H => set_as_vector Key ks st' Hpod H)).
  rewrite call_set, !pack_object_fmap. by rewrite !state_of_fmap.
Qed.

End Compose.

(** ** The classes with a [serializeOp] member *)

Lemma Forall3_five_inv {A B C} (R : A -> B -> C -> Prop) a1 a2 a3 a4 a5 b1 b2 b3 b4 b5 xs :
  Forall3 R [a1; a2; a3; a4; a5] [b1; b2; b3; b4; b5] xs ->
  exists c1 c2 c3 c4 c5,
    xs = [c1; c2; c3; c4; c5]
    /\ R a1 b1 c1 /\ R a2 b2 c2 /\ R a3 b3 c3 /\ R a4 b4 c4 /\ R a5 b5 c5.
Proof.
  intros H. inversion H as [|? ? c1 ? ? xs1 H1 H']; subst.
  inversion H' as [|? ? c2 ? ? xs2 H2 H'']; subst.
  inversion H'' as [|? ? c3 ? ? xs3 H3 H''']; subst.
  apply Forall3_two_inv in H''' as (c4 & c5 & -> & H4 & H5).
  by exists c1, c2, c3, c4, c5.
Qed.

Section Hooks.
Context (P : Packer.t) (place : value -> list value -> nat).
Context (grants : shape -> N -> bool).
Context (enc : leaf -> list byte) (encN : shape -> list value -> list byte).
Context (HP : PackerInverts P enc encN).

#[local] Abbreviation call := (operator_call P place grants).

Ltac run_calls :=
  repeat match goal with
         | |- context [operator_call P place grants ?T ?v ?s] =>
             destruct (operator_call P place grants T v s) as [? ?|? ?]; try done
         end.

(** *** AquiferConfig *)

Lemma AquiferConfig_as_tuple Aquifetp AquiferCT AquiferFlux NumericalAquifers Aquancon
    c st :
  AquiferConfig.serializeOp Aquifetp AquiferCT AquiferFlux NumericalAquifers Aquancon
    call c st
  = (tuple_call call [Aquifetp; AquiferCT; Aquancon; AquiferFlux; NumericalAquifers]
       [ AquiferConfig.aquifetp c; AquiferConfig.aquiferct c; AquiferConfig.aqconn c;
         AquiferConfig.aquiferflux c; AquiferConfig.numerical_aquifers c ]
     ≫= fun vs =>
     match vs with
     | [fetp; ct; conn; flux; num] => mret (AquiferConfig.mk fetp ct flux num conn)
     | _ => throw Undefined
     end) st.
Proof.
  unfold AquiferConfig.serializeOp. cbn [tuple_call].
  unfold mbind, M_bind, mret, M_ret. run_calls.
Qed.


(** *** EclDefaultMaterialParams *)

Lemma EclDefaultMaterialParams_as_tuple {Scalar} GasOilParams OilWaterParams
    (p : EclDefaultMaterialParams.t Scalar) st :
  EclDefaultMaterialParams.serializeOp GasOilParams OilWaterParams call p st
  = (tuple_call call [GasOilParams; OilWaterParams]
       [EclDefaultMaterialParams.gasOilParams_ p;
        EclDefaultMaterialParams.oilWaterParams_ p]
     ≫= fun vs =>
     match vs with
     | [gasOil; oilWater] =>
         mret (EclDefaultMaterialParams.mk gasOil oilWater
                 (EclDefaultMaterialParams.Swl_ p))
     | _ => throw Undefined
     end) st.
Proof.
  unfold EclDefaultMaterialParams.serializeOp. cbn [tuple_call].
  unfold mbind, M_bind, mret, M_ret. run_calls.
Qed.

(** X17: an [EclDefaultMaterialParams] carries its two parameter objects
    through the round trip and nothing else: the bytes do not depend on
    [Swl_], and after [unpack] the destination holds parameter objects equal
    to the ones packed and the [Swl_] it had before, when an [int] can
    address the encoding and the allocator grants the vectors. *)
Theorem EclDefaultMaterialParams_round_trip {Scalar} GasOilParams OilWaterParams
    (p : EclDefaultMaterialParams.t Scalar) s h :
  supported GasOilParams = true -> supported OilWaterParams = true ->
  wf_value h GasOilParams (EclDefaultMaterialParams.gasOilParams_ p) ->
  wf_value h OilWaterParams (EclDefaultMaterialParams.oilWaterParams_ p) ->
  granted grants h GasOilParams (EclDefaultMaterialParams.gasOilParams_ p) ->
  granted grants h OilWaterParams (EclDefaultMaterialParams.oilWaterParams_ p) ->
  addressable
    (pass_size
       (EclDefaultMaterialParams.serializeOp GasOilParams OilWaterParams call p) h) ->
  exists s1,
    pack_object
      (EclDefaultMaterialParams.serializeOp GasOilParams OilWaterParams call p) (s, h)
    = Ok p (s1, h)
    /\ (forall val : Scalar,
          pack_object
            (EclDefaultMaterialParams.serializeOp GasOilParams OilWaterParams call
               (EclDefaultMaterialParams.setSwl val p)) (s, h)
          = Ok (EclDefaultMaterialParams.setSwl val p) (s1, h))
    /\ forall s2 h2 (val : Scalar),
         m_buffer s2 = m_buffer s1 ->
         exists q s3 h3,
           unpack_object
             (EclDefaultMaterialParams.serializeOp GasOilParams OilWaterParams call
                (EclDefaultMaterialParams.mk (default_value GasOilParams)
                   (default_value OilWaterParams) val)) (s2, h2)
           = Ok q (s3, h3)
           /\ obs_eq h h3 GasOilParams (EclDefaultMaterialParams.gasOilParams_ p)
                (EclDefaultMaterialParams.gasOilParams_ q)
           /\ obs_eq h h3 OilWaterParams (EclDefaultMaterialParams.oilWaterParams_ p)
                (EclDefaultMaterialParams.oilWaterParams_ q)
           /\ EclDefaultMaterialParams.Swl_ q = val
           /\ position (s3, h3) = Ok (N.of_nat (length (m_buffer s3))) (s3, h3).
Proof.
  intros S1 S2 W1 W2 G1 G2 Hadd. destruct p as [gasOil oilWater swl].
  simpl in W1, W2, G1, G2.
  destruct (call_round_trip P place grants enc encN HP h _ S1 _ W1) as (bs1 & C1).
  destruct (call_round_trip P place grants enc encN HP h _ S2 _ W2) as (bs2 & C2).
  destruct (tuple_round_trip P place grants h [GasOilParams; OilWaterParams]
              [gasOil; oilWater] [bs1; bs2]) as [Hp Hu].
  { repeat (apply Forall3_cons; [done|]). apply Forall3_nil. }
  specialize (Hu ltac:(repeat (apply Forall2_cons; split; [done|]); apply Forall2_nil_2)).
  assert (Hpack : forall val : Scalar,
            packs (EclDefaultMaterialParams.serializeOp GasOilParams OilWaterParams call
                     (EclDefaultMaterialParams.mk gasOil oilWater val))
              (EclDefaultMaterialParams.mk gasOil oilWater val) h
              (concat [bs1; bs2])).
  { intros val. eapply packs_ext; [apply EclDefaultMaterialParams_as_tuple|].
    rewrite <- (app_nil_r (concat _)).
    eapply packs_bind with (a := [gasOil; oilWater]); [exact Hp|apply packs_ret]. }
  rewrite (packs_pass_size _ _ _ _ (Hpack swl)) in Hadd.
  eexists. split; [|split].
  - by apply pack_object_packs.
  - intros val. apply pack_object_packs; [apply Hpack|done].
  - simpl. intros s2 h2 val Hbuf.
    edestruct (unpack_object_unpacks
                 (EclDefaultMaterialParams.serializeOp GasOilParams OilWaterParams call
                    (EclDefaultMaterialParams.mk (default_value GasOilParams)
                       (default_value OilWaterParams) val))
                 (concat [bs1; bs2])
                 (fun q base hn =>
                    forall hx, length hx = base ->
                      obs_eq h (hx ++ hn) GasOilParams gasOil
                        (EclDefaultMaterialParams.gasOilParams_ q)
                      /\ obs_eq h (hx ++ hn) OilWaterParams oilWater
                           (EclDefaultMaterialParams.oilWaterParams_ q)
                      /\ EclDefaultMaterialParams.Swl_ q = val)
                 s2 h2 []) as (q & hn & Hrun & Hdec).
    + eapply unpacks_ext; [apply EclDefaultMaterialParams_as_tuple|].
      eapply unpacks_bind_ret; [exact Hu|].
      simpl. intros xs base hn Hxs.
      destruct (Forall3_two_inv _ _ _ _ _ _
                  (Hxs (replicate base (VTuple [])) (length_replicate _ _)))
        as (x1 & x2 & -> & _).
      exists (EclDefaultMaterialParams.mk x1 x2 val). split; [done|].
      intros hx Hlen.
      destruct (Forall3_two_inv _ _ _ _ _ _ (Hxs hx Hlen))
        as (y1 & y2 & [= <- <-] & ? & ?).
      by repeat split.
    + exact Hadd.
    + by rewrite app_nil_r.
    + eexists q, _, (h2 ++ hn). split; [exact Hrun|].
      destruct (Hdec h2 eq_refl) as (? & ? & ?).
      do 3 (split; [done|]).
      apply position_of_nat; cbn [m_position m_buffer]; by rewrite app_nil_r.
Qed.

End Hooks.

(** *** EclStone1MaterialParams *)

Section Stone1.
Context (P : Packer.t) (place : value -> list value -> nat).
Context (grants : shape -> N -> bool).
Context (enc : leaf -> list byte) (encN : shape -> list value -> list byte).
Context (HP : PackerInverts P enc encN).
Context {Scalar : Type} (GasOilParams OilWaterParams : shape).

#[local] Abbreviation call := (operator_call P place grants).
#[local] Abbreviation serializeOp :=
  (EclStone1MaterialParams.serializeOp (Scalar := Scalar) GasOilParams OilWaterParams
     call).

Lemma packs_through T a v h bs :
  h !! a = Some v ->
  packs (call T v) v h bs ->
  packs (EclStone1MaterialParams.through call T a) () h bs.
Proof.
  intros Ha Hp. unfold EclStone1MaterialParams.through.
  eapply (packs_bind _ _ _ _ _ []); [by apply packs_load|].
  rewrite <- (app_nil_r bs). eapply packs_bind; [exact Hp|by apply packs_store].
Qed.

Lemma unpack_through T a bs Q s pre post h2 :
  unpacks (call T (default_value T)) bs Q ->
  m_op s = UNPACK -> m_buffer s = pre ++ bs ++ post ->
  m_position s = Z.of_nat (length pre) ->
  addressable (length pre + length bs) ->
  h2 !! a = Some (default_value T) ->
  exists v' hn,
    EclStone1MaterialParams.through call T a (s, h2)
    = Ok () (with_position (Z.of_nat (length pre + length bs)) s, <[a := v']> h2 ++ hn)
    /\ Q v' (length h2) hn.
Proof.
  intros Hu Hop Hbuf Hpos Hadd Ha.
  destruct (Hu s pre post h2 Hop Hbuf Hpos Hadd) as (v' & hn & Hrun & HQ).
  exists v', hn. split; [|done].
  unfold EclStone1MaterialParams.through.
  rewrite (bind_Ok _ _ _ (default_value T) (s, h2)).
  2:{ unfold load. simpl. by rewrite Ha. }
  rewrite (bind_Ok _ _ _ _ _ Hrun). unfold store. simpl.
  rewrite insert_app_l; [done|]. by eapply lookup_lt_Some.
Qed.

(** X18: an [EclStone1MaterialParams] that owns its two parameter objects
    is carried through the round trip in place: [pack] writes the two
    pointees and no presence flags; [unpack] into an object that owns two
    distinct default-constructed parameter objects reads them back into
    those same objects, which then equal the ones packed, and reads the
    whole buffer (when an [int] can address the encoding and the allocator
    grants the vectors). *)
Theorem EclStone1MaterialParams_round_trip
    (self : EclStone1MaterialParams.t Scalar) a b va vb s h :
  supported GasOilParams = true -> supported OilWaterParams = true ->
  EclStone1MaterialParams.gasOilParams_ self = Some a ->
  EclStone1MaterialParams.oilWaterParams_ self = Some b ->
  h !! a = Some va -> h !! b = Some vb ->
  wf_value h GasOilParams va -> wf_value h OilWaterParams vb ->
  granted grants h GasOilParams va -> granted grants h OilWaterParams vb ->
  exists hook,
    EclStone1MaterialParams.serializeOp GasOilParams OilWaterParams
      (operator_call P place grants) self = Some hook
    /\ (addressable (pass_size hook h) ->
        exists s1,
          pack_object hook (s, h) = Ok self (s1, h)
          /\ buffer_of (pack P place grants GasOilParams va (s, h))
             ++ buffer_of (pack P place grants OilWaterParams vb (s, h)) = m_buffer s1
          /\ forall (dest : EclStone1MaterialParams.t Scalar) a' b' s2 h2,
               m_buffer s2 = m_buffer s1 ->
               EclStone1MaterialParams.gasOilParams_ dest = Some a' ->
               EclStone1MaterialParams.oilWaterParams_ dest = Some b' ->
               a' <> b' ->
               h2 !! a' = Some (default_value GasOilParams) ->
               h2 !! b' = Some (default_value OilWaterParams) ->
               exists hook' s3 h3 va' vb',
                 EclStone1MaterialParams.serializeOp GasOilParams OilWaterParams
                   (operator_call P place grants) dest = Some hook'
                 /\ unpack_object hook' (s2, h2) = Ok dest (s3, h3)
                 /\ h3 !! a' = Some va' /\ h3 !! b' = Some vb'
                 /\ obs_eq h h3 GasOilParams va va'
                 /\ obs_eq h h3 OilWaterParams vb vb'
                 /\ position (s3, h3) = Ok (N.of_nat (length (m_buffer s3))) (s3, h3)).
Proof.
  intros S1 S2 Hga Hob Ha Hb W1 W2 G1 G2.
  destruct (call_round_trip P place grants enc encN HP h _ S1 _ W1) as (bs1 & Hp1 & Hu1).
  destruct (call_round_trip P place grants enc encN HP h _ S2 _ W2) as (bs2 & Hp2 & Hu2).
  specialize (Hu1 G1). specialize (Hu2 G2).
  unfold EclStone1MaterialParams.serializeOp at 1. rewrite Hga, Hob.
  eexists. split; [done|].
  match goal with |- addressable (pass_size ?m h) -> _ => set (hook := m) end.
  assert (Hpack : packs hook self h (bs1 ++ bs2)).
  { eapply packs_bind; [by eapply packs_through|].
    rewrite <- (app_nil_r bs2).
    eapply packs_bind; [by eapply packs_through|apply packs_ret]. }
  rewrite (packs_pass_size _ _ _ _ Hpack). intros Hadd.
  assert (Hadd1 : addressable (length bs1))
    by (apply (addressable_le _ _ Hadd); rewrite length_app; lia).
  assert (Hadd2 : addressable (length bs2))
    by (apply (addressable_le _ _ Hadd); rewrite length_app; lia).
  eexists. split; [by apply pack_object_packs|]. split.
  { rewrite (pack_object_packs (call GasOilParams va) va h bs1 s Hp1 Hadd1
             : pack _ _ _ _ _ _ = _).
    by rewrite (pack_object_packs (call OilWaterParams vb) vb h bs2 s Hp2 Hadd2
                : pack _ _ _ _ _ _ = _). }
  simpl. intros dest a' b' s2 h2 Hbuf Hga' Hob' Hne Ha' Hb'.
  unfold EclStone1MaterialParams.serializeOp. rewrite Hga', Hob'.
  eexists. 
  destruct (unpack_through GasOilParams a' bs1 _ (with_op UNPACK (with_position 0 s2))
              [] bs2 h2 Hu1) as (va' & hn1 & Hrun1 & Hd1); [done|done|done|done|done|].
  destruct (unpack_through OilWaterParams b' bs2 _
              (with_position (Z.of_nat (length (@nil byte) + length bs1))
                 (with_op UNPACK (with_position 0 s2)))
              bs1 [] (<[a' := va']> h2 ++ hn1) Hu2)
    as (vb' & hn2 & Hrun2 & Hd2);
    [done|simpl; by rewrite Hbuf, app_nil_r|done|by rewrite <- length_app| |].
  { rewrite lookup_app_l by (rewrite length_insert; by eapply lookup_lt_Some).
    by rewrite list_lookup_insert_ne. }
  eexists _, _, va', vb'. split; [done|]. split.
  { rewrite unpack_object_run. simpl.
    rewrite (bind_Ok _ _ _ _ _ Hrun1). by rewrite (bind_Ok _ _ _ _ _ Hrun2). }
  assert (Hla : a' < length h2) by (by eapply lookup_lt_Some).
  assert (Hlb : b' < length h2) by (by eapply lookup_lt_Some).
  split; [|split; [|split; [|split]]].
  - rewrite lookup_app_l by (rewrite length_insert, length_app, length_insert; lia).
    rewrite list_lookup_insert_ne by done.
    rewrite lookup_app_l by (rewrite length_insert; lia).
    by rewrite list_lookup_insert_eq.
  - rewrite lookup_app_l by (rewrite length_insert, length_app, length_insert; lia).
    rewrite list_lookup_insert_eq; [done|]. rewrite length_app, length_insert. lia.
  - rewrite insert_app_l by (rewrite length_insert; lia).
    rewrite <- (assoc_L (++)). rewrite (assoc_L (++) _ hn1 hn2).
    apply obs_eq_app. apply Hd1. by rewrite !length_insert.
  - apply Hd2. by rewrite length_insert.
  - apply position_of_nat; simpl.
    + rewrite Hbuf, length_app. done.
    + by rewrite Hbuf.
Qed.

End Stone1.

(** ** Destinations that are overwritten *)

Lemma agree_bind {A B} (m m0 : M A) (f f0 : A -> M B) st :
  agree (m st) (m0 st) ->
  (forall a st1, m0 st = Ok a st1 -> agree (f a st1) (f0 a st1)) ->
  agree ((m ≫= f) st) ((m0 ≫= f0) st).
Proof.
  intros [[st' H0]|Heq] Hf.
  - left. exists st'. by apply bind_Err.
  - unfold mbind, M_bind. rewrite Heq.
    destruct (m0 st) as [a st1|e st1]; [by apply Hf|by right].
Qed.

Lemma agree_fmap {A B} (m m0 : M A) (g : A -> B) st :
  agree (m st) (m0 st) ->
  agree ((m ≫= fun x => mret (g x)) st) ((m0 ≫= fun x => mret (g x)) st).
Proof. intros H. apply agree_bind; [done|]. intros a st1 _. by right. Qed.

Lemma for_each_agree (f : value -> M value) l1 l2 :
  (forall v, framed (f v)) ->
  Forall2 (fun v1 v2 => forall st, m_op st.1 = UNPACK -> agree (f v1 st) (f v2 st))
    l1 l2 ->
  forall st, m_op st.1 = UNPACK -> agree (for_each f l1 st) (for_each f l2 st).
Proof.
  intros Hfr. induction 1 as [|v1 v2 l1 l2 Hv _ IH]; intros st Hop; [by right|].
  cbn [for_each]. apply agree_bind; [by apply Hv|].
  intros v' st1 Hrun.
  pose proof (Hfr v2 st) as (Hop1 & _). rewrite Hrun in Hop1. simpl in Hop1.
  apply agree_fmap, IH. by rewrite Hop1.
Qed.

Lemma tuple_call_agree self Ts l1 l2 :
  (forall T v, framed (self T v)) ->
  Forall3 (fun T v1 v2 =>
             forall st, m_op st.1 = UNPACK -> agree (self T v1 st) (self T v2 st))
    Ts l1 l2 ->
  forall st, m_op st.1 = UNPACK ->
    agree (tuple_call self Ts l1 st) (tuple_call self Ts l2 st).
Proof.
  intros Hfr. induction 1 as [|T v1 v2 Ts l1 l2 Hv _ IH]; intros st Hop; [by right|].
  cbn [tuple_call]. apply agree_bind; [by apply Hv|].
  intros v' st1 Hrun.
  pose proof (Hfr T v2 st) as (Hop1 & _). rewrite Hrun in Hop1. simpl in Hop1.
  apply agree_fmap, IH. by rewrite Hop1.
Qed.

Section Overwrites.
Context (P : Packer.t) (place : value -> list value -> nat).
Context (grants : shape -> N -> bool).

#[local] Abbreviation call := (operator_call P place grants).

Lemma block_call_unpack_eq T d1 d2 st :
  length d1 = length d2 -> m_op st.1 = UNPACK ->
  block_call P T d1 st = block_call P T d2 st.
Proof. intros Hlen Hop. unfold block_call. by rewrite Hop, Hlen. Qed.

(** A vector in use asks for memory only where an empty one does. *)
Lemma vector_resize_agree T size d st :
  (exists st', vector_resize grants T size [] st = Err BadAlloc st')
  \/ (vector_resize grants T size d st
        = Ok (resize (N.to_nat size) (default_value T) d) st
      /\ vector_resize grants T size [] st
         = Ok (resize (N.to_nat size) (default_value T) []) st).
Proof.
  unfold vector_resize. change (N.of_nat (length (@nil value))) with 0%N.
  destruct (grants T size); [rewrite !orb_true_r; by right|rewrite !orb_false_r].
  destruct (N.leb_spec size 0) as [H0|H0].
  - right. assert (size = 0%N) as -> by lia.
    by destruct (N.leb_spec 0 (N.of_nat (length d))); [|lia].
  - left. by eexists.
Qed.

Lemma vector_bool_reserve_agree size d st :
  agree (vector_bool_reserve grants size d st) (vector_bool_reserve grants size [] st).
Proof.
  unfold vector_bool_reserve. change (N.of_nat (length (@nil value))) with 0%N.
  destruct (grants (SLeaf TBool) size); [rewrite !orb_true_r; by right|rewrite !orb_false_r].
  destruct (N.leb_spec size 0) as [H0|H0].
  - right. assert (size = 0%N) as -> by lia.
    by destruct (N.leb_spec 0 (N.of_nat (length d))); [|lia].
  - left. by eexists.
Qed.

Lemma call_overwrites h T :
  overwrites T = true ->
  forall d, wf_value h T d ->
  forall st, m_op st.1 = UNPACK -> agree (call T d st) (call T (default_value T) st).
Proof.
  induction T as [t|T1 IH|Ts IH|Ts IH|T IH|T IH|Key T IHK IHT|N T IH|Key IH
                 |pod members others IH IHo]
    using shape_nested_ind; intros Hover d Hd st Hop; simpl in Hover; try discriminate;
    inversion Hd as [t' x Ht Hx|T1'|T1' a v0 Ha Hv0|Ts' vs Hvs|Ts' i T' v0 Hi Hsz Hv0
                    |T'|T' v0 Hv0|T' vs Hsz Hvs|Key' T' es Hsz Hnd Hes
                    |N' T' vs Hlen Hvs|Key' ks Hsz Hnd Hks|pod' ms' os' ms os Hms Hos];
    subst.
  - (* leaf *)
    right.
    change (default_value (SLeaf (type_of x))) with (VLeaf (leaf_default (type_of x))).
    rewrite !call_leaf. apply bind_cong. by apply leaf_call_unpack.
  - (* tuple *)
    change (default_value (STuple Ts)) with (VTuple (default_value <$> Ts)).
    rewrite !call_tuple. apply agree_fmap. unfold tuple.
    apply tuple_call_agree; [intros; apply framed_call| |done].
    apply forallb_Forall_true in Hover. clear -IH Hover Hvs.
    induction Hvs as [|T v Ts vs Hv _ IHvs]; [constructor|].
    apply Forall_cons in IH as [IHT IH]. apply Forall_cons in Hover as [HT Hover].
    rewrite fmap_cons. constructor; [by apply IHT|by apply IHvs].
  - (* variant *)
    right. rewrite !call_variant. unfold variant, mbind, M_bind, get_op. by rewrite Hop.
  - (* vector *)
    change (default_value (SVector T)) with (VVector []).
    assert (Hrun : forall A (f : Operation -> M A),
              (get_op ≫= f) st = f UNPACK st).
    { intros A f. unfold mbind, M_bind, get_op. by rewrite Hop. }
    assert (T = SLeaf TBool \/ T <> SLeaf TBool) as [->|HT]
      by (destruct T as [[]| | | | | | | | |]; (by left) || (by right)).
    + rewrite !call_vector_bool. apply agree_fmap.
      unfold vector_bool. rewrite !Hrun.
      apply agree_bind; [by right|]. intros size st1 _.
      apply agree_bind; [apply vector_bool_reserve_agree|].
      intros data_mut st2 [-> ->]%vector_bool_reserve_inv. by right.
    + rewrite !call_vector by done. apply agree_fmap. unfold vector.
      destruct (is_pod_v T); rewrite !Hrun;
        (apply agree_bind; [by right|]); intros size st1 [Hop1 _]%call_size_op;
        (destruct (vector_resize_agree T size vs st1) as [[st' H0]|[Hd0 H0]];
         [left; exists st'; by apply bind_Err|]);
        rewrite (bind_Ok _ _ _ _ _ Hd0), (bind_Ok _ _ _ _ _ H0).
      * right. apply block_call_unpack_eq; [by rewrite !length_resize|by rewrite Hop1].
      * apply for_each_agree; [intros; apply framed_call| |by rewrite Hop1].
        rewrite resize_nil. apply Forall2_same_length_lookup_2.
        { by rewrite length_resize, length_replicate. }
        intros j v1 v2 H1 [-> _]%lookup_replicate st3 Hop3.
        rewrite resize_spec in H1. apply lookup_app_Some in H1 as [H1|[_ H1]].
        -- apply lookup_take_Some in H1 as [H1 _].
           apply (IH Hover); [|done].
           eapply (proj1 (Forall_lookup _ _) Hvs); eauto.
        -- apply lookup_replicate in H1 as [-> _]. by right.
  - (* array *)
    change (default_value (SArray (length vs) T))
      with (VArray (replicate (length vs) (default_value T))).
    rewrite !call_array. apply agree_fmap. unfold array.
    destruct (is_pod_v T).
    + right. apply block_call_unpack_eq; [by rewrite length_replicate|done].
    + apply for_each_agree; [intros; apply framed_call| |done].
      apply Forall2_same_length_lookup_2; [by rewrite length_replicate|].
      intros j v1 v2 H1 [-> _]%lookup_replicate st2 Hop2.
      apply (IH Hover); [|done]. eapply (proj1 (Forall_lookup _ _) Hvs); eauto.
  - (* self-describing composite *)
    apply andb_true_iff in Hover as [Hover ->%bool_decide_eq_true].
    apply Forall2_nil_inv_l in Hos as ->.
    change (default_value (SObj pod members []))
      with (VObj (default_value <$> members) []).
    rewrite !call_obj. apply agree_fmap.
    apply tuple_call_agree; [intros; apply framed_call| |done].
    apply forallb_Forall_true in Hover. clear -IH Hover Hms.
    induction Hms as [|T v Ts vs Hv _ IHvs]; [constructor|].
    apply Forall_cons in IH as [IHT IH]. apply Forall_cons in Hover as [HT Hover].
    rewrite fmap_cons. constructor; [by apply IHT|by apply IHvs].
Qed.

(** X19: on a type with no [optional], smart pointer, map or set and no
    class with members left out of [serializeOp] outside a [variant], what
    [unpack] does is the same whatever the destination held: it may be
    unpacked into an object already in use as into a default-constructed
    one, which can only differ by running out of memory where the object in
    use has its own. *)
Theorem unpack_overwrites T d st :
  overwrites T = true ->
  wf_value st.2 T d ->
  (exists st', unpack P place grants T (default_value T) st = Err BadAlloc st')
  \/ unpack P place grants T d st = unpack P place grants T (default_value T) st.
Proof.
  intros Hover Hd.
  change (unpack P place grants T d) with (unpack_object (call T d)).
  change (unpack P place grants T (default_value T))
    with (unpack_object (call T (default_value T))).
  rewrite !unpack_object_run. by apply (call_overwrites st.2).
Qed.

End Overwrites.

(** ** The laws at the sample data *)

Section Samples.
#[local] Abbreviation P := MemPacker.packer.
#[local] Abbreviation place := MemPacker.place_last.
#[local] Abbreviation grants := MemPacker.grants.

Ltac wf_sample :=
  repeat first
    [ split
    | reflexivity
    | lia
    | apply NoDup_nil_2
    | apply NoDup_cons_2; [by (intros ?%list_elem_of_In; simpl in *; intuition discriminate)|]
    | econstructor ].

Lemma all_value_wf : wf_value Sample.all_store Sample.all_shape Sample.all_value.
Proof.
  unfold Sample.all_store, Sample.all_shape, Sample.all_value, Sample.union3,
    Sample.vint, Sample.vbool, Sample.vstr, size_ok.
  wf_sample.
Qed.

(** The end-to-end example: [(2, ["A", "BB"])] is laid out as the count, the
    length of the sequence, and each string as its length and characters;
    unpacking the buffer gives the pair back. *)
Example names_layout :
  pack P place grants Sample.names_shape Sample.names (Sample.fresh [], [])
  = Ok Sample.names
      (mkSerializer PACK 35 35
         (MemPacker.le_bytes 8 2 ++ MemPacker.le_bytes 8 2
          ++ MemPacker.le_bytes 8 1 ++ [Byte.x41]
          ++ MemPacker.le_bytes 8 2 ++ [Byte.x42; Byte.x42]), []).
Proof. reflexivity. Qed.

Example names_back :
  unpack P place grants Sample.names_shape (default_value Sample.names_shape)
    (Sample.fresh
       (MemPacker.le_bytes 8 2 ++ MemPacker.le_bytes 8 2
        ++ MemPacker.le_bytes 8 1 ++ [Byte.x41]
        ++ MemPacker.le_bytes 8 2 ++ [Byte.x42; Byte.x42]), [])
  = Ok Sample.names
      (Sample.reading 35
         (MemPacker.le_bytes 8 2 ++ MemPacker.le_bytes 8 2
          ++ MemPacker.le_bytes 8 1 ++ [Byte.x41]
          ++ MemPacker.le_bytes 8 2 ++ [Byte.x42; Byte.x42]), []).
Proof. reflexivity. Qed.

(** A map that already holds [(1, true)] keeps it when the stream carries
    [(1, false)] and [(2, false)]: the new key is added, the old entry wins. *)
Example map_merge :
  unpack P place grants (SMap (SLeaf TInt) (SLeaf TBool))
    (VMap [(Sample.vint 1, Sample.vbool true)]) (Sample.fresh Sample.two_keys, [])
  = Ok (VMap [(Sample.vint 1, Sample.vbool true); (Sample.vint 2, Sample.vbool false)])
      (Sample.reading 18 Sample.two_keys, []).
Proof. reflexivity. Qed.

Ltac granted_sample :=
  repeat first [ reflexivity | (intros _; reflexivity) | split | econstructor ].

Lemma all_value_granted :
  granted grants Sample.all_store Sample.all_shape Sample.all_value.
Proof.
  unfold Sample.all_store, Sample.all_shape, Sample.all_value, Sample.union3,
    Sample.vint, Sample.vbool, Sample.vstr, Sample.cell_shape, Sample.cell.
  granted_sample.
Qed.

Lemma all_value_addressable :
  addressable (pass_size (operator_call P place grants Sample.all_shape Sample.all_value)
                 Sample.all_store).
Proof. unfold addressable. vm_compute. reflexivity. Qed.




(** A string of [2^31] characters is packed into [2^31 + 8] bytes, which the
    [int] cursor does not hold. *)
Lemma pack_string_wraps (chars : list byte) s :
  Z.of_nat (length chars) = (2 ^ 31)%Z ->
  exists s',
    pack P place grants (SLeaf TString) (VLeaf (LString chars)) (s, [])
    = Ok (VLeaf (LString chars)) (s', [])
    /\ Z.of_nat (length (m_buffer s')) = (2 ^ 31 + 8)%Z
    /\ Z.of_nat (m_packSize s') = (2 ^ 31 + 8)%Z
    /\ m_position s' = (8 - 2 ^ 31)%Z.
Proof.
  intros Hlen.
  set (x := LString chars). set (n := length (MemPacker.enc x)).
  assert (Hn : Z.of_nat n = (2 ^ 31 + 8)%Z).
  { unfold n, x. cbn [MemPacker.enc].
    rewrite length_app, MemPacker_length_le_bytes. lia. }
  set (b := resize n Byte.x00 (m_buffer s)).
  exists (mkSerializer PACK n (int_wrap (Z.of_nat n)) (splice b 0 (MemPacker.enc x))).
  assert (Hb : length b = n) by apply length_resize.
  split; [|split; [|split]].
  - unfold pack.
    rewrite (bind_Ok _ _ (s, []) () (with_op PACKSIZE s, [])) by done.
    rewrite (bind_Ok _ _ _ () (with_packSize 0 (with_op PACKSIZE s), [])) by done.
    rewrite (bind_Ok _ _ _ (VLeaf x)
               (with_packSize n (with_packSize 0 (with_op PACKSIZE s)), [])) by done.
    rewrite (bind_Ok _ _ _ ()
               (with_position 0
                  (with_packSize n (with_packSize 0 (with_op PACKSIZE s))), [])) by done.
    rewrite (bind_Ok _ _ _ () (mkSerializer PACKSIZE n 0 b, [])) by done.
    rewrite (bind_Ok _ _ _ () (mkSerializer PACK n 0 b, [])) by done.
    rewrite call_leaf. unfold leaf_call, mbind, M_bind, mret, M_ret.
    cbn [fst snd m_op m_buffer m_position Packer.pack MemPacker.packer].
    change 0%Z with (Z.of_nat 0).
    rewrite MemPacker_write by (fold x; fold n; lia).
    done.
  - cbn [m_buffer]. rewrite length_splice by (fold n; lia). lia.
  - done.
  - cbn [m_position]. rewrite Hn. reflexivity.
Qed.


Lemma variant_unpack_invalid_index_witness :
  m_op (Sample.reading 0 Sample.bad_index) = UNPACK
  /\ Sample.union3 <> []
  /\ call_size P 0 (Sample.reading 0 Sample.bad_index, [])
     = Ok 99%N (Sample.reading 8 Sample.bad_index, [])
  /\ (N.of_nat (length Sample.union3) <= 99)%N
  /\ operator_call P place grants (SVariant Sample.union3)
       (default_value (SVariant Sample.union3)) (Sample.reading 0 Sample.bad_index, [])
     = Err InvalidVariantIndex (Sample.reading 8 Sample.bad_index, []).
Proof.
  assert (H1 : m_op (Sample.reading 0 Sample.bad_index, @nil value).1 = UNPACK)
    by reflexivity.
  assert (H2 : Sample.union3 <> []) by discriminate.
  assert (H3 : call_size P 0 (Sample.reading 0 Sample.bad_index, [])
               = Ok 99%N (Sample.reading 8 Sample.bad_index, [])) by reflexivity.
  assert (H4 : (N.of_nat (length Sample.union3) <= 99)%N) by (vm_compute; discriminate).
  split; [exact H1|]. split; [exact H2|]. split; [exact H3|]. split; [exact H4|].
  exact (variant_unpack_invalid_index P place grants Sample.union3
           (default_value (SVariant Sample.union3)) _ _ _ H1 H2 H3 H4).
Defined.

Lemma optional_unpack_by_flag_witness :
  m_op (Sample.reading 0 Sample.absent) = UNPACK
  /\ call_bool P false (Sample.reading 0 Sample.absent, [])
     = Ok false (Sample.reading 1 Sample.absent, [])
  /\ operator_call P place grants (SOptional (SLeaf TInt)) (VOptional (Some (Sample.vint 5)))
       (Sample.reading 0 Sample.absent, [])
     = Ok (VOptional (Some (Sample.vint 5))) (Sample.reading 1 Sample.absent, []).
Proof.
  assert (H1 : m_op (Sample.reading 0 Sample.absent, @nil value).1 = UNPACK)
    by reflexivity.
  assert (H2 : call_bool P false (Sample.reading 0 Sample.absent, [])
               = Ok false (Sample.reading 1 Sample.absent, [])) by reflexivity.
  split; [exact H1|]. split; [exact H2|].
  exact (optional_unpack_by_flag P place grants (SLeaf TInt) (Some (Sample.vint 5)) _ _ _ H1 H2).
Defined.

Lemma ptr_unpack_flag_false_witness :
  m_op (Sample.reading 0 Sample.absent) = UNPACK
  /\ call_bool P false (Sample.reading 0 Sample.absent, [Sample.vint 7])
     = Ok false (Sample.reading 1 Sample.absent, [Sample.vint 7])
  /\ forall v st2,
       operator_call P place grants (SPtr (SLeaf TInt)) (VPtr (Some 0))
         (Sample.reading 0 Sample.absent, [Sample.vint 7]) = Ok v st2 ->
       v = VPtr (Some 0).
Proof.
  assert (H1 : m_op (Sample.reading 0 Sample.absent, [Sample.vint 7]).1 = UNPACK)
    by reflexivity.
  assert (H2 : call_bool P false (Sample.reading 0 Sample.absent, [Sample.vint 7])
               = Ok false (Sample.reading 1 Sample.absent, [Sample.vint 7]))
    by reflexivity.
  split; [exact H1|]. split; [exact H2|].
  exact (ptr_unpack_flag_false P place grants (SLeaf TInt) (Some 0) _ _ H1 H2).
Defined.

Lemma assoc_unpack_collapses_duplicates_witness :
  m_op (Sample.reading 0 Sample.twice_key) = UNPACK
  /\ call_size P 0 (Sample.reading 0 Sample.twice_key, [])
     = Ok 2%N (Sample.reading 8 Sample.twice_key, [])
  /\ read_n (pair_call (operator_call P place grants) (SLeaf TInt) (SLeaf TBool)
               (default_value (SLeaf TInt), default_value (SLeaf TBool)))
       (N.to_nat 2) (Sample.reading 8 Sample.twice_key, [])
     = Ok [(Sample.vint 1, Sample.vbool true); (Sample.vint 1, Sample.vbool false)]
         (Sample.reading 18 Sample.twice_key, [])
  /\ operator_call P place grants (SMap (SLeaf TInt) (SLeaf TBool)) (VMap [])
       (Sample.reading 0 Sample.twice_key, [])
     = Ok (VMap [(Sample.vint 1, Sample.vbool true)])
         (Sample.reading 18 Sample.twice_key, [])
  /\ length (entries_with_key (Sample.vint 1) [(Sample.vint 1, Sample.vbool true)]) = 1.
Proof.
  assert (H1 : m_op (Sample.reading 0 Sample.twice_key, @nil value).1 = UNPACK)
    by reflexivity.
  assert (H2 : call_size P 0 (Sample.reading 0 Sample.twice_key, [])
               = Ok 2%N (Sample.reading 8 Sample.twice_key, [])) by reflexivity.
  assert (H3 : read_n (pair_call (operator_call P place grants) (SLeaf TInt) (SLeaf TBool)
                         (default_value (SLeaf TInt), default_value (SLeaf TBool)))
                 (N.to_nat 2) (Sample.reading 8 Sample.twice_key, [])
               = Ok [(Sample.vint 1, Sample.vbool true);
                     (Sample.vint 1, Sample.vbool false)]
                   (Sample.reading 18 Sample.twice_key, [])) by reflexivity.
  split; [exact H1|]. split; [exact H2|]. split; [exact H3|].
  destruct (proj1 (assoc_unpack_collapses_duplicates P place grants (SLeaf TInt) _ _ _ H1 H2)
              (SLeaf TBool) [] _ _ (NoDup_nil_2 : NoDup ([] : list (value * value)).*1) H3)
    as (res & Hrun & Hres & _ & Hone).
  subst res. split; [exact Hrun|].
  apply (Hone (Sample.vint 1, Sample.vbool true)). by left.
Defined.

(** Alternative 2 of the three-alternative union, holding 7: the bytes of
    an index 2 and of a 7. *)
Lemma variant_tag_fidelity_witness :
  Sample.union3 !! 2 = Some (SLeaf TSize)
  /\ m_op (mkSerializer PACK 16 0 (replicate 16 Byte.x00)) = PACK
  /\ m_op (Sample.reading 0 (MemPacker.le_bytes 8 2 ++ MemPacker.le_bytes 8 7)) = UNPACK
  /\ Packer.unpack P TSize (MemPacker.le_bytes 8 2 ++ MemPacker.le_bytes 8 7) 0
     = Some (LSize (N.of_nat 2), 8%Z)
  /\ operator_call P place grants (SVariant Sample.union3) (VVariant 2 (VLeaf (LSize 7)))
       (mkSerializer PACK 16 0 (replicate 16 Byte.x00), [])
     = Ok (VVariant 2 (VLeaf (LSize 7)))
         (mkSerializer PACK 16 16 (MemPacker.le_bytes 8 2 ++ MemPacker.le_bytes 8 7), [])
  /\ operator_call P place grants (SVariant Sample.union3) (VVariant 0 (Sample.vint 5))
       (Sample.reading 0 (MemPacker.le_bytes 8 2 ++ MemPacker.le_bytes 8 7), [])
     = Ok (VVariant 2 (VLeaf (LSize 7)))
         (Sample.reading 16 (MemPacker.le_bytes 8 2 ++ MemPacker.le_bytes 8 7), [])
  /\ forall w st',
       operator_call P place grants (SVariant Sample.union3) (VVariant 0 (Sample.vint 5))
         (Sample.reading 0 (MemPacker.le_bytes 8 2 ++ MemPacker.le_bytes 8 7), [])
       = Ok w st' ->
       exists v', w = VVariant 2 v'.
Proof.
  assert (H1 : Sample.union3 !! 2 = Some (SLeaf TSize)) by reflexivity.
  assert (H2 : m_op (mkSerializer PACK 16 0 (replicate 16 Byte.x00)) = PACK)
    by reflexivity.
  assert (H3 : m_op (Sample.reading 0 (MemPacker.le_bytes 8 2 ++ MemPacker.le_bytes 8 7))
               = UNPACK) by reflexivity.
  assert (H4 : Packer.unpack P TSize
                 (m_buffer (Sample.reading 0
                              (MemPacker.le_bytes 8 2 ++ MemPacker.le_bytes 8 7)))
                 (m_position (Sample.reading 0
                                (MemPacker.le_bytes 8 2 ++ MemPacker.le_bytes 8 7)))
               = Some (LSize (N.of_nat 2), 8%Z)) by reflexivity.
  destruct (variant_tag_fidelity P place grants Sample.union3 2 (SLeaf TSize)
              (VLeaf (LSize 7)) (VVariant 0 (Sample.vint 5)) _ _ [] _ H1 H2 H3 H4)
    as (_ & Hpack & Hunpack & Hindex).
  split; [exact H1|]. split; [exact H2|]. split; [exact H3|]. split; [exact H4|].
  split; [rewrite Hpack; reflexivity|]. split; [rewrite Hunpack; reflexivity|].
  exact Hindex.
Defined.

Lemma assoc_unpack_keeps_destination_witness :
  m_op (Sample.reading 0 Sample.two_keys) = UNPACK
  /\ operator_call P place grants (SMap (SLeaf TInt) (SLeaf TBool))
       (VMap [(Sample.vint 1, Sample.vbool true)]) (Sample.reading 0 Sample.two_keys, [])
     = Ok (VMap [(Sample.vint 1, Sample.vbool true); (Sample.vint 2, Sample.vbool false)])
         (Sample.reading 18 Sample.two_keys, [])
  /\ exists size st1 es res,
       call_size P 0 (Sample.reading 0 Sample.two_keys, []) = Ok size st1
       /\ read_n (pair_call (operator_call P place grants) (SLeaf TInt) (SLeaf TBool)
                    (default_value (SLeaf TInt), default_value (SLeaf TBool)))
            (N.to_nat size) st1 = Ok es (Sample.reading 18 Sample.two_keys, [])
       /\ VMap [(Sample.vint 1, Sample.vbool true); (Sample.vint 2, Sample.vbool false)]
          = VMap res
       /\ (forall e, e ∈ [(Sample.vint 1, Sample.vbool true)] -> e ∈ res)
       /\ (forall es1 e es2, es = es1 ++ e :: es2 ->
              e.1 ∉ [(Sample.vint 1, Sample.vbool true)].*1 -> e.1 ∉ es1.*1 -> e ∈ res).
Proof.
  assert (H1 : m_op (Sample.reading 0 Sample.two_keys, @nil value).1 = UNPACK)
    by reflexivity.
  assert (H2 : operator_call P place grants (SMap (SLeaf TInt) (SLeaf TBool))
                 (VMap [(Sample.vint 1, Sample.vbool true)])
                 (Sample.reading 0 Sample.two_keys, [])
               = Ok (VMap [(Sample.vint 1, Sample.vbool true);
                           (Sample.vint 2, Sample.vbool false)])
                   (Sample.reading 18 Sample.two_keys, [])) by reflexivity.
  split; [exact H1|]. split; [exact H2|].
  exact (proj1 (assoc_unpack_keeps_destination P place grants _ H1) _ _ _ _ _ H2).
Defined.

Lemma ptr_unpack_flag_true_witness :
  m_op (Sample.reading 0 Sample.present) = UNPACK
  /\ call_bool P false (Sample.reading 0 Sample.present, [Sample.vint 7])
     = Ok true (Sample.reading 1 Sample.present, [Sample.vint 7])
  /\ [Sample.vint 7] !! 1 = None
  /\ operator_call P place grants (SPtr (SLeaf TInt)) (VPtr (Some 0))
       (Sample.reading 0 Sample.present, [Sample.vint 7])
     = Ok (VPtr (Some 1)) (Sample.reading 5 Sample.present, [Sample.vint 7; Sample.vint 9]).
Proof.
  assert (H1 : m_op (Sample.reading 0 Sample.present, [Sample.vint 7]).1 = UNPACK)
    by reflexivity.
  assert (H2 : call_bool P false (Sample.reading 0 Sample.present, [Sample.vint 7])
               = Ok true (Sample.reading 1 Sample.present, [Sample.vint 7]))
    by reflexivity.
  split; [exact H1|]. split; [exact H2|].
  exact (ptr_unpack_flag_true P place grants (SLeaf TInt) (Some 0) _ _ H1 H2).
Defined.

(** C4, as the spec has it, fails: the stream says "no value" and the
    destination held 5; after [unpack] it still holds 5 and is not empty. *)
Lemma optional_keeps_prior_value :
  unpack P place grants (SOptional (SLeaf TInt)) (VOptional (Some (Sample.vint 5)))
    (Sample.fresh [Byte.x00], [])
  = Ok (VOptional (Some (Sample.vint 5))) (Sample.reading 1 [Byte.x00], [])
  /\ VOptional (Some (Sample.vint 5)) <> VOptional None.
Proof. split; [reflexivity|discriminate]. Qed.

(** C5, as the spec has it, fails: the stream says "null" and the
    destination owned the object at address 0; after [unpack] it still owns
    it and is not null. *)
Lemma ptr_keeps_prior_pointee :
  unpack P place grants (SPtr (SLeaf TInt)) (VPtr (Some 0))
    (Sample.fresh Sample.absent, [Sample.vint 7])
  = Ok (VPtr (Some 0)) (Sample.reading 5 Sample.absent, [Sample.vint 9])
  /\ VPtr (Some 0) <> VPtr None.
Proof. split; [reflexivity|discriminate]. Qed.

(** *** More of the code at the sample data *)

Lemma names_wf : wf_value [] Sample.names_shape Sample.names.
Proof.
  unfold Sample.names_shape, Sample.names, Sample.vstr, size_ok. wf_sample.
Qed.

Lemma unpack_never_shares_witness :
  m_op (Sample.reading 0 (Sample.present ++ Sample.present)) = UNPACK
  /\ operator_call P place grants (STuple [SPtr (SLeaf TInt); SPtr (SLeaf TInt)])
       (VTuple [VPtr None; VPtr None])
       (Sample.reading 0 (Sample.present ++ Sample.present), [])
     = Ok (VTuple [VPtr (Some 0); VPtr (Some 1)])
         (Sample.reading 10 (Sample.present ++ Sample.present),
          [Sample.vint 9; Sample.vint 9])
  /\ 0 <> 1
  /\ ([] : list value) !! 0 = None /\ ([] : list value) !! 1 = None
  /\ is_Some ([Sample.vint 9; Sample.vint 9] !! 0)
  /\ is_Some ([Sample.vint 9; Sample.vint 9] !! 1).
Proof.
  assert (H1 : m_op (Sample.reading 0 (Sample.present ++ Sample.present),
                     @nil value).1 = UNPACK) by reflexivity.
  assert (H2 : operator_call P place grants (STuple [SPtr (SLeaf TInt); SPtr (SLeaf TInt)])
                 (VTuple [VPtr None; VPtr None])
                 (Sample.reading 0 (Sample.present ++ Sample.present), [])
               = Ok (VTuple [VPtr (Some 0); VPtr (Some 1)])
                   (Sample.reading 10 (Sample.present ++ Sample.present),
                    [Sample.vint 9; Sample.vint 9])) by reflexivity.
  split; [exact H1|]. split; [exact H2|].
  exact (unpack_never_shares P place grants (SLeaf TInt) (SLeaf TInt) _ 0 1 _ H1 H2).
Defined.

Lemma unpack_ignores_trailing_bytes_witness :
  PackerInverts P MemPacker.enc MemPacker.encN
  /\ supported Sample.all_shape = true
  /\ wf_value Sample.all_store Sample.all_shape Sample.all_value
  /\ granted grants Sample.all_store Sample.all_shape Sample.all_value
  /\ addressable (pass_size (operator_call P place grants Sample.all_shape Sample.all_value)
                    Sample.all_store)
  /\ exists s1,
       pack P place grants Sample.all_shape Sample.all_value (Sample.fresh [], Sample.all_store)
       = Ok Sample.all_value (s1, Sample.all_store)
       /\ forall s2 h2,
            m_buffer s2 = m_buffer s1 ++ Sample.absent ->
            exists v' s3 h3,
              unpack P place grants Sample.all_shape (default_value Sample.all_shape) (s2, h2)
              = Ok v' (s3, h3)
              /\ obs_eq Sample.all_store h3 Sample.all_shape Sample.all_value v'
              /\ m_buffer s3 = m_buffer s1 ++ Sample.absent
              /\ position (s3, h3) = Ok (N.of_nat (length (m_buffer s1))) (s3, h3).
Proof.
  split; [exact MemPacker_inverts|]. split; [reflexivity|].
  split; [exact all_value_wf|]. split; [exact all_value_granted|].
  split; [exact all_value_addressable|].
  exact (unpack_ignores_trailing_bytes P place grants MemPacker.enc MemPacker.encN
           MemPacker_inverts Sample.all_shape Sample.all_value
           (Sample.fresh [], Sample.all_store) Sample.absent eq_refl all_value_wf
           all_value_granted all_value_addressable).
Defined.

Lemma pack_forgets_earlier_use_witness :
  PackerInverts P MemPacker.enc MemPacker.encN
  /\ supported Sample.all_shape = true
  /\ wf_value Sample.all_store Sample.all_shape Sample.all_value
  /\ addressable (pass_size (operator_call P place grants Sample.all_shape Sample.all_value)
                    Sample.all_store)
  /\ pack P place grants Sample.all_shape Sample.all_value (Sample.fresh [], Sample.all_store)
     = pack P place grants Sample.all_shape Sample.all_value
         (Sample.reading 8 Sample.bad_index, Sample.all_store).
Proof.
  split; [exact MemPacker_inverts|]. split; [reflexivity|].
  split; [exact all_value_wf|]. split; [exact all_value_addressable|].
  exact (pack_forgets_earlier_use P place grants MemPacker.enc MemPacker.encN
           MemPacker_inverts Sample.all_shape Sample.all_value Sample.all_store
           (Sample.fresh []) (Sample.reading 8 Sample.bad_index) eq_refl all_value_wf
           all_value_addressable).
Defined.

Lemma names_granted : granted grants [] Sample.names_shape Sample.names.
Proof. unfold Sample.names_shape, Sample.names, Sample.vstr. granted_sample. Qed.

Lemma names_addressable :
  addressable (pass_size (operator_call P place grants Sample.names_shape Sample.names) []).
Proof. unfold addressable. vm_compute. reflexivity. Qed.

Lemma pack_injective_witness :
  PackerInverts P MemPacker.enc MemPacker.encN
  /\ key_shape Sample.names_shape = true
  /\ wf_value [] Sample.names_shape Sample.names
  /\ granted grants [] Sample.names_shape Sample.names
  /\ addressable (pass_size (operator_call P place grants Sample.names_shape Sample.names) [])
  /\ buffer_of (pack P place grants Sample.names_shape Sample.names (Sample.fresh [], []))
     = buffer_of (pack P place grants Sample.names_shape Sample.names
                    (Sample.reading 8 Sample.bad_index, []))
  /\ Sample.names = Sample.names.
Proof.
  assert (H : buffer_of (pack P place grants Sample.names_shape Sample.names
                           (Sample.fresh [], []))
              = buffer_of (pack P place grants Sample.names_shape Sample.names
                             (Sample.reading 8 Sample.bad_index, []))) by reflexivity.
  split; [exact MemPacker_inverts|]. split; [reflexivity|].
  split; [exact names_wf|]. split; [exact names_granted|].
  split; [exact names_addressable|]. split; [exact H|].
  exact (pack_injective P place grants MemPacker.enc MemPacker.encN MemPacker_inverts
           Sample.names_shape Sample.names Sample.names [] _ _ eq_refl names_wf names_wf
           names_granted names_granted names_addressable names_addressable H).
Defined.

Lemma names_members_wf :
  Forall2 (wf_value []) [SLeaf TSize; SVector (SLeaf TString)]
    [VLeaf (LSize 2); VVector [Sample.vstr [Byte.x41]; Sample.vstr [Byte.x42; Byte.x42]]].
Proof. unfold Sample.vstr, size_ok. wf_sample. Qed.

Lemma names_members_granted :
  Forall2 (granted grants []) [SLeaf TSize; SVector (SLeaf TString)]
    [VLeaf (LSize 2); VVector [Sample.vstr [Byte.x41]; Sample.vstr [Byte.x42; Byte.x42]]].
Proof. unfold Sample.vstr. granted_sample. Qed.

Lemma pack_concatenates_members_witness :
  PackerInverts P MemPacker.enc MemPacker.encN
  /\ forallb supported [SLeaf TSize; SVector (SLeaf TString)] = true
  /\ Forall2 (wf_value []) [SLeaf TSize; SVector (SLeaf TString)]
       [VLeaf (LSize 2);
        VVector [Sample.vstr [Byte.x41]; Sample.vstr [Byte.x42; Byte.x42]]]
  /\ addressable (pass_size (operator_call P place grants Sample.names_shape Sample.names) [])
  /\ buffer_of (pack P place grants Sample.names_shape Sample.names (Sample.fresh [], []))
     = buffer_of (pack P place grants (SLeaf TSize) (VLeaf (LSize 2)) (Sample.fresh [], []))
       ++ buffer_of (pack P place grants (SVector (SLeaf TString))
                       (VVector [Sample.vstr [Byte.x41];
                                 Sample.vstr [Byte.x42; Byte.x42]])
                       (Sample.fresh [], []))
       ++ [].
Proof.
  split; [exact MemPacker_inverts|]. split; [reflexivity|].
  split; [exact names_members_wf|]. split; [exact names_addressable|].
  exact (proj1 (pack_concatenates_members P place grants MemPacker.enc MemPacker.encN
                  MemPacker_inverts [SLeaf TSize; SVector (SLeaf TString)]
                  [VLeaf (LSize 2);
                   VVector [Sample.vstr [Byte.x41]; Sample.vstr [Byte.x42; Byte.x42]]]
                  false [] [] (Sample.fresh []) [] eq_refl names_members_wf
                  names_addressable)).
Defined.

Lemma strings_wf :
  wf_value [] (SVector (SLeaf TString))
    (VVector [Sample.vstr [Byte.x41]; Sample.vstr [Byte.x42; Byte.x42]]).
Proof. unfold Sample.vstr, size_ok. wf_sample. Qed.

Lemma strings_addressable :
  addressable
    (pass_size (operator_call P place grants (SVector (SLeaf TString))
                  (VVector [Sample.vstr [Byte.x41]; Sample.vstr [Byte.x42; Byte.x42]])) []).
Proof. unfold addressable. vm_compute. reflexivity. Qed.

Lemma vector_packs_as_count_and_array_witness :
  PackerInverts P MemPacker.enc MemPacker.encN
  /\ SLeaf TString <> SLeaf TBool
  /\ supported (SLeaf TString) = true
  /\ wf_value [] (SVector (SLeaf TString))
       (VVector [Sample.vstr [Byte.x41]; Sample.vstr [Byte.x42; Byte.x42]])
  /\ addressable
       (pass_size (operator_call P place grants (SVector (SLeaf TString))
                     (VVector [Sample.vstr [Byte.x41]; Sample.vstr [Byte.x42; Byte.x42]]))
          [])
  /\ buffer_of (pack P place grants (SVector (SLeaf TString))
                  (VVector [Sample.vstr [Byte.x41]; Sample.vstr [Byte.x42; Byte.x42]])
                  (Sample.fresh [], []))
     = buffer_of (pack P place grants (SLeaf TSize) (VLeaf (LSize 2)) (Sample.fresh [], []))
       ++ buffer_of (pack P place grants (SArray 2 (SLeaf TString))
                       (VArray [Sample.vstr [Byte.x41];
                                Sample.vstr [Byte.x42; Byte.x42]])
                       (Sample.fresh [], [])).
Proof.
  assert (H : SLeaf TString <> SLeaf TBool) by discriminate.
  split; [exact MemPacker_inverts|]. split; [exact H|]. split; [reflexivity|].
  split; [exact strings_wf|]. split; [exact strings_addressable|].
  exact (vector_packs_as_count_and_array P place grants MemPacker.enc MemPacker.encN
           MemPacker_inverts (SLeaf TString)
           [Sample.vstr [Byte.x41]; Sample.vstr [Byte.x42; Byte.x42]]
           (Sample.fresh []) [] H eq_refl strings_wf strings_addressable).
Defined.

Lemma names_variadic_addressable :
  addressable
    (pass_size
       (variadic_call P place grants (SLeaf TSize, VLeaf (LSize 2))
          [(SVector (SLeaf TString),
            VVector [Sample.vstr [Byte.x41]; Sample.vstr [Byte.x42; Byte.x42]])]) []).
Proof. unfold addressable. vm_compute. reflexivity. Qed.

Lemma variadic_round_trip_witness :
  PackerInverts P MemPacker.enc MemPacker.encN
  /\ forallb supported [SLeaf TSize; SVector (SLeaf TString)] = true
  /\ Forall2 (wf_value []) [SLeaf TSize; SVector (SLeaf TString)]
       [VLeaf (LSize 2);
        VVector [Sample.vstr [Byte.x41]; Sample.vstr [Byte.x42; Byte.x42]]]
  /\ Forall2 (granted grants []) [SLeaf TSize; SVector (SLeaf TString)]
       [VLeaf (LSize 2);
        VVector [Sample.vstr [Byte.x41]; Sample.vstr [Byte.x42; Byte.x42]]]
  /\ addressable
       (pass_size
          (variadic_call P place grants (SLeaf TSize, VLeaf (LSize 2))
             [(SVector (SLeaf TString),
               VVector [Sample.vstr [Byte.x41]; Sample.vstr [Byte.x42; Byte.x42]])]) [])
  /\ exists s1,
       pack_variadic P place grants (SLeaf TSize, VLeaf (LSize 2))
         [(SVector (SLeaf TString),
           VVector [Sample.vstr [Byte.x41]; Sample.vstr [Byte.x42; Byte.x42]])]
         (Sample.fresh [], [])
       = Ok [VLeaf (LSize 2);
             VVector [Sample.vstr [Byte.x41]; Sample.vstr [Byte.x42; Byte.x42]]]
           (s1, [])
       /\ position (s1, []) = Ok (N.of_nat (length (m_buffer s1))) (s1, [])
       /\ length (m_buffer s1) = m_packSize s1
       /\ forall s2 h2,
            m_buffer s2 = m_buffer s1 ->
            exists vs' s3 h3,
              unpack_variadic P place grants (SLeaf TSize, default_value (SLeaf TSize))
                [(SVector (SLeaf TString), default_value (SVector (SLeaf TString)))]
                (s2, h2)
              = Ok vs' (s3, h3)
              /\ Forall3 (obs_eq [] h3) [SLeaf TSize; SVector (SLeaf TString)]
                   [VLeaf (LSize 2);
                    VVector [Sample.vstr [Byte.x41]; Sample.vstr [Byte.x42; Byte.x42]]]
                   vs'
              /\ position (s3, h3) = Ok (N.of_nat (length (m_buffer s3))) (s3, h3).
Proof.
  split; [exact MemPacker_inverts|]. split; [reflexivity|].
  split; [exact names_members_wf|]. split; [exact names_members_granted|].
  split; [exact names_variadic_addressable|].
  exact (variadic_round_trip P place grants MemPacker.enc MemPacker.encN MemPacker_inverts
           (SLeaf TSize, VLeaf (LSize 2))
           [(SVector (SLeaf TString),
             VVector [Sample.vstr [Byte.x41]; Sample.vstr [Byte.x42; Byte.x42]])]
           (Sample.fresh []) [] eq_refl names_members_wf names_members_granted
           names_variadic_addressable).
Defined.

Lemma set_packs_as_vector_witness :
  is_pod_v (SLeaf TString) = false
  /\ state_of (pack P place grants (SSet (SLeaf TString))
                 (VSet [Sample.vstr [Byte.x61]; Sample.vstr []]) (Sample.fresh [], []))
     = state_of (pack P place grants (SVector (SLeaf TString))
                   (VVector [Sample.vstr [Byte.x61]; Sample.vstr []])
                   (Sample.fresh [], [])).
Proof.
  split; [reflexivity|].
  exact (set_packs_as_vector P place grants (SLeaf TString)
           [Sample.vstr [Byte.x61]; Sample.vstr []] (Sample.fresh [], []) eq_refl).
Defined.

(** The bytes of [(2, ["A", "BB"])], read into a pair in use that holds a
    longer sequence of other strings. *)
Lemma unpack_overwrites_witness :
  overwrites Sample.names_shape = true
  /\ wf_value [] Sample.names_shape
       (VTuple [VLeaf (LSize 9);
                VVector [Sample.vstr [Byte.x5a]; Sample.vstr []; Sample.vstr [Byte.x51]]])
  /\ ((exists st',
         unpack P place grants Sample.names_shape (default_value Sample.names_shape)
           (Sample.fresh
              (buffer_of (pack P place grants Sample.names_shape Sample.names
                            (Sample.fresh [], []))), [])
         = Err BadAlloc st')
      \/ unpack P place grants Sample.names_shape
           (VTuple [VLeaf (LSize 9);
                    VVector [Sample.vstr [Byte.x5a]; Sample.vstr [];
                             Sample.vstr [Byte.x51]]])
           (Sample.fresh
              (buffer_of (pack P place grants Sample.names_shape Sample.names
                            (Sample.fresh [], []))), [])
         = unpack P place grants Sample.names_shape (default_value Sample.names_shape)
             (Sample.fresh
                (buffer_of (pack P place grants Sample.names_shape Sample.names
                              (Sample.fresh [], []))), []))
  /\ unpack P place grants Sample.names_shape (default_value Sample.names_shape)
       (Sample.fresh
          (buffer_of (pack P place grants Sample.names_shape Sample.names
                        (Sample.fresh [], []))), [])
     = Ok Sample.names
         (Sample.reading 35
            (buffer_of (pack P place grants Sample.names_shape Sample.names
                          (Sample.fresh [], []))), []).
Proof.
  assert (Hwf : wf_value [] Sample.names_shape
                  (VTuple [VLeaf (LSize 9);
                           VVector [Sample.vstr [Byte.x5a]; Sample.vstr [];
                                    Sample.vstr [Byte.x51]]])).
  { unfold Sample.names_shape, Sample.vstr, size_ok. wf_sample. }
  split; [reflexivity|]. split; [exact Hwf|]. split; [|reflexivity].
  exact (unpack_overwrites P place grants Sample.names_shape _
           (Sample.fresh
              (buffer_of (pack P place grants Sample.names_shape Sample.names
                            (Sample.fresh [], []))), []) eq_refl Hwf).
Defined.

Lemma aquifers_wf :
  wf_value [] SampleObjects.Aquifetp (AquiferConfig.aquifetp SampleObjects.aquifers)
  /\ wf_value [] SampleObjects.AquiferCT (AquiferConfig.aquiferct SampleObjects.aquifers)
  /\ wf_value [] SampleObjects.AquiferFlux
       (AquiferConfig.aquiferflux SampleObjects.aquifers)
  /\ wf_value [] SampleObjects.NumericalAquifers
       (AquiferConfig.numerical_aquifers SampleObjects.aquifers)
  /\ wf_value [] SampleObjects.Aquancon (AquiferConfig.aqconn SampleObjects.aquifers).
Proof.
  unfold SampleObjects.Aquifetp, SampleObjects.AquiferCT, SampleObjects.AquiferFlux,
    SampleObjects.NumericalAquifers, SampleObjects.Aquancon, SampleObjects.aquifers,
    Sample.vint, Sample.vbool, Sample.vstr, size_ok.
  simpl. wf_sample.
Qed.

Lemma aquifers_granted :
  granted grants [] SampleObjects.Aquifetp (AquiferConfig.aquifetp SampleObjects.aquifers)
  /\ granted grants [] SampleObjects.AquiferCT
       (AquiferConfig.aquiferct SampleObjects.aquifers)
  /\ granted grants [] SampleObjects.AquiferFlux
       (AquiferConfig.aquiferflux SampleObjects.aquifers)
  /\ granted grants [] SampleObjects.NumericalAquifers
       (AquiferConfig.numerical_aquifers SampleObjects.aquifers)
  /\ granted grants [] SampleObjects.Aquancon
       (AquiferConfig.aqconn SampleObjects.aquifers).
Proof.
  unfold SampleObjects.Aquifetp, SampleObjects.AquiferCT, SampleObjects.AquiferFlux,
    SampleObjects.NumericalAquifers, SampleObjects.Aquancon, SampleObjects.aquifers,
    Sample.vint, Sample.vbool, Sample.vstr.
  simpl. granted_sample.
Qed.

Lemma aquifers_addressable :
  addressable
    (pass_size
       (AquiferConfig.serializeOp SampleObjects.Aquifetp SampleObjects.AquiferCT
          SampleObjects.AquiferFlux SampleObjects.NumericalAquifers
          SampleObjects.Aquancon (operator_call P place grants) SampleObjects.aquifers) []).
Proof. unfold addressable. vm_compute. reflexivity. Qed.


Lemma two_phase_wf h :
  wf_value h SampleObjects.TwoPhaseParams SampleObjects.gasOil
  /\ wf_value h SampleObjects.TwoPhaseParams SampleObjects.oilWater.
Proof.
  unfold SampleObjects.TwoPhaseParams, SampleObjects.gasOil, SampleObjects.oilWater,
    Sample.vint, Sample.vbool.
  wf_sample.
Qed.

Lemma two_phase_granted h :
  granted grants h SampleObjects.TwoPhaseParams SampleObjects.gasOil
  /\ granted grants h SampleObjects.TwoPhaseParams SampleObjects.oilWater.
Proof.
  unfold SampleObjects.TwoPhaseParams, SampleObjects.gasOil, SampleObjects.oilWater,
    Sample.vint, Sample.vbool.
  granted_sample.
Qed.

Lemma default_params_addressable :
  addressable
    (pass_size
       (EclDefaultMaterialParams.serializeOp SampleObjects.TwoPhaseParams
          SampleObjects.TwoPhaseParams (operator_call P place grants)
          SampleObjects.default_params) []).
Proof. unfold addressable. vm_compute. reflexivity. Qed.

Lemma EclDefaultMaterialParams_round_trip_witness :
  PackerInverts P MemPacker.enc MemPacker.encN
  /\ supported SampleObjects.TwoPhaseParams = true
  /\ wf_value [] SampleObjects.TwoPhaseParams
       (EclDefaultMaterialParams.gasOilParams_ SampleObjects.default_params)
  /\ wf_value [] SampleObjects.TwoPhaseParams
       (EclDefaultMaterialParams.oilWaterParams_ SampleObjects.default_params)
  /\ granted grants [] SampleObjects.TwoPhaseParams
       (EclDefaultMaterialParams.gasOilParams_ SampleObjects.default_params)
  /\ granted grants [] SampleObjects.TwoPhaseParams
       (EclDefaultMaterialParams.oilWaterParams_ SampleObjects.default_params)
  /\ addressable
       (pass_size
          (EclDefaultMaterialParams.serializeOp SampleObjects.TwoPhaseParams
             SampleObjects.TwoPhaseParams (operator_call P place grants)
             SampleObjects.default_params) [])
  /\ exists s1,
       pack_object
         (EclDefaultMaterialParams.serializeOp SampleObjects.TwoPhaseParams
            SampleObjects.TwoPhaseParams (operator_call P place grants)
            SampleObjects.default_params) (Sample.fresh [], [])
       = Ok SampleObjects.default_params (s1, [])
       /\ (forall val : Z,
             pack_object
               (EclDefaultMaterialParams.serializeOp SampleObjects.TwoPhaseParams
                  SampleObjects.TwoPhaseParams (operator_call P place grants)
                  (EclDefaultMaterialParams.setSwl val SampleObjects.default_params))
               (Sample.fresh [], [])
             = Ok (EclDefaultMaterialParams.setSwl val SampleObjects.default_params)
                 (s1, []))
       /\ forall s2 h2 (val : Z),
            m_buffer s2 = m_buffer s1 ->
            exists q s3 h3,
              unpack_object
                (EclDefaultMaterialParams.serializeOp SampleObjects.TwoPhaseParams
                   SampleObjects.TwoPhaseParams (operator_call P place grants)
                   (EclDefaultMaterialParams.mk
                      (default_value SampleObjects.TwoPhaseParams)
                      (default_value SampleObjects.TwoPhaseParams) val)) (s2, h2)
              = Ok q (s3, h3)
              /\ obs_eq [] h3 SampleObjects.TwoPhaseParams
                   (EclDefaultMaterialParams.gasOilParams_ SampleObjects.default_params)
                   (EclDefaultMaterialParams.gasOilParams_ q)
              /\ obs_eq [] h3 SampleObjects.TwoPhaseParams
                   (EclDefaultMaterialParams.oilWaterParams_ SampleObjects.default_params)
                   (EclDefaultMaterialParams.oilWaterParams_ q)
              /\ EclDefaultMaterialParams.Swl_ q = val
              /\ position (s3, h3) = Ok (N.of_nat (length (m_buffer s3))) (s3, h3).
Proof.
  split; [exact MemPacker_inverts|]. split; [reflexivity|].
  split; [exact (proj1 (two_phase_wf []))|]. split; [exact (proj2 (two_phase_wf []))|].
  split; [exact (proj1 (two_phase_granted []))|].
  split; [exact (proj2 (two_phase_granted []))|].
  split; [exact default_params_addressable|].
  exact (EclDefaultMaterialParams_round_trip P place grants MemPacker.enc MemPacker.encN
           MemPacker_inverts SampleObjects.TwoPhaseParams SampleObjects.TwoPhaseParams
           SampleObjects.default_params (Sample.fresh []) [] eq_refl eq_refl
           (proj1 (two_phase_wf [])) (proj2 (two_phase_wf []))
           (proj1 (two_phase_granted [])) (proj2 (two_phase_granted []))
           default_params_addressable).
Defined.

Lemma EclStone1MaterialParams_round_trip_witness :
  PackerInverts P MemPacker.enc MemPacker.encN
  /\ supported SampleObjects.TwoPhaseParams = true
  /\ EclStone1MaterialParams.gasOilParams_ SampleObjects.stone1_params = Some 0
  /\ EclStone1MaterialParams.oilWaterParams_ SampleObjects.stone1_params = Some 1
  /\ SampleObjects.stone1_store !! 0 = Some SampleObjects.gasOil
  /\ SampleObjects.stone1_store !! 1 = Some SampleObjects.oilWater
  /\ wf_value SampleObjects.stone1_store SampleObjects.TwoPhaseParams SampleObjects.gasOil
  /\ wf_value SampleObjects.stone1_store SampleObjects.TwoPhaseParams
       SampleObjects.oilWater
  /\ granted grants SampleObjects.stone1_store SampleObjects.TwoPhaseParams
       SampleObjects.gasOil
  /\ granted grants SampleObjects.stone1_store SampleObjects.TwoPhaseParams
       SampleObjects.oilWater
  /\ EclStone1MaterialParams.gasOilParams_ SampleObjects.stone1_fresh = Some 0
  /\ EclStone1MaterialParams.oilWaterParams_ SampleObjects.stone1_fresh = Some 1
  /\ 0 <> 1
  /\ SampleObjects.stone1_fresh_store !! 0
     = Some (default_value SampleObjects.TwoPhaseParams)
  /\ SampleObjects.stone1_fresh_store !! 1
     = Some (default_value SampleObjects.TwoPhaseParams)
  /\ exists hook hook' s1,
       EclStone1MaterialParams.serializeOp SampleObjects.TwoPhaseParams
         SampleObjects.TwoPhaseParams (operator_call P place grants)
         SampleObjects.stone1_params = Some hook
       /\ EclStone1MaterialParams.serializeOp SampleObjects.TwoPhaseParams
            SampleObjects.TwoPhaseParams (operator_call P place grants)
            SampleObjects.stone1_fresh = Some hook'
       /\ addressable (pass_size hook SampleObjects.stone1_store)
       /\ pack_object hook (Sample.fresh [], SampleObjects.stone1_store)
          = Ok SampleObjects.stone1_params (s1, SampleObjects.stone1_store)
       /\ m_buffer s1
          = MemPacker.enc (LInt 7) ++ [Byte.x01] ++ MemPacker.enc (LInt 8) ++ [Byte.x00]
       /\ forall s2,
            m_buffer s2 = m_buffer s1 ->
            exists s3 h3 va' vb',
              unpack_object hook' (s2, SampleObjects.stone1_fresh_store)
              = Ok SampleObjects.stone1_fresh (s3, h3)
              /\ h3 !! 0 = Some va' /\ h3 !! 1 = Some vb'
              /\ obs_eq SampleObjects.stone1_store h3 SampleObjects.TwoPhaseParams
                   SampleObjects.gasOil va'
              /\ obs_eq SampleObjects.stone1_store h3 SampleObjects.TwoPhaseParams
                   SampleObjects.oilWater vb'
              /\ position (s3, h3) = Ok (N.of_nat (length (m_buffer s3))) (s3, h3).
Proof.
  assert (Hne : 0 <> 1) by discriminate.
  split; [exact MemPacker_inverts|]. split; [reflexivity|].
  do 4 (split; [reflexivity|]).
  split; [exact (proj1 (two_phase_wf _))|]. split; [exact (proj2 (two_phase_wf _))|].
  split; [exact (proj1 (two_phase_granted _))|].
  split; [exact (proj2 (two_phase_granted _))|].
  do 2 (split; [reflexivity|]). split; [exact Hne|]. do 2 (split; [reflexivity|]).
  destruct (EclStone1MaterialParams_round_trip P place grants MemPacker.enc MemPacker.encN
              MemPacker_inverts SampleObjects.TwoPhaseParams SampleObjects.TwoPhaseParams
              SampleObjects.stone1_params 0 1 SampleObjects.gasOil SampleObjects.oilWater
              (Sample.fresh []) SampleObjects.stone1_store eq_refl eq_refl eq_refl
              eq_refl eq_refl eq_refl (proj1 (two_phase_wf _)) (proj2 (two_phase_wf _))
              (proj1 (two_phase_granted _)) (proj2 (two_phase_granted _)))
    as (hook & Hhook & Hrun).
  injection Hhook as <-.
  assert (Hadd : addressable
                   (pass_size
                      (_ ← EclStone1MaterialParams.through (operator_call P place grants)
                             SampleObjects.TwoPhaseParams 0;
                       _ ← EclStone1MaterialParams.through (operator_call P place grants)
                             SampleObjects.TwoPhaseParams 1;
                       mret SampleObjects.stone1_params) SampleObjects.stone1_store)).
  { unfold addressable. vm_compute. reflexivity. }
  destruct (Hrun Hadd) as (s1 & Hpack & Hbuf1 & Hunpack).
  eexists _, _, s1. split; [reflexivity|]. split; [reflexivity|].
  split; [exact Hadd|]. split; [exact Hpack|].
  split; [rewrite <- Hbuf1; reflexivity|].
  intros s2 Hbuf.
  destruct (Hunpack SampleObjects.stone1_fresh 0 1 s2 SampleObjects.stone1_fresh_store
              Hbuf eq_refl eq_refl Hne eq_refl eq_refl)
    as (hook' & s3 & h3 & va' & vb' & Hhook' & H).
  injection Hhook' as <-. by exists s3, h3, va', vb'.
Defined.

Lemma ptr_packs_as_optional_witness :
  supported SampleObjects.TwoPhaseParams = true
  /\ wf_value SampleObjects.stone1_store (SPtr SampleObjects.TwoPhaseParams)
       (VPtr (Some 1))
  /\ buffer_of (pack P place grants (SPtr SampleObjects.TwoPhaseParams) (VPtr (Some 1))
                  (Sample.fresh [], SampleObjects.stone1_store))
     = buffer_of (pack P place grants (SOptional SampleObjects.TwoPhaseParams)
                    (VOptional (Some SampleObjects.oilWater))
                    (Sample.fresh [], SampleObjects.stone1_store)).
Proof.
  assert (H : wf_value SampleObjects.stone1_store (SPtr SampleObjects.TwoPhaseParams)
                (VPtr (Some 1))).
  { apply (wf_ptr _ _ 1 SampleObjects.oilWater); [reflexivity|].
    exact (proj2 (two_phase_wf _)). }
  split; [reflexivity|]. split; [exact H|].
  exact (ptr_packs_as_optional P place grants SampleObjects.TwoPhaseParams (Some 1) (Sample.fresh [])
           SampleObjects.stone1_store eq_refl H).
Defined.

End Samples.
